(** * AI-CSV-Parser: the streaming parsers and the generator of test files

    A shallow embedding of the streaming CSV parser (the plain parser and its
    AI-cleaning twin share [parseCsvLine] and [splitLinesFromBuffer] verbatim),
    of the drivers of both, of what the AI-cleaning parser does with the
    responses of its consumer, and of the generator of test files; the
    properties of the parser that the specification states; and further
    properties of the parsers, of the generator, and of the two together.

    Modelling conventions.
    - A Node [Buffer] is a [list byte]; [buffer[i]] is [nth_error], so an index
      out of range reads [None] (JavaScript's [undefined]), which is equal to
      no character code.
    - Index variables ([i], [lineStart], [lastNewLinePos], [end]) are [Z], as
      [lastNewLinePos] starts at [-1].
    - A JavaScript string is a [string]; [Buffer.toString('utf8')] is the
      bytewise [string_of_list_byte].  This is exact on ASCII input.  The four
      bytes the parser looks at (quote, comma, LF, CR) are ASCII and never occur
      inside a UTF-8 multi-byte sequence, so every other byte is payload that
      both scanners only copy.
    - A plain JavaScript object is the list of its own properties in
      enumeration order.
    - The byte source is the list of the chunks it delivers, in order.
    - Of what the parser prints, the per-line output of [processBlockOfLines]
      is kept: the records.  The counters and the banner lines are not.
    - [Math.random] is not modelled.  A function of the generator that draws
      takes what it computes from its draws as arguments: the natural number
      that [Math.floor(Math.random() * n)] gives, and the number that is
      compared with a threshold.  That number is a double: it is read as the
      rational it is, and compared with the double that the literal of the
      threshold denotes.
    - The numbers of the generator ([numLines], [batchSize], [rowsWritten])
      are integers. *)

From Stdlib.Strings Require Import String Ascii Byte.
From Stdlib Require Import List NArith ZArith QArith Bool Lia DecimalString DecimalPos.
Import ListNotations.
Local Open Scope Z_scope.
Local Open Scope list_scope.

(** * The model *)

(** ** Constants *)

Definition DELIMITER : ascii := ascii_of_byte x2c.
Definition QUOTE : ascii := ascii_of_byte x22.
Definition NEWLINE : ascii := ascii_of_byte x0a.
Definition CARRIAGE_RETURN : ascii := ascii_of_byte x0d.

(** [NEWLINE.charCodeAt(0)] and the like. *)
Definition LF : byte := byte_of_ascii NEWLINE.
Definition CR : byte := byte_of_ascii CARRIAGE_RETURN.
Definition QUOTE_CHAR_CODE : byte := byte_of_ascii QUOTE.

(** ** Buffers *)

Definition Buffer := list byte.

Definition toString (b : Buffer) : string := string_of_list_byte b.

(** [buffer.length] *)
Definition len (buffer : Buffer) : Z := Z.of_nat (length buffer).

(** [buffer[i]] *)
Definition at_ (buffer : Buffer) (i : Z) : option byte :=
  if i <? 0 then None else nth_error buffer (Z.to_nat i).

(** [buffer[i] === code] *)
Definition is_code (o : option byte) (code : byte) : bool :=
  match o with
  | Some b => Byte.eqb b code
  | None => false
  end.

(** [buffer.subarray(s, e)] for [0 <= s]: the bytes at the indices [s <= k < e],
    cut at the end of the buffer; empty when [e <= s]. *)
Definition subarray (buffer : Buffer) (s e : Z) : Buffer :=
  firstn (Z.to_nat (e - s)) (skipn (Z.to_nat s) buffer).

(** [buffer.subarray(s)] for [0 <= s]. *)
Definition subarray_from (buffer : Buffer) (s : Z) : Buffer :=
  skipn (Z.to_nat s) buffer.

(** ASCII text as bytes, for the examples. *)
Definition bytes (s : string) : Buffer := list_byte_of_string s.

(** ** The field tokenizer *)

(** The body of [for (const char of line)], with the three local variables of
    [parseCsvLine] as arguments; at the end of the line the last value is
    pushed. *)
Fixpoint parseCsvLine_loop (line : string) (values : list string)
    (current : string) (inQuotes : bool) : list string :=
  match line with
  | EmptyString => values ++ [current]
  | String char rest =>
      if Ascii.eqb char QUOTE then
        parseCsvLine_loop rest values current (negb inQuotes)
      else if Ascii.eqb char DELIMITER && negb inQuotes then
        parseCsvLine_loop rest (values ++ [current]) EmptyString inQuotes
      else
        parseCsvLine_loop rest values (current ++ String char EmptyString) inQuotes
  end.

Definition parseCsvLine (line : string) : list string :=
  parseCsvLine_loop line [] EmptyString false.

(** ** The chunk line splitter *)

Module Scan.

(** The local variables of [splitLinesFromBuffer]. *)
Record state := mk {
  lines : list string;
  lineStart : Z;
  lastNewLinePos : Z;
  inQuotes : bool;
  i : Z
}.

Definition init : state :=
  {| lines := []; lineStart := 0; lastNewLinePos := -1; inQuotes := false; i := 0 |}.

(** The first [if] of the loop body: a quote toggles the flag, and a quote
    right after it is stepped over. *)
Definition on_quote (buffer : Buffer) (st : state) : state :=
  if is_code (at_ buffer (i st)) QUOTE_CHAR_CODE then
    let inQuotes' := negb (inQuotes st) in
    if (i st + 1 <? len buffer) && is_code (at_ buffer (i st + 1)) QUOTE_CHAR_CODE then
      mk (lines st) (lineStart st) (lastNewLinePos st) inQuotes' (i st + 1)
    else
      mk (lines st) (lineStart st) (lastNewLinePos st) inQuotes' (i st)
  else st.

(** [end] of the line that a line feed at [i] closes. *)
Definition line_end (buffer : Buffer) (i : Z) : Z :=
  if (0 <? i) && is_code (at_ buffer (i - 1)) CR then i - 1 else i.

(** The second [if] of the loop body: a line feed outside quotes closes the
    line. *)
Definition on_newline (buffer : Buffer) (st : state) : state :=
  if is_code (at_ buffer (i st)) LF && negb (inQuotes st) then
    mk (lines st ++ [toString (subarray buffer (lineStart st) (line_end buffer (i st)))])
       (i st + 1) (i st) (inQuotes st) (i st)
  else st.

(** One iteration of [while (i < buffer.length)]. *)
Definition body (buffer : Buffer) (st : state) : state :=
  let st2 := on_newline buffer (on_quote buffer st) in
  mk (lines st2) (lineStart st2) (lastNewLinePos st2) (inQuotes st2) (i st2 + 1).

(** The loop.  Every iteration advances [i], so [length buffer] iterations
    are enough: [loop_exits] shows that the loop condition is false in the
    state that comes back. *)
Fixpoint loop (fuel : nat) (buffer : Buffer) (st : state) : state :=
  match fuel with
  | O => st
  | S fuel' =>
      if i st <? len buffer then loop fuel' buffer (body buffer st) else st
  end.

(** The state when the loop is left. *)
Definition run (buffer : Buffer) : state := loop (length buffer) buffer init.

(** The state at the loop head after [k] iterations. *)
Fixpoint after (k : nat) (buffer : Buffer) : state :=
  match k with
  | O => init
  | S k' => body buffer (after k' buffer)
  end.

End Scan.

(** What [splitLinesFromBuffer] returns. *)
Record SplitResult := mkSplit {
  lines : list string;
  remainder : Buffer
}.

Definition splitLinesFromBuffer (buffer : Buffer) : SplitResult :=
  let st := Scan.run buffer in
  if (Scan.lastNewLinePos st =? -1) && negb (Scan.inQuotes st) && (0 <? len buffer) then
    {| lines := Scan.lines st ++ [toString buffer]; remainder := [] |}
  else
    {| lines := Scan.lines st;
       remainder := subarray_from buffer
                      (if 0 <=? Scan.lastNewLinePos st
                       then Scan.lastNewLinePos st + 1
                       else Scan.lineStart st) |}.

(** ** Plain objects *)

Module Obj.

(** The own properties of an object, in the order [Object.keys], the spread
    operator and [JSON.stringify] visit them: the array-index keys in
    ascending numeric order, then the other keys in creation order. *)
Definition t (V : Type) := list (string * V).

Definition empty {V : Type} : t V := [].

Definition is_digit (c : ascii) : bool :=
  let n := N_of_ascii c in (48 <=? n)%N && (n <=? 57)%N.

Fixpoint digits (s : string) (acc : N) : option N :=
  match s with
  | EmptyString => Some acc
  | String c r =>
      if is_digit c then digits r (acc * 10 + (N_of_ascii c - 48))%N else None
  end.

(** An array index is the canonical decimal form of an integer below
    [2^32 - 1]: the digit zero alone, or digits without a leading zero. *)
Definition array_index (key : string) : option N :=
  match key with
  | EmptyString => None
  | String c r =>
      if Ascii.eqb c (ascii_of_byte x30) then
        match r with EmptyString => Some 0%N | _ => None end
      else
        match digits key 0 with
        | Some n => if (n <? 4294967295)%N then Some n else None
        | None => None
        end
  end.

Definition proto : string := "__proto__".

Fixpoint get {V : Type} (o : t V) (key : string) : option V :=
  match o with
  | [] => None
  | (k, v) :: rest => if String.eqb k key then Some v else get rest key
  end.

Definition has {V : Type} (o : t V) (key : string) : bool :=
  match get o key with Some _ => true | None => false end.

(** Overwrite the value of a property that exists; its place is kept. *)
Fixpoint update {V : Type} (o : t V) (key : string) (v : V) : t V :=
  match o with
  | [] => []
  | (k, w) :: rest =>
      if String.eqb k key then (k, v) :: rest else (k, w) :: update rest key v
  end.

(** Create an array-index property: it goes before the first property that
    is not an array index or is a larger one. *)
Fixpoint insert_index {V : Type} (o : t V) (n : N) (key : string) (v : V) : t V :=
  match o with
  | [] => [(key, v)]
  | (k, w) :: rest =>
      match array_index k with
      | Some m => if (m <? n)%N then (k, w) :: insert_index rest n key v
                  else (key, v) :: o
      | None => (key, v) :: o
      end
  end.

(** Create or overwrite an own property (what an object literal's spread
    does, and assignment for a key that is not inherited). *)
Definition define {V : Type} (o : t V) (key : string) (v : V) : t V :=
  if has o key then update o key v
  else match array_index key with
       | Some n => insert_index o n key v
       | None => o ++ [(key, v)]
       end.

(** [o[key] = v] for an object made by [{}] and a value that is a string:
    the one accessor that [Object.prototype] has, [__proto__], ignores a
    value that is neither an object nor [null]; every other key becomes or
    updates an own property. *)
Definition set {V : Type} (o : t V) (key : string) (v : V) : t V :=
  if String.eqb key proto then o else define o key v.

(** [delete o[key]] *)
Definition delete {V : Type} (o : t V) (key : string) : t V :=
  filter (fun kv => negb (String.eqb (fst kv) key)) o.

(** [{...o, ...src}]: the properties of [src] are defined on a copy of [o],
    in order. *)
Definition spread {V : Type} (o src : t V) : t V :=
  fold_left (fun acc kv => define acc (fst kv) (snd kv)) src o.

End Obj.

(** ** The driver of the plain parser *)

(** [headers.forEach((header, index) => { if (index < values.length)
    row[header] = values[index]; })] *)
Fixpoint forEach_header (headers : list string) (index : nat)
    (values : list string) (row : Obj.t string) : Obj.t string :=
  match headers with
  | [] => row
  | header :: rest =>
      let row' :=
        match nth_error values index with
        | Some v => Obj.set row header v
        | None => row
        end in
      forEach_header rest (S index) values row'
  end.

(** The record of one line: [const row = {}] filled by the [forEach]. *)
Definition buildRow (headers values : list string) : Obj.t string :=
  forEach_header headers 0 values Obj.empty.

(** What the plain parser prints for a line: the record, or the bare values
    when there is no header. *)
Inductive Logged :=
| LogRow (row : Obj.t string)
| LogValues (values : list string).

Definition processLine (headers : list string) (line : string) : Logged :=
  let values := parseCsvLine line in
  if (0 <? Z.of_nat (length headers)) then LogRow (buildRow headers values)
  else LogValues values.

(** The per-line output of [processBlockOfLines], in order. *)
Definition processBlockOfLines (lines : list string) (headers : list string)
    : list Logged :=
  map (processLine headers) lines.

Module Driver.

(** The local variables of [parseAndLogCsv], and what it has printed for
    the data lines so far. *)
Record state := mk {
  chunksCount : Z;
  headers : list string;
  isFirstChunk : bool;
  remainderBuffer : Buffer;
  logged : list Logged
}.

Definition init : state :=
  {| chunksCount := 0; headers := []; isFirstChunk := true;
     remainderBuffer := []; logged := [] |}.

(** One iteration of [for await (const chunk of stream)]. *)
Definition step (st : state) (chunk : Buffer) : state :=
  let buffer := remainderBuffer st ++ chunk in
  let r := splitLinesFromBuffer buffer in
  if isFirstChunk st && (0 <? Z.of_nat (length (lines r))) then
    let headers' := parseCsvLine (hd EmptyString (lines r)) in
    mk (chunksCount st + 1) headers' false (remainder r)
       (logged st ++ processBlockOfLines (tl (lines r)) headers')
  else
    mk (chunksCount st + 1) (headers st) (isFirstChunk st) (remainder r)
       (logged st ++ processBlockOfLines (lines r) (headers st)).

(** The state when the stream is exhausted. *)
Definition drain (chunks : list Buffer) : state :=
  fold_left step chunks init.

(** The [if] after the loop: what is left in the remainder is split once
    more, and the remainder that this call returns is not looked at. *)
Definition finish (st : state) : state :=
  if 0 <? len (remainderBuffer st) then
    let r := splitLinesFromBuffer (remainderBuffer st) in
    mk (chunksCount st + 1) (headers st) (isFirstChunk st) (remainderBuffer st)
       (logged st ++ processBlockOfLines (lines r) (headers st))
  else st.

End Driver.

Definition parseAndLogCsv (chunks : list Buffer) : Driver.state :=
  Driver.finish (Driver.drain chunks).

(** The records of a parse, in order. *)
Definition records (chunks : list Buffer) : list Logged :=
  Driver.logged (parseAndLogCsv chunks).

(** ** The AI-cleaning parser: rows after the consumer *)

Module AI.

(** A value of a property in a cleaned row: a string, or the [null] that
    the response schemas allow. *)
Inductive JsValue :=
| JString (s : string)
| JNull.

(** What [cleanPhoneNumber] and [cleanAddress] return when the response
    parses: the own properties of the parsed JSON ([cleanedDataPhone],
    [cleanedDataAddress]) and the token counts. *)
Record Cleaned := mkCleaned {
  cleanedData : Obj.t JsValue;
  promptTokens : option Z;
  completionTokens : option Z
}.

(** How a call to the consumer ends: the request throws and the promise is
    rejected, or the promise resolves, to [null] ([None]) when the response
    could not be parsed. *)
Inductive Outcome :=
| Rejected
| Resolved (response : option Cleaned).

Inductive Call :=
| CallPhone (phoneNumber : option string)
| CallAddress (address : option string).

(** The string values of a row as values of the result. *)
Definition lift (row : Obj.t string) : Obj.t JsValue :=
  map (fun kv => (fst kv, JString (snd kv))) row.

Fixpoint mapi_from {A B : Type} (f : nat -> A -> B) (index : nat) (l : list A)
    : list B :=
  match l with
  | [] => []
  | a :: rest => f index a :: mapi_from f (S index) rest
  end.

(** [l.map((a, index) => f(index, a))] *)
Definition mapi {A B : Type} (f : nat -> A -> B) (l : list A) : list B :=
  mapi_from f 0 l.

(** [await Promise.all(promises)]: the responses in order, or [None] when a
    promise is rejected and the [await] throws. *)
Fixpoint Promise_all (promises : list Outcome) : option (list (option Cleaned)) :=
  match promises with
  | [] => Some []
  | Rejected :: _ => None
  | Resolved response :: rest => option_map (cons response) (Promise_all rest)
  end.

(** [...responses[index]?.cleanedData]: nothing for [null]. *)
Definition cleaned_props (response : option (option Cleaned)) : Obj.t JsValue :=
  match response with
  | Some (Some c) => cleanedData c
  | _ => []
  end.

(** One call of each cleaner for every row, with [row.phone] and
    [row.address]: the calls of a run without retries. *)
Definition calls (rows : list (Obj.t string)) : list Call :=
  flat_map (fun row => [CallPhone (Obj.get row "phone");
                        CallAddress (Obj.get row "address")]) rows.

Section Consumer.

(** The consumer: the outcome of the call made for the row at [index]. *)
Variables cleanPhoneNumber cleanAddress : nat -> option string -> Outcome.

(** The first loop of [postProcessRows]: for each row the two cleaners are
    called, in this order, and the promises are pushed.  [trace] records the
    calls as they are made. *)
Fixpoint start_calls (index : nat) (rows : list (Obj.t string))
    (trace : list Call) (phoneNumbers addresses : list Outcome)
    : list Call * list Outcome * list Outcome :=
  match rows with
  | [] => (trace, phoneNumbers, addresses)
  | row :: rest =>
      let phone := Obj.get row "phone" in
      let address := Obj.get row "address" in
      start_calls (S index) rest
        (trace ++ [CallPhone phone; CallAddress address])
        (phoneNumbers ++ [cleanPhoneNumber index phone])
        (addresses ++ [cleanAddress index address])
  end.

(** The calls made and the rows returned; [None] when an [await] throws. *)
Definition postProcessRows (rows : list (Obj.t string))
    : list Call * option (list (Obj.t JsValue)) :=
  let '(trace, phoneNumbers, addresses) := start_calls 0 rows [] [] [] in
  (trace,
   match Promise_all phoneNumbers with
   | None => None
   | Some phoneResponse =>
       match Promise_all addresses with
       | None => None
       | Some addressResponse =>
           Some (mapi (fun index row =>
                         let row' := Obj.delete row "address" in
                         Obj.spread
                           (Obj.spread (lift row')
                              (cleaned_props (nth_error addressResponse index)))
                           (cleaned_props (nth_error phoneResponse index)))
                      rows)
       end
   end).

(** [processBlockOfLines] of the AI-cleaning parser: a line gets a row only
    when there is a header. *)
Definition processBlockOfLines (lines : list string) (headers : list string)
    : list Call * option (list (Obj.t JsValue)) :=
  let processedRows :=
    flat_map (fun line =>
                let values := parseCsvLine line in
                if 0 <? Z.of_nat (length headers)
                then [buildRow headers values] else []) lines in
  postProcessRows processedRows.

End Consumer.

(** A consumer whose every call resolves to [null], and one whose calls are
    rejected. *)
Definition failing (index : nat) (arg : option string) : Outcome := Resolved None.

Definition rejecting (index : nat) (arg : option string) : Outcome := Rejected.

End AI.

(** ** The driver of the AI-cleaning parser *)

Module AIDriver.

(** The local variables of [parseAndLogCsv] in the AI-cleaning parser. *)
Record state := mk {
  chunksCount : Z;
  headers : list string;
  isFirstChunk : bool;
  processedRows : list (Obj.t AI.JsValue);
  remainderBuffer : Buffer
}.

Definition init : state :=
  {| chunksCount := 0; headers := []; isFirstChunk := true;
     processedRows := []; remainderBuffer := [] |}.

Section Consumer.

(** The consumer: the outcome of the call made for the row at an index of
    the block that is processed when [chunksCount] has the given value. *)
Variables cleanPhoneNumber cleanAddress : Z -> nat -> option string -> AI.Outcome.

(** [await processBlockOfLines(lines, headers)]: [None] when it throws. *)
Definition awaitBlock (count : Z) (lines headers : list string)
    : option (list (Obj.t AI.JsValue)) :=
  snd (AI.processBlockOfLines (cleanPhoneNumber count) (cleanAddress count) lines headers).

(** One iteration of [for await (const chunk of stream)]; [None] when the
    [await] throws and the parse is rejected. *)
Definition step (st : state) (chunk : Buffer) : option state :=
  let buffer := remainderBuffer st ++ chunk in
  let r := splitLinesFromBuffer buffer in
  if isFirstChunk st && (0 <? Z.of_nat (length (lines r))) then
    let headers' := parseCsvLine (hd EmptyString (lines r)) in
    match awaitBlock (chunksCount st) (tl (lines r)) headers' with
    | None => None
    | Some rows =>
        Some (mk (chunksCount st + 1) headers' false (processedRows st ++ rows)
                (remainder r))
    end
  else
    match awaitBlock (chunksCount st) (lines r) (headers st) with
    | None => None
    | Some rows =>
        Some (mk (chunksCount st + 1) (headers st) (isFirstChunk st)
                (processedRows st ++ rows) (remainder r))
    end.

Definition step_opt (st : option state) (chunk : Buffer) : option state :=
  match st with
  | Some st => step st chunk
  | None => None
  end.

Definition drain (chunks : list Buffer) : option state :=
  fold_left step_opt chunks (Some init).

(** The [if] after the loop. *)
Definition finish (st : state) : option state :=
  if 0 <? len (remainderBuffer st) then
    let r := splitLinesFromBuffer (remainderBuffer st) in
    match awaitBlock (chunksCount st) (lines r) (headers st) with
    | None => None
    | Some rows =>
        Some (mk (chunksCount st + 1) (headers st) (isFirstChunk st)
                (processedRows st ++ rows) (remainderBuffer st))
    end
  else Some st.

(** The rows that the promise resolves to; [None] when it is rejected. *)
Definition parseAndLogCsv (chunks : list Buffer) : option (list (Obj.t AI.JsValue)) :=
  match drain chunks with
  | Some st => option_map processedRows (finish st)
  | None => None
  end.

End Consumer.

End AIDriver.

(** ** The generator of test files *)

Module Gen.

(** [`${n}`] and [n.toString()] for a number that is a natural number. *)
Definition numberToString (n : N) : string :=
  NilEmpty.string_of_uint (N.to_uint n).

Fixpoint repeat_char (c : ascii) (n : nat) : string :=
  match n with
  | O => EmptyString
  | S n' => String c (repeat_char c n')
  end.

(** [s.padStart(targetLength, pad)] for a pad of one character. *)
Definition padStart (targetLength : nat) (pad : ascii) (s : string) : string :=
  (repeat_char pad (targetLength - String.length s) ++ s)%string.

(** [c.toLowerCase()] for an ASCII character. *)
Definition lower (c : ascii) : ascii :=
  let n := N_of_ascii c in
  if (65 <=? n)%N && (n <=? 90)%N then ascii_of_N (n + 32) else c.

Fixpoint toLowerCase (s : string) : string :=
  match s with
  | EmptyString => EmptyString
  | String c rest => String (lower c) (toLowerCase rest)
  end.

(** The ASCII characters that [\s] matches. *)
Definition is_space (c : ascii) : bool :=
  let n := N_of_ascii c in
  ((9 <=? n)%N && (n <=? 13)%N) || (n =? 32)%N.

(** [s.replace(/\s+/g, '.')]: every maximal run of white space becomes one
    dot.  [inRun] says that the character before was white space. *)
Fixpoint replace_spaces (s : string) (inRun : bool) : string :=
  match s with
  | EmptyString => EmptyString
  | String c rest =>
      if is_space c then
        if inRun then replace_spaces rest true
        else String "." (replace_spaces rest true)
      else String c (replace_spaces rest false)
  end.

(** [x < y] and [x > y] on doubles, read as rationals. *)
Definition lt (x y : Q) : bool := negb (Qle_bool y x).

Definition gt (x y : Q) : bool := negb (Qle_bool x y).

(** The doubles that the literals [0.7] and [0.85] denote: the nearest to
    7/10 is [3152519739159347 / 2^52], the nearest to 17/20 is
    [7656119366529843 / 2^53], and both are below the fraction.  The literals
    [0.25] and [0.5] denote these fractions. *)
Definition double_0_7 : Q := 3152519739159347 # 4503599627370496.

Definition double_0_85 : Q := 7656119366529843 # 9007199254740992.

Definition undefined : string := "undefined".

Definition firstNames : list string :=
  ["James"; "Mary"; "John"; "Patricia"; "Robert"; "Jennifer"; "Michael"; "Linda";
   "William"; "Elizabeth"; "David"; "Susan"; "Richard"; "Jessica"; "Joseph"; "Sarah";
   "Thomas"; "Karen"; "Charles"; "Nancy"; "Christopher"; "Lisa"; "Daniel"; "Margaret";
   "Matthew"; "Betty"; "Anthony"; "Sandra"; "Mark"; "Ashley"; "Donald"; "Dorothy";
   "Steven"; "Kimberly"; "Paul"; "Emily"; "Andrew"; "Donna"; "Joshua"; "Michelle";
   "Kenneth"; "Carol"; "Kevin"; "Amanda"; "Brian"; "Melissa"; "George"; "Deborah"]%string.

Definition lastNames : list string :=
  ["Smith"; "Johnson"; "Williams"; "Brown"; "Jones"; "Miller"; "Davis"; "Garcia";
   "Rodriguez"; "Wilson"; "Martinez"; "Anderson"; "Taylor"; "Thomas"; "Hernandez";
   "Moore"; "Martin"; "Jackson"; "Thompson"; "White"; "Lopez"; "Lee"; "Gonzalez";
   "Harris"; "Clark"; "Lewis"; "Robinson"; "Walker"; "Perez"; "Hall"; "Young";
   "Allen"; "Sanchez"; "Wright"; "King"; "Scott"; "Green"; "Baker"; "Adams";
   "Nelson"; "Hill"; "Ramirez"; "Campbell"; "Mitchell"; "Roberts"; "Carter";
   "Phillips"; "Evans"; "Turner"; "Torres"; "Parker"; "Collins"; "Edwards"; "Stewart"]%string.

(** [firstNames[i]] and [lastNames[j]] in a template; an index out of range
    reads [undefined]. *)
Definition generateRandomName (i j : N) : string :=
  (nth (N.to_nat i) firstNames undefined ++ " "
   ++ nth (N.to_nat j) lastNames undefined)%string.

(** [Math.floor(Math.random() * 73) + 18] *)
Definition generateRandomAge (k : N) : N := (k + 18)%N.

Definition domains : list string :=
  ["gmail.com"; "yahoo.com"; "hotmail.com"; "outlook.com"; "icloud.com";
   "example.com"]%string.

(** [d] is the index drawn for the domain, [r] the number compared with 0.7
    and [n] the number that is appended when [r] is above it. *)
Definition generateRandomEmail (name : string) (d : N) (r : Q) (n : N) : string :=
  let domain := nth (N.to_nat d) domains undefined in
  let emailName := replace_spaces (toLowerCase name) false in
  let emailName :=
    if gt r double_0_7 then (emailName ++ numberToString n)%string else emailName in
  (emailName ++ "@" ++ domain)%string.

Definition streetNames : list string :=
  ["Main St"; "Oak Ave"; "Maple Dr"; "Washington Blvd"; "Park Ave"; "Pine St";
   "Cedar Ln"; "Lake St"; "Elm St"; "River Rd"; "Church St"; "High St";
   "Walnut St"; "Mill Rd"; "Sunset Dr"; "Lincoln Ave"; "Jackson St"; "Highland Ave";
   "Forest Ave"; "Broadway"; "Jefferson Ave"; "Center St"; "College St"; "Spring St";
   "Adams St"; "Madison Ave"; "Cherry St"; "Dogwood Ln"; "Valley Rd"; "Ridge Rd"]%string.

Record CityState := mkCityState { city : string; state : string }.

Definition cityStates : list CityState :=
  [mkCityState "New York" "NY"; mkCityState "Los Angeles" "CA";
   mkCityState "Chicago" "IL"; mkCityState "Houston" "TX";
   mkCityState "Phoenix" "AZ"; mkCityState "Philadelphia" "PA";
   mkCityState "San Antonio" "TX"; mkCityState "San Diego" "CA";
   mkCityState "Dallas" "TX"; mkCityState "San Jose" "CA";
   mkCityState "Austin" "TX"; mkCityState "Jacksonville" "FL";
   mkCityState "Fort Worth" "TX"; mkCityState "Columbus" "OH";
   mkCityState "Charlotte" "NC"; mkCityState "San Francisco" "CA";
   mkCityState "Indianapolis" "IN"; mkCityState "Seattle" "WA";
   mkCityState "Denver" "CO"; mkCityState "Boston" "MA"].

(** [n], [s], [c] and [z] are the numbers drawn for the street number, the
    street name, the city and the zip code.  [cityStates[c].city] throws for
    an index out of range: [None]. *)
Definition generateRandomAddress (n s c z : N) : option string :=
  let streetNumber := (n + 100)%N in
  let streetName := nth (N.to_nat s) streetNames undefined in
  match nth_error cityStates (N.to_nat c) with
  | None => None
  | Some cityState =>
      let zipCode := numberToString (z + 10000)%N in
      Some (numberToString streetNumber ++ " " ++ streetName ++ ", "
            ++ city cityState ++ ", " ++ state cityState ++ " " ++ zipCode)%string
  end.

(** [a], [p] and [l] are the numbers drawn for the area code, the prefix and
    the line number; [formatStyle] is the number that picks the format. *)
Definition generateRandomPhoneNumber (a p l : N) (formatStyle : Q) : string :=
  let areaCode := numberToString (a + 100)%N in
  let prefix := numberToString (p + 100)%N in
  let lineNumber := l in
  let lineNumberFormatted := padStart 4 "0" (numberToString lineNumber) in
  if lt formatStyle 0.25 then
    ("(" ++ areaCode ++ ") " ++ prefix ++ "-" ++ lineNumberFormatted)%string
  else if lt formatStyle 0.5 then
    (areaCode ++ "-" ++ prefix ++ "-" ++ lineNumberFormatted)%string
  else if lt formatStyle double_0_7 then
    (areaCode ++ prefix ++ lineNumberFormatted)%string
  else if lt formatStyle double_0_85 then
    (areaCode ++ "." ++ prefix ++ "." ++ lineNumberFormatted)%string
  else
    ("+1 " ++ areaCode ++ " " ++ prefix ++ " " ++ lineNumberFormatted)%string.

(** What is drawn for one row, in the order of the calls. *)
Record Draws := mkDraws {
  firstName : N;
  lastName : N;
  ageDraw : N;
  domain : N;
  addNumbers : Q;
  numbers : N;
  streetNumber : N;
  streetName : N;
  cityState : N;
  zipCode : N;
  areaCode : N;
  prefix : N;
  lineNumber : N;
  formatStyle : Q
}.

(** The five constants of the body of the [for] loop. *)
Record Row := mkRow {
  name : string;
  age : N;
  email : string;
  address : string;
  phone : string
}.

Definition generateFields (d : Draws) : option Row :=
  let name := generateRandomName (firstName d) (lastName d) in
  let age := generateRandomAge (ageDraw d) in
  let email := generateRandomEmail name (domain d) (addNumbers d) (numbers d) in
  match generateRandomAddress (streetNumber d) (streetName d) (cityState d) (zipCode d) with
  | None => None
  | Some address =>
      let phone :=
        generateRandomPhoneNumber (areaCode d) (prefix d) (lineNumber d) (formatStyle d) in
      Some (mkRow name age email address phone)
  end.

(** The template of a row. *)
Definition rowText (r : Row) : string :=
  (name r ++ "," ++ numberToString (age r) ++ "," ++ email r ++ ","
   ++ String QUOTE (address r ++ String QUOTE (","
   ++ String QUOTE (phone r ++ String QUOTE (String NEWLINE EmptyString)))))%string.

Definition header : string :=
  ("name,age,email,address,phone" ++ String NEWLINE EmptyString)%string.

Definition defaultBatchSize : Z := 100000.

(** The variables that [processBatch] closes over, what has been passed to
    [writeStream.write] so far, and the number of rows generated so far. *)
Record progress := mk {
  rowsWritten : Z;
  isWriting : bool;
  written : list string;
  generated : nat
}.

(** How a call of [processBatch] ends: the stream is ended and the promise
    resolved; it returns at [if (isWriting)] and nothing is scheduled; a
    generator throws; or the next call is scheduled. *)
Inductive Step :=
| Finish
| Return
| Throw
| Again (st : progress).

Section Draws.

(** The draws of the row generated as the [k]-th. *)
Variable draws : nat -> Draws.

(** [count] iterations of the [for] loop, the first for the [k]-th row. *)
Fixpoint generateBatch (count : nat) (k : nat) (batch : string) : option string :=
  match count with
  | O => Some batch
  | S count' =>
      match generateFields (draws k) with
      | None => None
      | Some r => generateBatch count' (S k) (batch ++ rowText r)%string
      end
  end.

(** One call of [processBatch].  Both branches of [if (!canContinue)] set
    [isWriting] to false and arrange the next call. *)
Definition processBatch (numLines batchSize : Z) (st : progress) : Step :=
  if numLines <=? rowsWritten st then Finish
  else if isWriting st then Return
  else
    let batchEnd := Z.min (rowsWritten st + batchSize) numLines in
    match generateBatch (Z.to_nat (batchEnd - rowsWritten st)) (generated st) EmptyString with
    | None => Throw
    | Some batch =>
        Again (mk batchEnd false (written st ++ [batch])
                 (generated st + Z.to_nat (batchEnd - rowsWritten st)))
    end.

(** What has come of the promise after the calls made so far. *)
Inductive Outcome :=
| Resolved (written : list string)
| Stalled
| Thrown
| Pending (st : progress).

Fixpoint run (fuel : nat) (numLines batchSize : Z) (st : progress) : Outcome :=
  match fuel with
  | O => Pending st
  | S fuel' =>
      match processBatch numLines batchSize st with
      | Finish => Resolved (written st)
      | Return => Stalled
      | Throw => Thrown
      | Again st' => run fuel' numLines batchSize st'
      end
  end.

(** [generateLargeCsv(numLines, outputPath, batchSize)] after at most [fuel]
    calls of [processBatch]: the header is written first. *)
Definition generateLargeCsv (numLines batchSize : Z) (fuel : nat) : Outcome :=
  run fuel numLines batchSize (mk 0 false [header] 0).

End Draws.

End Gen.

(** ** A structural reading of the scan

    The same scan by recursion on the bytes still to read: [cur] holds the
    bytes of the line being read, [acc] the byte ranges of the lines closed so
    far.  [scan_from_loop] shows that the loop computes exactly this. *)

Definition last_byte (l : Buffer) : option byte :=
  match rev l with
  | [] => None
  | b :: _ => Some b
  end.

(** The line without the carriage return that ends it, if one does. *)
Definition chompCR (cur : Buffer) : Buffer :=
  if is_code (last_byte cur) CR then removelast cur else cur.

(** The bytes that end the line [cur] when a line feed follows it. *)
Definition eol_of (cur : Buffer) : Buffer :=
  if is_code (last_byte cur) CR then [CR; LF] else [LF].

Fixpoint scan_from (inQ : bool) (cur : Buffer) (acc : list Buffer) (rest : Buffer)
    : list Buffer * Buffer * bool :=
  match rest with
  | [] => (acc, cur, inQ)
  | b :: r =>
      if Byte.eqb b QUOTE_CHAR_CODE then
        match r with
        | b' :: r' =>
            if Byte.eqb b' QUOTE_CHAR_CODE
            then scan_from (negb inQ) (cur ++ [b; b']) acc r'
            else scan_from (negb inQ) (cur ++ [b]) acc r
        | [] => (acc, cur ++ [b], negb inQ)
        end
      else if Byte.eqb b LF && negb inQ then
        scan_from false [] (acc ++ [chompCR cur]) r
      else
        scan_from inQ (cur ++ [b]) acc r
  end.

(** What the scan of a whole buffer yields: the closed lines, the open line
    and the flag. *)
Definition scan (buffer : Buffer) : list Buffer * Buffer * bool :=
  scan_from false [] [] buffer.

(** The closing [if] of [splitLinesFromBuffer] on the outcome of the scan. *)
Definition finalize (buffer : Buffer) (out : list Buffer * Buffer * bool) : SplitResult :=
  let '(acc, cur, inQ) := out in
  match acc with
  | [] => if negb inQ && (0 <? len buffer)
          then {| lines := [toString buffer]; remainder := [] |}
          else {| lines := []; remainder := cur |}
  | _ :: _ => {| lines := map toString acc; remainder := cur |}
  end.

(** The loop state when the bytes [pre0] lie before the line being read, [cur]
    are the bytes of that line read so far, and [acc] are the closed lines. *)
Definition state_at (pre0 cur : Buffer) (acc : list Buffer) (inQ : bool) : Scan.state :=
  Scan.mk (map toString acc) (len pre0) (len pre0 - 1) inQ (len pre0 + len cur).

(** A fresh scan of the line [cur ++ rest] comes to [rest] with the flag
    [inQ] after reading [cur]. *)
Definition reaches (inQ : bool) (cur rest : Buffer) : Prop :=
  forall acc, scan_from false [] acc (cur ++ rest) = scan_from inQ cur acc rest.

(** ** Notions that the properties are stated with *)

(** [s.includes(c)] *)
Fixpoint contains (c : ascii) (s : string) : bool :=
  match s with
  | EmptyString => false
  | String c' rest => Ascii.eqb c' c || contains c rest
  end.

Definition quote_free (s : string) : bool := negb (contains QUOTE s).

(** A name that assignment stores as an ordinary own property, after the
    properties already there. *)
Definition ordinary_key (key : string) : bool :=
  negb (String.eqb key Obj.proto) &&
  match Obj.array_index key with None => true | Some _ => false end.

(** The tail of the stream read so far that starts after the last line feed
    outside quotes: the open line. *)
Definition open_line (consumed : Buffer) : Buffer :=
  subarray_from consumed (Scan.lineStart (Scan.run consumed)).

(** The driver carries the open line of the stream read so far. *)
Definition remainder_at_line_start (consumed carried : Buffer) : Prop :=
  carried = open_line consumed.

(** The closing [if] of [splitLinesFromBuffer] takes the buffer for a whole
    line: no line feed closed a line, the flag is off, the buffer is not
    empty. *)
Definition taken_whole (buffer : Buffer) : bool :=
  let st := Scan.run buffer in
  (Scan.lastNewLinePos st =? -1) && negb (Scan.inQuotes st) && (0 <? len buffer).

(** The lines that the loop of the driver gets from the splitter over the
    chunks, and the remainder it is left with. *)
Fixpoint split_chunks (carried : Buffer) (chunks : list Buffer) : list string * Buffer :=
  match chunks with
  | [] => ([], carried)
  | chunk :: rest =>
      let r := splitLinesFromBuffer (carried ++ chunk) in
      let '(ls, rem) := split_chunks (remainder r) rest in
      (lines r ++ ls, rem)
  end.

(** No buffer that the loop of the driver hands to the splitter is taken for
    a whole line. *)
Fixpoint smooth (carried : Buffer) (chunks : list Buffer) : bool :=
  match chunks with
  | [] => true
  | chunk :: rest =>
      negb (taken_whole (carried ++ chunk)) &&
      smooth (remainder (splitLinesFromBuffer (carried ++ chunk))) rest
  end.

(** The state of the driver after [n] chunks that gave the lines [all] and
    left [rem]: the first line is the header, the others are data. *)
Definition driver_of (all : list string) (rem : Buffer) (n : Z) : Driver.state :=
  match all with
  | [] => Driver.mk n [] true rem []
  | first :: data =>
      Driver.mk n (parseCsvLine first) false rem
        (processBlockOfLines data (parseCsvLine first))
  end.

(** [line] without its quote characters. *)
Fixpoint remove_quotes (line : string) : string :=
  match line with
  | EmptyString => EmptyString
  | String c rest =>
      if Ascii.eqb c QUOTE then remove_quotes rest else String c (remove_quotes rest)
  end.

(** [fields.join(DELIMITER)] *)
Definition join (fields : list string) : string :=
  String.concat (String DELIMITER EmptyString) fields.

(** A text that the tokenizer reads as one field, as it is: no quote and no
    delimiter in it. *)
Definition plain_field (s : string) : bool :=
  negb (contains QUOTE s) && negb (contains DELIMITER s).

(** The terminator of a line that the splitter returns: a line feed, a
    carriage return and a line feed, or nothing for a buffer taken whole. *)
Definition terminator_of (buffer : Buffer) (eol : Buffer) : Prop :=
  eol = [LF] \/ eol = [CR; LF] \/ (eol = [] /\ taken_whole buffer = true).

Definition is_row (l : Logged) : bool :=
  match l with LogRow _ => true | LogValues _ => false end.

(** The records among what the plain parser prints. *)
Definition rows_of (l : list Logged) : list (Obj.t string) :=
  flat_map (fun x => match x with LogRow row => [row] | LogValues _ => [] end) l.

(** The row that [postProcessRows] hands on for [row] when the two calls
    made for it resolved to these responses. *)
Definition cleanRow (phoneResponse addressResponse : option AI.Cleaned)
    (row : Obj.t string) : Obj.t AI.JsValue :=
  Obj.spread
    (Obj.spread (AI.lift (Obj.delete row "address"))
       (AI.cleaned_props (Some addressResponse)))
    (AI.cleaned_props (Some phoneResponse)).

(** The value that the last property named [key] in [props] has. *)
Definition last_value {V : Type} (props : Obj.t V) (key : string) : option V :=
  Obj.get (rev props) key.

(** [r] is [row] after the responses that a resolving consumer gave for it. *)
Definition cleaned_from (phone addr : Z -> nat -> option string -> option AI.Cleaned)
    (r : Obj.t AI.JsValue) (row : Obj.t string) : Prop :=
  exists count index,
    r = cleanRow (phone count index (Obj.get row "phone"))
          (addr count index (Obj.get row "address")) row.

(** The two drivers have read the same chunks. *)
Definition same_progress (a : AIDriver.state) (d : Driver.state) : Prop :=
  AIDriver.chunksCount a = Driver.chunksCount d /\
  AIDriver.headers a = Driver.headers d /\
  AIDriver.isFirstChunk a = Driver.isFirstChunk d /\
  AIDriver.remainderBuffer a = Driver.remainderBuffer d.

(** The AI-cleaning driver has thrown and the plain one has printed a record,
    or neither has a row yet. *)
Definition thrown_or_empty (oa : option AIDriver.state) (d : Driver.state) : Prop :=
  match oa with
  | Some a => same_progress a d /\ AIDriver.processedRows a = [] /\
              rows_of (Driver.logged d) = []
  | None => rows_of (Driver.logged d) <> []
  end.

(** The texts of [l] one after the other: what a file holds after they are
    written to it in order. *)
Fixpoint concat_text (l : list string) : string :=
  match l with
  | [] => EmptyString
  | s :: rest => (s ++ concat_text rest)%string
  end.

(** A field that can be written bare: no quote, no delimiter, no line feed. *)
Definition bare (s : string) : bool :=
  negb (contains QUOTE s) && negb (contains DELIMITER s) && negb (contains NEWLINE s).

(** A field that can be written between quotes: no quote, and not empty. *)
Definition quotable (s : string) : bool :=
  negb (contains QUOTE s) && negb (String.eqb s EmptyString).

Definition readable (r : Gen.Row) : bool :=
  bare (Gen.name r) && bare (Gen.email r)
  && quotable (Gen.address r) && quotable (Gen.phone r).

(** The line of a row: its text without the line feed. *)
Definition rowLine (r : Gen.Row) : string :=
  (Gen.name r ++ String DELIMITER
     (Gen.numberToString (Gen.age r) ++ String DELIMITER
        (Gen.email r ++ String DELIMITER
           (String QUOTE (Gen.address r ++ String QUOTE
              (String DELIMITER
                 (String QUOTE (Gen.phone r ++ String QUOTE EmptyString))))))))%string.

Definition headerLine : string := "name,age,email,address,phone".

(** The record that holds the fields of a row under the names of the
    header. *)
Definition record_of (r : Gen.Row) : Obj.t string :=
  [("name", Gen.name r); ("age", Gen.numberToString (Gen.age r));
   ("email", Gen.email r); ("address", Gen.address r);
   ("phone", Gen.phone r)]%string.

(** The file that holds the header and the rows. *)
Definition file_text (rows : list Gen.Row) : string :=
  (Gen.header ++ concat_text (map Gen.rowText rows))%string.

(** [buffer.includes(code)] *)
Definition has_byte (code : byte) (buffer : Buffer) : bool :=
  existsb (fun b => Byte.eqb b code) buffer.

(** The decimal digits of [s], in order. *)
Fixpoint digits_of (s : string) : string :=
  match s with
  | EmptyString => EmptyString
  | String c rest => if Obj.is_digit c then String c (digits_of rest) else digits_of rest
  end.

(** An odd number of quote characters in [s]. *)
Fixpoint quote_parity (s : string) : bool :=
  match s with
  | EmptyString => false
  | String c rest => xorb (Ascii.eqb c QUOTE) (quote_parity rest)
  end.

(** No quote character of [s] is followed by a quote character. *)
Fixpoint no_doubled_quote (s : string) : bool :=
  match s with
  | EmptyString => true
  | String c rest =>
      match rest with
      | EmptyString => true
      | String c' _ => negb (Ascii.eqb c QUOTE && Ascii.eqb c' QUOTE) && no_doubled_quote rest
      end
  end.

(** No white space in [s]. *)
Fixpoint no_space (s : string) : bool :=
  match s with
  | EmptyString => true
  | String c rest => negb (Gen.is_space c) && no_space rest
  end.

Ltac scan_proj :=
  cbn [Scan.i Scan.lines Scan.lineStart Scan.lastNewLinePos Scan.inQuotes].

Ltac scan_proj_in H :=
  cbn [Scan.i Scan.lines Scan.lineStart Scan.lastNewLinePos Scan.inQuotes] in H.

(** * Properties *)

(** ** Buffers and indices *)

Lemma len_nil : len [] = 0.
Proof. reflexivity. Qed.

Lemma len_cons (b : byte) (r : Buffer) : len (b :: r) = 1 + len r.
Proof. unfold len. cbn [length]. lia. Qed.

Lemma len_app (p r : Buffer) : len (p ++ r) = len p + len r.
Proof. unfold len. rewrite length_app. lia. Qed.

Lemma len_nonneg (p : Buffer) : 0 <= len p.
Proof. unfold len. lia. Qed.

Lemma at_app_r (p r : Buffer) (k : Z) :
  0 <= k -> at_ (p ++ r) (len p + k) = at_ r k.
Proof.
  intros Hk. unfold at_, len.
  destruct (Z.ltb_spec (Z.of_nat (length p) + k) 0); [lia|].
  destruct (Z.ltb_spec k 0); [lia|].
  rewrite nth_error_app2 by lia. f_equal. lia.
Qed.

Lemma at_app_l (p r : Buffer) (k : Z) :
  k < len p -> at_ (p ++ r) k = at_ p k.
Proof.
  intros Hk. unfold at_, len in *.
  destruct (Z.ltb_spec k 0); [reflexivity|].
  apply nth_error_app1. lia.
Qed.

Lemma at_0 (b : byte) (r : Buffer) : at_ (b :: r) 0 = Some b.
Proof. reflexivity. Qed.

Lemma at_1 (b b' : byte) (r : Buffer) : at_ (b :: b' :: r) 1 = Some b'.
Proof. reflexivity. Qed.

Lemma at_1_single (b : byte) : at_ [b] 1 = None.
Proof. reflexivity. Qed.

Lemma last_byte_snoc (l : Buffer) (b : byte) : last_byte (l ++ [b]) = Some b.
Proof. unfold last_byte. rewrite rev_app_distr. reflexivity. Qed.

Lemma at_last (l : Buffer) : l <> [] -> at_ l (len l - 1) = last_byte l.
Proof.
  intros Hne. destruct (exists_last Hne) as [l' [b ->]].
  rewrite last_byte_snoc, len_app, len_cons, len_nil.
  replace (len l' + (1 + 0) - 1) with (len l' + 0) by lia.
  rewrite at_app_r by lia. reflexivity.
Qed.

Lemma subarray_mid (p c r : Buffer) :
  subarray (p ++ c ++ r) (len p) (len p + len c) = c.
Proof.
  unfold subarray, len.
  rewrite Nat2Z.id, skipn_app, skipn_all, Nat.sub_diag. cbn [skipn app].
  replace (Z.to_nat _) with (length c) by lia.
  rewrite firstn_app, firstn_all, Nat.sub_diag. cbn [firstn]. apply app_nil_r.
Qed.

Lemma subarray_mid_chomp (p c r : Buffer) (b : byte) :
  subarray (p ++ (c ++ [b]) ++ r) (len p) (len p + len (c ++ [b]) - 1) = c.
Proof.
  rewrite <- app_assoc. rewrite len_app, len_cons, len_nil.
  replace (len p + (len c + (1 + 0)) - 1) with (len p + len c) by lia.
  apply subarray_mid.
Qed.

Lemma subarray_from_suffix (p c : Buffer) :
  subarray_from (p ++ c) (len (p ++ c) - len c) = c.
Proof.
  unfold subarray_from, len. rewrite length_app.
  replace (Z.to_nat _) with (length p) by lia.
  rewrite skipn_app, skipn_all, Nat.sub_diag. reflexivity.
Qed.

Lemma eqb_quote_not_lf (b : byte) :
  Byte.eqb b QUOTE_CHAR_CODE = true -> Byte.eqb b LF = false.
Proof. intros H. apply byte_dec_bl in H. subst b. reflexivity. Qed.

(** ** The loop computes the structural scan *)

Lemma line_end_chomp (B pre0 cur rest : Buffer) :
  B = pre0 ++ cur ++ rest ->
  is_code (last_byte pre0) CR = false ->
  subarray B (len pre0) (Scan.line_end B (len pre0 + len cur)) = chompCR cur.
Proof.
  intros -> Hcr. unfold Scan.line_end, chompCR.
  destruct cur as [|c0 cur0] using rev_ind.
  - cbn [app]. rewrite len_nil, Z.add_0_r.
    assert (Hno : (0 <? len pre0) && is_code (at_ (pre0 ++ rest) (len pre0 - 1)) CR = false).
    { destruct pre0 as [|p0 pre1]; [reflexivity|].
      rewrite at_app_l by lia. rewrite at_last by discriminate.
      rewrite Hcr. apply andb_false_r. }
    rewrite Hno. cbn. unfold subarray. rewrite Z.sub_diag. reflexivity.
  - clear IHcur0.
    assert (Hat : at_ (pre0 ++ (cur0 ++ [c0]) ++ rest) (len pre0 + len (cur0 ++ [c0]) - 1) = Some c0).
    { rewrite <- app_assoc, app_assoc, len_app, len_cons, len_nil.
      replace (len pre0 + (len cur0 + (1 + 0)) - 1) with (len (pre0 ++ cur0) + 0)
        by (rewrite len_app; lia).
      rewrite at_app_r by lia. reflexivity. }
    rewrite Hat, last_byte_snoc.
    assert (Hpos : (0 <? len pre0 + len (cur0 ++ [c0])) = true).
    { apply Z.ltb_lt. rewrite len_app, len_cons, len_nil.
      pose proof (len_nonneg pre0). pose proof (len_nonneg cur0). lia. }
    rewrite Hpos. cbn [andb is_code].
    destruct (Byte.eqb c0 CR).
    + rewrite removelast_last. apply subarray_mid_chomp.
    + apply subarray_mid.
Qed.

Lemma at_head (pre0 cur rest : Buffer) (k : Z) :
  0 <= k -> at_ (pre0 ++ cur ++ rest) (len pre0 + len cur + k) = at_ rest k.
Proof.
  intros Hk. rewrite app_assoc, <- len_app. apply at_app_r. exact Hk.
Qed.

Lemma at_head0 (pre0 cur rest : Buffer) :
  at_ (pre0 ++ cur ++ rest) (len pre0 + len cur) = at_ rest 0.
Proof.
  rewrite <- (Z.add_0_r (len pre0 + len cur)). apply at_head. lia.
Qed.

(** The four ways one iteration moves the state. *)

Lemma body_other (pre0 cur r : Buffer) (b : byte) acc inQ :
  Byte.eqb b QUOTE_CHAR_CODE = false ->
  Byte.eqb b LF && negb inQ = false ->
  Scan.body (pre0 ++ cur ++ b :: r) (state_at pre0 cur acc inQ)
  = state_at pre0 (cur ++ [b]) acc inQ.
Proof.
  intros Hq Hnl. unfold Scan.body, Scan.on_quote, state_at. scan_proj.
  rewrite at_head0, at_0.
  cbn [is_code]. rewrite Hq. unfold Scan.on_newline. scan_proj.
  rewrite at_head0, at_0. cbn [is_code]. rewrite Hnl. scan_proj.
  rewrite len_app, len_cons, len_nil. f_equal. lia.
Qed.

Lemma body_newline (pre0 cur r : Buffer) acc :
  is_code (last_byte pre0) CR = false ->
  Scan.body (pre0 ++ cur ++ LF :: r) (state_at pre0 cur acc false)
  = state_at (pre0 ++ cur ++ [LF]) [] (acc ++ [chompCR cur]) false.
Proof.
  intros Hcr. unfold Scan.body, Scan.on_quote, state_at. scan_proj.
  rewrite at_head0, at_0.
  cbn [is_code]. change (Byte.eqb LF QUOTE_CHAR_CODE) with false. cbv iota.
  unfold Scan.on_newline. scan_proj.
  rewrite at_head0, at_0. cbn [is_code].
  change (Byte.eqb LF LF && negb false) with true. cbv iota. scan_proj.
  rewrite (line_end_chomp _ pre0 cur (LF :: r) eq_refl Hcr).
  rewrite map_app, !len_app, len_cons, len_nil. cbn [map]. f_equal; lia.
Qed.

Lemma body_quote (pre0 cur r : Buffer) (b : byte) acc inQ :
  Byte.eqb b QUOTE_CHAR_CODE = true ->
  is_code (at_ r 0) QUOTE_CHAR_CODE = false ->
  Scan.body (pre0 ++ cur ++ b :: r) (state_at pre0 cur acc inQ)
  = state_at pre0 (cur ++ [b]) acc (negb inQ).
Proof.
  intros Hq Hnext. unfold Scan.body, Scan.on_quote, state_at. scan_proj.
  rewrite at_head0, at_0. cbn [is_code]. rewrite Hq.
  rewrite at_head by lia.
  assert (Hn : is_code (at_ (b :: r) 1) QUOTE_CHAR_CODE = false).
  { destruct r; [reflexivity|]. rewrite at_1. rewrite at_0 in Hnext. exact Hnext. }
  rewrite Hn, andb_false_r. unfold Scan.on_newline. scan_proj.
  rewrite at_head0, at_0. cbn [is_code]. rewrite (eqb_quote_not_lf _ Hq). cbn [andb]. scan_proj.
  rewrite len_app, len_cons, len_nil. f_equal. lia.
Qed.

Lemma body_quote_pair (pre0 cur r : Buffer) (b b' : byte) acc inQ :
  Byte.eqb b QUOTE_CHAR_CODE = true ->
  Byte.eqb b' QUOTE_CHAR_CODE = true ->
  Scan.body (pre0 ++ cur ++ b :: b' :: r) (state_at pre0 cur acc inQ)
  = state_at pre0 (cur ++ [b; b']) acc (negb inQ).
Proof.
  intros Hq Hq'. unfold Scan.body, Scan.on_quote, state_at. scan_proj.
  rewrite at_head0, at_0. cbn [is_code]. rewrite Hq.
  rewrite at_head by lia. rewrite at_1. cbn [is_code]. rewrite Hq'.
  assert (Hlt : (len pre0 + len cur + 1 <? len (pre0 ++ cur ++ b :: b' :: r)) = true).
  { apply Z.ltb_lt. rewrite !len_app, !len_cons. pose proof (len_nonneg r). lia. }
  rewrite Hlt. cbn [andb]. unfold Scan.on_newline. scan_proj.
  rewrite at_head by lia. rewrite at_1. cbn [is_code].
  rewrite (eqb_quote_not_lf _ Hq'). cbn [andb]. scan_proj.
  rewrite len_app, !len_cons, len_nil. f_equal. lia.
Qed.

Lemma scan_from_loop (fuel : nat) : forall (B pre0 cur rest : Buffer) acc inQ,
  B = pre0 ++ cur ++ rest ->
  (length rest <= fuel)%nat ->
  is_code (last_byte pre0) CR = false ->
  let '(acc', cur', q') := scan_from inQ cur acc rest in
  Scan.loop fuel B (state_at pre0 cur acc inQ)
  = Scan.mk (map toString acc') (len B - len cur') (len B - len cur' - 1) q' (len B).
Proof.
  induction fuel as [|fuel IH]; intros B pre0 cur rest acc inQ HB Hfuel Hcr.
  - destruct rest; [|cbn in Hfuel; lia].
    cbn. unfold state_at. subst B. rewrite !len_app, len_nil. f_equal; lia.
  - destruct rest as [|b r].
    { cbn [scan_from Scan.loop]. unfold state_at at 1. scan_proj.
      assert (HlenB : len B = len pre0 + len cur)
        by (subst B; rewrite !len_app, len_nil; lia).
      destruct (Z.ltb_spec (len pre0 + len cur) (len B)); [lia|].
      unfold state_at. f_equal; lia. }
    cbn [length] in Hfuel. subst B.
    assert (HlenB : len (pre0 ++ cur ++ b :: r) = len pre0 + len cur + 1 + len r)
      by (rewrite !len_app, len_cons; lia).
    pose proof (len_nonneg r) as Hr.
    cbn [Scan.loop]. unfold state_at at 1. scan_proj. fold (state_at pre0 cur acc inQ).
    destruct (Z.ltb_spec (len pre0 + len cur) (len (pre0 ++ cur ++ b :: r))); [|lia].
    cbn [scan_from].
    destruct (Byte.eqb b QUOTE_CHAR_CODE) eqn:Hq.
    + (* a quote *)
      destruct r as [|b' r'].
      * rewrite body_quote by (assumption || reflexivity).
        specialize (IH (pre0 ++ cur ++ [b]) pre0 (cur ++ [b]) [] acc (negb inQ)).
        cbn [scan_from] in IH. apply IH.
        -- rewrite <- app_assoc. reflexivity.
        -- cbn. lia.
        -- exact Hcr.
      * destruct (Byte.eqb b' QUOTE_CHAR_CODE) eqn:Hq'.
        -- rewrite body_quote_pair by assumption.
           apply IH.
           ++ rewrite <- app_assoc. reflexivity.
           ++ cbn [length] in Hfuel. lia.
           ++ exact Hcr.
        -- rewrite body_quote by (rewrite ?at_0; cbn; assumption).
           apply IH.
           ++ rewrite <- app_assoc. reflexivity.
           ++ lia.
           ++ exact Hcr.
    + destruct (Byte.eqb b LF && negb inQ) eqn:Hnl.
      * (* a line feed outside quotes *)
        apply andb_prop in Hnl. destruct Hnl as [Hlf HinQ].
        apply byte_dec_bl in Hlf. subst b.
        destruct inQ; [discriminate|].
        rewrite body_newline by assumption.
        apply IH.
        -- rewrite <- !app_assoc. reflexivity.
        -- lia.
        -- rewrite app_assoc, last_byte_snoc. reflexivity.
      * rewrite body_other by assumption.
        apply IH.
        -- rewrite <- app_assoc. reflexivity.
        -- lia.
        -- exact Hcr.
Qed.

(** ** The structural scan, case by case *)

Section ScanCases.

Variable P : bool -> Buffer -> list Buffer -> Buffer -> Prop.

Hypothesis case_end : forall inQ cur acc, P inQ cur acc [].
Hypothesis case_quote_last : forall inQ cur acc b,
  Byte.eqb b QUOTE_CHAR_CODE = true -> P inQ cur acc [b].
Hypothesis case_quote_pair : forall inQ cur acc b b' r,
  Byte.eqb b QUOTE_CHAR_CODE = true -> Byte.eqb b' QUOTE_CHAR_CODE = true ->
  P (negb inQ) (cur ++ [b; b']) acc r -> P inQ cur acc (b :: b' :: r).
Hypothesis case_quote : forall inQ cur acc b b' r,
  Byte.eqb b QUOTE_CHAR_CODE = true -> Byte.eqb b' QUOTE_CHAR_CODE = false ->
  P (negb inQ) (cur ++ [b]) acc (b' :: r) -> P inQ cur acc (b :: b' :: r).
Hypothesis case_newline : forall cur acc r,
  P false [] (acc ++ [chompCR cur]) r -> P false cur acc (LF :: r).
Hypothesis case_other : forall inQ cur acc b r,
  Byte.eqb b QUOTE_CHAR_CODE = false -> Byte.eqb b LF && negb inQ = false ->
  P inQ (cur ++ [b]) acc r -> P inQ cur acc (b :: r).

Lemma scan_cases : forall rest inQ cur acc, P inQ cur acc rest.
Proof.
  intros rest.
  assert (H : forall n (rest : Buffer), (length rest <= n)%nat ->
              forall inQ cur acc, P inQ cur acc rest).
  { induction n as [|n IH]; intros rest0 Hn inQ cur acc.
    - destruct rest0; [apply case_end | cbn in Hn; lia].
    - destruct rest0 as [|b r]; [apply case_end|].
      cbn [length] in Hn.
      destruct (Byte.eqb b QUOTE_CHAR_CODE) eqn:Hq.
      + destruct r as [|b' r']; [apply case_quote_last; exact Hq|].
        cbn [length] in Hn.
        destruct (Byte.eqb b' QUOTE_CHAR_CODE) eqn:Hq'.
        * apply case_quote_pair; try assumption. apply IH. lia.
        * apply case_quote; try assumption. apply IH. cbn [length]. lia.
      + destruct (Byte.eqb b LF && negb inQ) eqn:Hnl.
        * apply andb_prop in Hnl. destruct Hnl as [Hlf HinQ].
          apply byte_dec_bl in Hlf. subst b.
          destruct inQ; [discriminate|].
          apply case_newline. apply IH. lia.
        * apply case_other; try assumption. apply IH. lia. }
  apply (H (length rest)). lia.
Qed.

End ScanCases.

Lemma scan_quote_last inQ cur acc b :
  Byte.eqb b QUOTE_CHAR_CODE = true ->
  scan_from inQ cur acc [b] = (acc, cur ++ [b], negb inQ).
Proof. intros Hq. cbn [scan_from]. rewrite Hq. reflexivity. Qed.

Lemma scan_quote_pair inQ cur acc b b' r :
  Byte.eqb b QUOTE_CHAR_CODE = true -> Byte.eqb b' QUOTE_CHAR_CODE = true ->
  scan_from inQ cur acc (b :: b' :: r) = scan_from (negb inQ) (cur ++ [b; b']) acc r.
Proof. intros Hq Hq'. cbn [scan_from]. rewrite Hq, Hq'. reflexivity. Qed.

Lemma scan_quote inQ cur acc b b' r :
  Byte.eqb b QUOTE_CHAR_CODE = true -> Byte.eqb b' QUOTE_CHAR_CODE = false ->
  scan_from inQ cur acc (b :: b' :: r) = scan_from (negb inQ) (cur ++ [b]) acc (b' :: r).
Proof. intros Hq Hq'. cbn [scan_from]. rewrite Hq, Hq'. reflexivity. Qed.

Lemma scan_newline cur acc r :
  scan_from false cur acc (LF :: r) = scan_from false [] (acc ++ [chompCR cur]) r.
Proof. reflexivity. Qed.

Lemma scan_other inQ cur acc b r :
  Byte.eqb b QUOTE_CHAR_CODE = false -> Byte.eqb b LF && negb inQ = false ->
  scan_from inQ cur acc (b :: r) = scan_from inQ (cur ++ [b]) acc r.
Proof. intros Hq Hnl. cbn [scan_from]. rewrite Hq, Hnl. reflexivity. Qed.

(** The closed lines only grow, and the line being read is the tail of the
    buffer after the last line feed that closed a line. *)
Lemma scan_from_shape : forall rest inQ cur acc,
  let '(acc', cur', _) := scan_from inQ cur acc rest in
  (acc' = acc /\ cur' = cur ++ rest) \/
  (exists more p, more <> [] /\ acc' = acc ++ more /\ rest = p ++ LF :: cur').
Proof.
  apply scan_cases.
  - intros. cbn. left. rewrite app_nil_r. auto.
  - intros inQ cur acc b Hq. rewrite scan_quote_last by assumption. left. auto.
  - intros inQ cur acc b b' r Hq Hq' IH. rewrite scan_quote_pair by assumption.
    destruct (scan_from (negb inQ) (cur ++ [b; b']) acc r) as [[acc' cur'] q'].
    destruct IH as [[-> ->] | (more & p & Hne & -> & ->)].
    + left. rewrite <- app_assoc. auto.
    + right. exists more, (b :: b' :: p). auto.
  - intros inQ cur acc b b' r Hq Hq' IH. rewrite scan_quote by assumption.
    destruct (scan_from (negb inQ) (cur ++ [b]) acc (b' :: r)) as [[acc' cur'] q'].
    destruct IH as [[-> ->] | (more & p & Hne & -> & Hr)].
    + left. rewrite <- app_assoc. auto.
    + right. exists more, (b :: p). rewrite Hr. auto.
  - intros cur acc r IH. rewrite scan_newline.
    destruct (scan_from false [] (acc ++ [chompCR cur]) r) as [[acc' cur'] q'].
    right. destruct IH as [[-> ->] | (more & p & Hne & -> & ->)].
    + exists [chompCR cur], []. repeat split. discriminate.
    + exists (chompCR cur :: more), (LF :: p). rewrite <- app_assoc.
      repeat split. discriminate.
  - intros inQ cur acc b r Hq Hnl IH. rewrite scan_other by assumption.
    destruct (scan_from inQ (cur ++ [b]) acc r) as [[acc' cur'] q'].
    destruct IH as [[-> ->] | (more & p & Hne & -> & ->)].
    + left. rewrite <- app_assoc. auto.
    + right. exists more, (b :: p). auto.
Qed.

(** The lines closed before the scan started are passed through. *)
Lemma scan_from_acc : forall rest inQ cur acc,
  scan_from inQ cur acc rest
  = let '(l, c, q) := scan_from inQ cur [] rest in (acc ++ l, c, q).
Proof.
  intros rest inQ cur acc. revert rest inQ cur acc.
  assert (H : forall rest inQ cur acc acc0,
    scan_from inQ cur (acc0 ++ acc) rest
    = let '(l, c, q) := scan_from inQ cur acc rest in (acc0 ++ l, c, q)).
  { apply (scan_cases (fun inQ cur acc rest => forall acc0,
      scan_from inQ cur (acc0 ++ acc) rest
      = let '(l, c, q) := scan_from inQ cur acc rest in (acc0 ++ l, c, q))).
    - reflexivity.
    - intros inQ cur acc b Hq acc0. rewrite !scan_quote_last by assumption. reflexivity.
    - intros inQ cur acc b b' r Hq Hq' IH acc0.
      rewrite !scan_quote_pair by assumption. apply IH.
    - intros inQ cur acc b b' r Hq Hq' IH acc0.
      rewrite !scan_quote by assumption. apply IH.
    - intros cur acc r IH acc0. rewrite !scan_newline, <- app_assoc. apply IH.
    - intros inQ cur acc b r Hq Hnl IH acc0.
      rewrite !scan_other by assumption. apply IH. }
  intros rest inQ cur acc. rewrite <- (app_nil_r acc) at 1. apply H.
Qed.

Lemma run_scan (buffer : Buffer) :
  let '(acc, cur, q) := scan buffer in
  Scan.run buffer
  = Scan.mk (map toString acc) (len buffer - len cur) (len buffer - len cur - 1) q
            (len buffer).
Proof.
  unfold scan, Scan.run.
  apply (scan_from_loop (length buffer) buffer [] [] buffer [] false);
    [reflexivity | lia | reflexivity].
Qed.

(** The fuel is enough: the loop is left because its condition is false. *)
Lemma loop_exits (buffer : Buffer) :
  (Scan.i (Scan.run buffer) <? len buffer) = false.
Proof.
  pose proof (run_scan buffer) as H. destruct (scan buffer) as [[acc cur] q].
  rewrite H. scan_proj. apply Z.ltb_irrefl.
Qed.

Lemma scan_shape (buffer : Buffer) :
  let '(acc, cur, _) := scan buffer in
  (acc = [] /\ cur = buffer) \/
  (acc <> [] /\ exists p, buffer = p ++ LF :: cur).
Proof.
  unfold scan. pose proof (scan_from_shape buffer false [] []) as H.
  destruct (scan_from false [] [] buffer) as [[acc cur] q].
  destruct H as [[-> ->] | (more & p & Hne & -> & ->)]; [left; auto|].
  right. split; [exact Hne|]. exists p. reflexivity.
Qed.

(** [splitLinesFromBuffer], read structurally. *)
Lemma splitLinesFromBuffer_scan (buffer : Buffer) :
  splitLinesFromBuffer buffer = finalize buffer (scan buffer).
Proof.
  unfold splitLinesFromBuffer, finalize.
  pose proof (run_scan buffer) as Hrun. pose proof (scan_shape buffer) as Hshape.
  destruct (scan buffer) as [[acc cur] q]. rewrite Hrun. scan_proj.
  destruct Hshape as [[-> ->] | [Hne [p ->]]].
  - rewrite Z.sub_diag. change (0 - 1 =? -1) with true. change (0 <=? 0 - 1) with false.
    cbn [andb map app].
    destruct (negb q && (0 <? len buffer)); reflexivity.
  - destruct acc as [|l acc]; [congruence|].
    pose proof (len_nonneg p) as Hp. pose proof (len_nonneg cur) as Hc.
    assert (Hlen : len (p ++ LF :: cur) - len cur = len p + 1)
      by (rewrite len_app, len_cons; lia).
    rewrite Hlen.
    destruct (Z.eqb_spec (len p + 1 - 1) (-1)); [lia|].
    destruct (Z.leb_spec 0 (len p + 1 - 1)); [|lia].
    cbn [andb]. f_equal.
    replace (len p + 1 - 1 + 1) with (len ((p ++ [LF]) ++ cur) - len cur)
      by (rewrite !len_app, len_cons, len_nil; lia).
    replace (p ++ LF :: cur) with ((p ++ [LF]) ++ cur) by (rewrite <- app_assoc; reflexivity).
    apply subarray_from_suffix.
Qed.

(** ** Scanning again from the start of the open line *)

Lemma reaches_start (rest : Buffer) : reaches false [] rest.
Proof. intros acc. reflexivity. Qed.

(** Reading [p] and then more bytes [c] is reading [p], keeping the closed
    lines, and scanning the open line again with [c] behind it: this is what
    the driver does with the remainder. *)
Lemma scan_from_restart (c : Buffer) : forall p inQ cur acc,
  reaches inQ cur (p ++ c) ->
  scan_from inQ cur acc (p ++ c)
  = let '(l, r, _) := scan_from inQ cur acc p in scan_from false [] l (r ++ c).
Proof.
  apply (scan_cases (fun inQ cur acc p =>
    reaches inQ cur (p ++ c) ->
    scan_from inQ cur acc (p ++ c)
    = let '(l, r, _) := scan_from inQ cur acc p in scan_from false [] l (r ++ c))).
  - intros inQ cur acc H. cbn [app scan_from]. symmetry. apply H.
  - intros inQ cur acc b Hq H. rewrite scan_quote_last by assumption.
    rewrite <- app_assoc. symmetry. apply H.
  - intros inQ cur acc b b' r Hq Hq' IH H. unfold reaches in H. cbn [app] in *.
    rewrite !scan_quote_pair by assumption. apply IH.
    intros acc0. rewrite <- app_assoc. cbn [app].
    rewrite (H acc0). apply scan_quote_pair; assumption.
  - intros inQ cur acc b b' r Hq Hq' IH H. unfold reaches in H. cbn [app] in *.
    rewrite !scan_quote by assumption. apply IH.
    intros acc0. rewrite <- app_assoc. cbn [app].
    rewrite (H acc0). apply scan_quote; assumption.
  - intros cur acc r IH H. cbn [app]. rewrite !scan_newline. apply IH.
    apply reaches_start.
  - intros inQ cur acc b r Hq Hnl IH H. unfold reaches in H. cbn [app] in *.
    rewrite !scan_other by assumption. apply IH.
    intros acc0. rewrite <- app_assoc. cbn [app].
    rewrite (H acc0). apply scan_other; assumption.
Qed.

Lemma scan_restart (p c : Buffer) :
  scan (p ++ c)
  = let '(l, r, _) := scan p in
    let '(l', r', q') := scan (r ++ c) in (l ++ l', r', q').
Proof.
  unfold scan. rewrite scan_from_restart by apply reaches_start.
  destruct (scan_from false [] [] p) as [[l r] q].
  apply scan_from_acc.
Qed.

(** The remainder holds no line end of its own and leaves the flag as the scan
    of the whole buffer left it. *)
Lemma scan_remainder (buffer : Buffer) :
  let '(_, r, q) := scan buffer in scan r = ([], r, q).
Proof.
  pose proof (scan_restart buffer []) as H. rewrite app_nil_r in H.
  destruct (scan buffer) as [[l r] q]. rewrite app_nil_r in H.
  destruct (scan r) as [[l' r'] q'].
  injection H as Hl Hr Hq. subst r' q'.
  rewrite <- (app_nil_r l) in Hl at 1. apply app_inv_head in Hl. subst l'.
  reflexivity.
Qed.

(** ** The field tokenizer *)

Lemma contains_append (c : ascii) (s1 s2 : string) :
  contains c (s1 ++ s2) = contains c s1 || contains c s2.
Proof.
  induction s1 as [|c' s1 IH]; [reflexivity|].
  cbn [append contains]. rewrite IH. apply orb_assoc.
Qed.

Lemma append_assoc (s1 s2 s3 : string) : ((s1 ++ s2) ++ s3 = s1 ++ s2 ++ s3)%string.
Proof. induction s1 as [|c s1 IH]; [reflexivity|]. cbn [append]. now rewrite IH. Qed.

Lemma append_empty_r (s : string) : (s ++ EmptyString)%string = s.
Proof. induction s as [|c s IH]; [reflexivity|]. cbn [append]. now rewrite IH. Qed.

Lemma loop_quote_free : forall line values current inQ,
  forallb quote_free values = true ->
  quote_free current = true ->
  forallb quote_free (parseCsvLine_loop line values current inQ) = true.
Proof.
  induction line as [|char rest IH]; intros values current inQ Hv Hc.
  - cbn [parseCsvLine_loop]. rewrite forallb_app, Hv. cbn. now rewrite Hc.
  - cbn [parseCsvLine_loop].
    destruct (Ascii.eqb char QUOTE) eqn:Hq; [now apply IH|].
    destruct (Ascii.eqb char DELIMITER && negb inQ).
    + apply IH; [|reflexivity]. rewrite forallb_app, Hv. cbn. now rewrite Hc.
    + apply IH; [exact Hv|]. unfold quote_free in *.
      rewrite contains_append. cbn [contains]. rewrite Hq.
      rewrite orb_false_r. exact Hc.
Qed.

Lemma loop_quote_pair : forall a b values current inQ,
  parseCsvLine_loop (a ++ String QUOTE (String QUOTE b)) values current inQ
  = parseCsvLine_loop (a ++ b) values current inQ.
Proof.
  induction a as [|char a IH]; intros b values current inQ.
  - cbn [append parseCsvLine_loop].
    change (Ascii.eqb QUOTE QUOTE) with true. cbv iota.
    now rewrite negb_involutive.
  - cbn [append parseCsvLine_loop].
    destruct (Ascii.eqb char QUOTE); [apply IH|].
    destruct (Ascii.eqb char DELIMITER && negb inQ); apply IH.
Qed.

(** Every character of a field is a character of the line (or was in the
    field before the scan went on). *)
Lemma loop_chars : forall line values current inQ c,
  existsb (contains c) (parseCsvLine_loop line values current inQ) = true ->
  contains c line || existsb (contains c) values || contains c current = true.
Proof.
  induction line as [|char rest IH]; intros values current inQ c H.
  - cbn [parseCsvLine_loop] in H. rewrite existsb_app in H. cbn in H.
    rewrite orb_false_r in H. exact H.
  - cbn [parseCsvLine_loop] in H. cbn [contains].
    destruct (Ascii.eqb char QUOTE).
    + apply IH in H. rewrite <- !orb_assoc in *. rewrite H. apply orb_true_r.
    + destruct (Ascii.eqb char DELIMITER && negb inQ).
      * apply IH in H. rewrite existsb_app in H. cbn in H.
        rewrite !orb_false_r in H.
        destruct (contains c rest), (existsb (contains c) values),
          (contains c current); try discriminate; cbn; rewrite ?orb_true_r; reflexivity.
      * apply IH in H. rewrite contains_append in H. cbn [contains] in H.
        rewrite orb_false_r in H.
        destruct (Ascii.eqb char c), (contains c rest), (existsb (contains c) values),
          (contains c current); try discriminate; reflexivity.
Qed.

Lemma fields_chars (line : string) (c : ascii) :
  existsb (contains c) (parseCsvLine line) = true -> contains c line = true.
Proof.
  intros H. apply loop_chars in H. cbn in H.
  now rewrite !orb_false_r in H.
Qed.

(** Inside quotes every character but a quote is appended as it is: a
    delimiter, a carriage return, a line feed. *)
Lemma loop_inside_quotes : forall body rest values current,
  quote_free body = true ->
  parseCsvLine_loop (body ++ rest) values current true
  = parseCsvLine_loop rest values (current ++ body) true.
Proof.
  induction body as [|char body IH]; intros rest values current Hfree.
  - cbn [append]. now rewrite append_empty_r.
  - unfold quote_free in *. cbn [contains] in Hfree.
    apply negb_true_iff, orb_false_elim in Hfree. destruct Hfree as [Hq Hfree].
    cbn [append parseCsvLine_loop]. rewrite Hq, andb_false_r.
    rewrite IH by (now rewrite Hfree). rewrite append_assoc. reflexivity.
Qed.

(** A quoted section adds its content to the field being read, verbatim. *)
Lemma quoted_section_kept_verbatim (body rest : string) values current :
  quote_free body = true ->
  parseCsvLine_loop (String QUOTE (body ++ String QUOTE rest)) values current false
  = parseCsvLine_loop rest values (current ++ body) false.
Proof.
  intros Hfree. cbn [parseCsvLine_loop].
  change (Ascii.eqb QUOTE QUOTE) with true. cbv iota. cbn [negb].
  rewrite loop_inside_quotes by exact Hfree.
  cbn [parseCsvLine_loop]. change (Ascii.eqb QUOTE QUOTE) with true. reflexivity.
Qed.

(** A line always has a field, so a header read from a line is not empty. *)
Lemma parseCsvLine_loop_nonempty : forall line values current inQ,
  parseCsvLine_loop line values current inQ <> [].
Proof.
  induction line as [|char rest IH]; intros values current inQ.
  - cbn. now destruct values.
  - cbn [parseCsvLine_loop].
    destruct (Ascii.eqb char QUOTE); [apply IH|].
    destruct (Ascii.eqb char DELIMITER && negb inQ); apply IH.
Qed.

Lemma parseCsvLine_nonempty (line : string) : parseCsvLine line <> [].
Proof. apply parseCsvLine_loop_nonempty. Qed.

(** The fields of a line, joined, are the line without its quotes. *)
Lemma concat_snoc (sep : string) : forall (l : list string) (x y : string),
  String.concat sep (l ++ [(x ++ y)%string])
  = (String.concat sep (l ++ [x]) ++ y)%string.
Proof.
  induction l as [|a l IH]; intros x y; [reflexivity|].
  cbn [app]. destruct l as [|b l].
  - cbn [app String.concat]. now rewrite !append_assoc.
  - cbn [app String.concat] in *. rewrite IH, !append_assoc. reflexivity.
Qed.

Lemma concat_push (sep : string) : forall (l : list string) (x : string),
  String.concat sep ((l ++ [x]) ++ [EmptyString])
  = (String.concat sep (l ++ [x]) ++ sep)%string.
Proof.
  induction l as [|a l IH]; intros x.
  - cbn. now rewrite append_empty_r.
  - cbn [app]. destruct l as [|b l].
    + cbn [app String.concat]. now rewrite append_empty_r, !append_assoc.
    + cbn [app String.concat] in *. rewrite IH, !append_assoc. reflexivity.
Qed.

Lemma join_loop : forall line values current inQ,
  join (parseCsvLine_loop line values current inQ)
  = (join (values ++ [current]) ++ remove_quotes line)%string.
Proof.
  unfold join. induction line as [|char rest IH]; intros values current inQ.
  - cbn. now rewrite append_empty_r.
  - cbn [parseCsvLine_loop remove_quotes].
    destruct (Ascii.eqb char QUOTE) eqn:Hq; [apply IH|].
    destruct (Ascii.eqb char DELIMITER && negb inQ) eqn:Hd.
    + apply andb_prop in Hd. destruct Hd as [Hd _].
      apply Ascii.eqb_eq in Hd. subst char.
      rewrite IH, concat_push, append_assoc. reflexivity.
    + rewrite IH, concat_snoc, append_assoc. reflexivity.
Qed.

(** C9: in the field tokenizer a quote character only toggles the flag: it is
    never appended to the field being read and never closes a field, so no
    field value holds a quote character, and two quotes in a row cancel out
    and leave nothing in the value (the tokenizer has no rule for a doubled
    quote).  The splitter, which steps over the second quote of a pair, is
    left inside quotes by the same two bytes. *)
Theorem tokenizer_quotes_only_toggle :
  (forall rest values current inQuotes,
     parseCsvLine_loop (String QUOTE rest) values current inQuotes
     = parseCsvLine_loop rest values current (negb inQuotes)) /\
  (forall line, forallb quote_free (parseCsvLine line) = true) /\
  (forall a b,
     parseCsvLine (a ++ String QUOTE (String QUOTE b)) = parseCsvLine (a ++ b)) /\
  Scan.inQuotes (Scan.run [QUOTE_CHAR_CODE; QUOTE_CHAR_CODE]) = true.
Proof.
  split; [reflexivity|]. split; [|split; [|reflexivity]].
  - intros line. apply loop_quote_free; reflexivity.
  - intros a b. apply loop_quote_pair.
Qed.

(** ** The end of the buffer *)

(** C5: at the end of a non-empty buffer, when no line feed closed a line
    ([lastNewLinePos] is still [-1], which is the case exactly when no line
    was pushed) and the flag is off, the whole buffer is returned as the one
    line and the remainder is empty; in every other case, flag on or off, the
    lines closed by the scan are returned and the remainder is the bytes from
    the last line start, the position after the last line feed that closed a
    line, to the end of the buffer. *)
Theorem split_end_of_buffer (B : Buffer) :
  B <> [] ->
  let st := Scan.run B in
  (Scan.lastNewLinePos st = -1 <-> Scan.lines st = []) /\
  Scan.lineStart st = Scan.lastNewLinePos st + 1 /\
  0 <= Scan.lineStart st <= len B /\
  if (Scan.lastNewLinePos st =? -1) && negb (Scan.inQuotes st)
  then splitLinesFromBuffer B = {| lines := [toString B]; remainder := [] |}
  else splitLinesFromBuffer B
       = {| lines := Scan.lines st; remainder := subarray_from B (Scan.lineStart st) |}.
Proof.
  intros Hne st. subst st.
  pose proof (splitLinesFromBuffer_scan B) as Hsplit. unfold finalize in Hsplit.
  pose proof (run_scan B) as Hrun. pose proof (scan_shape B) as Hshape.
  destruct (scan B) as [[acc cur] q]. rewrite Hrun. scan_proj.
  assert (Hpos : (0 <? len B) = true).
  { apply Z.ltb_lt. destruct B; [congruence|]. rewrite len_cons.
    pose proof (len_nonneg B). lia. }
  pose proof (len_nonneg cur) as Hc.
  destruct Hshape as [[-> ->] | [Hacc [p ->]]].
  - rewrite Z.sub_diag. change (0 - 1 =? -1) with true. cbn [andb map].
    split; [split; reflexivity|]. split; [lia|]. split; [lia|].
    rewrite Hsplit, Hpos, andb_true_r. destruct q; reflexivity.
  - pose proof (len_nonneg p) as Hp.
    assert (Hlen : len (p ++ LF :: cur) - len cur = len p + 1)
      by (rewrite len_app, len_cons; lia).
    rewrite Hlen.
    destruct (Z.eqb_spec (len p + 1 - 1) (-1)); [lia|]. cbn [andb].
    split; [split; intros H; [lia | destruct acc; [congruence | discriminate]]|].
    split; [lia|]. split; [rewrite len_app, len_cons; lia|].
    + rewrite Hsplit. destruct acc as [|l acc]; [congruence|]. f_equal.
      rewrite <- Hlen.
      replace (p ++ LF :: cur) with ((p ++ [LF]) ++ cur) by (now rewrite <- app_assoc).
      symmetry. apply subarray_from_suffix.
Qed.

Lemma split_end_of_buffer_witness :
  splitLinesFromBuffer (bytes "a,b")
  = {| lines := ["a,b"%string]; remainder := [] |}.
Proof.
  assert (Hne : bytes "a,b" <> []) by discriminate.
  exact (proj2 (proj2 (proj2 (split_end_of_buffer (bytes "a,b") Hne)))).
Defined.

(** ** Line feeds outside quotes *)

Lemma on_quote_i (B : Buffer) (st : Scan.state) :
  Scan.i st <= Scan.i (Scan.on_quote B st).
Proof.
  unfold Scan.on_quote.
  destruct (is_code (at_ B (Scan.i st)) QUOTE_CHAR_CODE); [|lia].
  destruct ((Scan.i st + 1 <? len B) && is_code (at_ B (Scan.i st + 1)) QUOTE_CHAR_CODE);
    scan_proj; lia.
Qed.

Lemma on_newline_i (B : Buffer) (st : Scan.state) :
  Scan.i (Scan.on_newline B st) = Scan.i st.
Proof.
  unfold Scan.on_newline.
  destruct (is_code (at_ B (Scan.i st)) LF && negb (Scan.inQuotes st)); reflexivity.
Qed.

Lemma body_advances (B : Buffer) (st : Scan.state) :
  Scan.i st < Scan.i (Scan.body B st).
Proof.
  unfold Scan.body. scan_proj. rewrite on_newline_i.
  pose proof (on_quote_i B st). lia.
Qed.

Lemma chomp_eol (cur : Buffer) : chompCR cur ++ eol_of cur = cur ++ [LF].
Proof.
  unfold chompCR, eol_of. destruct cur as [|c cur] using rev_ind; [reflexivity|].
  rewrite last_byte_snoc. cbn [is_code].
  destruct (Byte.eqb c CR) eqn:Hc; [|reflexivity].
  apply byte_dec_bl in Hc. subst c.
  rewrite removelast_last, <- app_assoc. reflexivity.
Qed.

Lemma chomp_no_cr (cur : Buffer) :
  is_code (last_byte cur) CR = false -> chompCR cur = cur.
Proof. intros H. unfold chompCR. now rewrite H. Qed.

Lemma body_step (B : Buffer) (st : Scan.state) :
  Scan.i (Scan.body B st) = Scan.i st + 1 \/
  (Scan.i (Scan.body B st) = Scan.i st + 2 /\
   is_code (at_ B (Scan.i st + 1)) QUOTE_CHAR_CODE = true).
Proof.
  unfold Scan.body. scan_proj. rewrite on_newline_i. unfold Scan.on_quote.
  destruct (is_code (at_ B (Scan.i st)) QUOTE_CHAR_CODE); [|left; reflexivity].
  destruct (Scan.i st + 1 <? len B); cbn [andb]; [|left; reflexivity].
  destruct (is_code (at_ B (Scan.i st + 1)) QUOTE_CHAR_CODE); scan_proj.
  - right. split; [lia | reflexivity].
  - left. reflexivity.
Qed.

Lemma loop_head_around (B : Buffer) (p : nat) :
  exists k, Scan.i (Scan.after k B) <= Z.of_nat p < Scan.i (Scan.after (S k) B).
Proof.
  induction p as [|p [k [Hlo Hhi]]].
  - exists 0%nat. cbn [Scan.after].
    pose proof (body_advances B Scan.init) as H. cbn [Scan.i Scan.init] in *. lia.
  - destruct (Z.eq_dec (Scan.i (Scan.after (S k) B)) (Z.of_nat (S p))) as [E|E].
    + exists (S k). pose proof (body_advances B (Scan.after (S k) B)) as H.
      cbn [Scan.after] in *. lia.
    + exists k. lia.
Qed.

(** No line feed is stepped over: the only byte that the loop can pass
    without standing on it is the second quote of a pair. *)
Lemma line_feed_is_visited (B : Buffer) (p : Z) :
  at_ B p = Some LF -> exists k, Scan.i (Scan.after k B) = p.
Proof.
  intros Hlf.
  assert (Hp : 0 <= p).
  { unfold at_ in Hlf. destruct (Z.ltb_spec p 0); [discriminate | lia]. }
  destruct (loop_head_around B (Z.to_nat p)) as [k [Hlo Hhi]].
  rewrite Z2Nat.id in Hlo, Hhi by lia.
  exists k. cbn [Scan.after] in Hhi.
  destruct (body_step B (Scan.after k B)) as [E | [E Hq]]; [lia|].
  destruct (Z.eq_dec (Scan.i (Scan.after k B)) p) as [|Hne]; [assumption|].
  replace (Scan.i (Scan.after k B) + 1) with p in Hq by lia.
  rewrite Hlf in Hq. discriminate Hq.
Qed.

Lemma after_i_mono (B : Buffer) : forall j k,
  (j < k)%nat -> Scan.i (Scan.after j B) < Scan.i (Scan.after k B).
Proof.
  intros j k Hjk. induction k as [|k IH]; [lia|]. cbn [Scan.after].
  pose proof (body_advances B (Scan.after k B)).
  destruct (Nat.eq_dec j k) as [->|Hne]; [lia|]. specialize (IH ltac:(lia)). lia.
Qed.

(** While the loop condition holds, [k] more units of fuel are [k] more
    iterations. *)
Lemma loop_after (B : Buffer) : forall k j,
  (forall m, (j <= m < j + k)%nat -> Scan.i (Scan.after m B) < len B) ->
  Scan.loop k B (Scan.after j B) = Scan.after (j + k) B.
Proof.
  induction k as [|k IH]; intros j H.
  - cbn. now rewrite Nat.add_0_r.
  - cbn [Scan.loop].
    destruct (Z.ltb_spec (Scan.i (Scan.after j B)) (len B)) as [_|Hge];
      [|specialize (H j ltac:(lia)); lia].
    change (Scan.body B (Scan.after j B)) with (Scan.after (S j) B).
    rewrite IH; [f_equal; lia|]. intros m Hm. apply H. lia.
Qed.

Lemma loop_to (B : Buffer) (k : nat) :
  (forall m, (m < k)%nat -> Scan.i (Scan.after m B) < len B) ->
  Scan.loop k B Scan.init = Scan.after k B.
Proof.
  intros H. apply (loop_after B k 0). intros m Hm. apply H. lia.
Qed.

(** The state at the loop head, the scan that is still to do, and how the
    line feeds of the line being read were passed: inside quotes. *)
Lemma after_scan (B : Buffer) (k : nat) :
  (exists pre0 cur rest acc inQ,
     B = pre0 ++ cur ++ rest /\
     Scan.after k B = state_at pre0 cur acc inQ /\
     is_code (last_byte pre0) CR = false /\
     scan B = scan_from inQ cur acc rest /\
     (forall q, len pre0 <= q < len pre0 + len cur -> at_ B q = Some LF ->
        exists k', (k' < k)%nat /\ Scan.i (Scan.after k' B) = q /\
                   Scan.inQuotes (Scan.after k' B) = true)) \/
  len B < Scan.i (Scan.after k B).
Proof.
  induction k as [|k IH].
  - left. exists [], [], B, [], false. repeat split. intros q Hq. rewrite len_nil in Hq. lia.
  - cbn [Scan.after].
    destruct IH as [(pre0 & cur & rest & acc & inQ & HB & Hst & Hcr & Hscan & Hlf) | Hpast].
    2:{ right. pose proof (body_advances B (Scan.after k B)). lia. }
    assert (Hold : forall q, len pre0 <= q < len pre0 + len cur -> at_ B q = Some LF ->
              exists k', (k' < S k)%nat /\ Scan.i (Scan.after k' B) = q /\
                         Scan.inQuotes (Scan.after k' B) = true).
    { intros q Hq Hat. destruct (Hlf q Hq Hat) as (k' & Hk' & H1 & H2).
      exists k'. repeat split; auto. }
    assert (Hi : Scan.i (Scan.after k B) = len pre0 + len cur) by (now rewrite Hst).
    assert (HinQ : Scan.inQuotes (Scan.after k B) = inQ) by (now rewrite Hst).
    clear Hlf. rewrite Hst. clear Hst.
    destruct rest as [|b r].
    { right. pose proof (body_advances B (state_at pre0 cur acc inQ)) as H.
      unfold state_at in H at 1. cbn [Scan.i] in H.
      subst B. rewrite !len_app, len_nil in *. lia. }
    assert (Hb : at_ B (len pre0 + len cur) = Some b)
      by (subst B; now rewrite at_head0).
    left. subst B.
    destruct (Byte.eqb b QUOTE_CHAR_CODE) eqn:Hq.
    + assert (Hnlf : Some b <> Some LF).
      { intros [= ->]. discriminate Hq. }
      destruct r as [|b' r'].
      * rewrite body_quote by (assumption || reflexivity).
        exists pre0, (cur ++ [b]), [], acc, (negb inQ).
        split; [now rewrite <- app_assoc|]. split; [reflexivity|].
        split; [exact Hcr|]. split; [rewrite Hscan; now apply scan_quote_last|].
        intros q Hr Hat. rewrite len_app, len_cons, len_nil in Hr.
        destruct (Z.eq_dec q (len pre0 + len cur)) as [->|Hne];
          [congruence | apply Hold; [lia | exact Hat]].
      * destruct (Byte.eqb b' QUOTE_CHAR_CODE) eqn:Hq'.
        -- rewrite body_quote_pair by assumption.
           exists pre0, (cur ++ [b; b']), r', acc, (negb inQ).
           split; [now rewrite <- app_assoc|]. split; [reflexivity|].
           split; [exact Hcr|]. split; [rewrite Hscan; now apply scan_quote_pair|].
           intros q Hr Hat. rewrite len_app, !len_cons, len_nil in Hr.
           destruct (Z.eq_dec q (len pre0 + len cur)) as [->|Hne]; [congruence|].
           destruct (Z.eq_dec q (len pre0 + len cur + 1)) as [->|Hne'];
             [|apply Hold; [lia | exact Hat]].
           rewrite at_head in Hat by lia. rewrite at_1 in Hat.
           injection Hat as ->. discriminate Hq'.
        -- rewrite body_quote by (rewrite ?at_0; cbn; assumption).
           exists pre0, (cur ++ [b]), (b' :: r'), acc, (negb inQ).
           split; [now rewrite <- app_assoc|]. split; [reflexivity|].
           split; [exact Hcr|]. split; [rewrite Hscan; now apply scan_quote|].
           intros q Hr Hat. rewrite len_app, len_cons, len_nil in Hr.
           destruct (Z.eq_dec q (len pre0 + len cur)) as [->|Hne];
             [congruence | apply Hold; [lia | exact Hat]].
    + destruct (Byte.eqb b LF && negb inQ) eqn:Hnl.
      * apply andb_prop in Hnl. destruct Hnl as [Hlf HinQ'].
        apply byte_dec_bl in Hlf. subst b. destruct inQ; [discriminate|].
        rewrite body_newline by assumption.
        exists (pre0 ++ cur ++ [LF]), [], r, (acc ++ [chompCR cur]), false.
        split; [now rewrite <- !app_assoc|]. split; [reflexivity|].
        split; [rewrite !app_assoc, last_byte_snoc; reflexivity|].
        split; [rewrite Hscan; apply scan_newline|].
        intros q Hr. rewrite len_nil in Hr. lia.
      * rewrite body_other by assumption.
        exists pre0, (cur ++ [b]), r, acc, inQ.
        split; [now rewrite <- app_assoc|]. split; [reflexivity|].
        split; [exact Hcr|]. split; [rewrite Hscan; now apply scan_other|].
        intros q Hr Hat. rewrite len_app, len_cons, len_nil in Hr.
        destruct (Z.eq_dec q (len pre0 + len cur)) as [->|Hne];
          [|apply Hold; [lia | exact Hat]].
        rewrite Hb in Hat. injection Hat as ->.
        exists k. split; [lia|]. split; [exact Hi|]. rewrite HinQ.
        cbn [andb] in Hnl. now destruct inQ.
Qed.

(** A line closed during the scan is among the lines that the splitter
    returns, at the place it was closed at. *)
Lemma closed_line_is_returned (B : Buffer) (acc : list Buffer) (line r : Buffer) :
  scan B = scan_from false [] (acc ++ [line]) r ->
  nth_error (lines (splitLinesFromBuffer B)) (length acc) = Some (toString line).
Proof.
  intros Hscan. rewrite splitLinesFromBuffer_scan, Hscan, scan_from_acc.
  destruct (scan_from false [] [] r) as [[l c] q]. unfold finalize.
  assert (Hnth : nth_error (map toString ((acc ++ [line]) ++ l)) (length acc)
                 = Some (toString line)).
  { rewrite nth_error_map, <- app_assoc, nth_error_app2, Nat.sub_diag by lia.
    reflexivity. }
  destruct ((acc ++ [line]) ++ l) as [|l0 ls] eqn:E; [|exact Hnth].
  destruct acc; discriminate E.
Qed.

(** C8: the loop stands on every line feed of the buffer, and where it does
    with the flag off it closes a line, whether the line feed stands alone or
    follows a carriage return.  With [st] the state of the loop after the [k]
    iterations that bring it to the line feed at [p]: the buffer reads
    [pre ++ line ++ eol ++ rest] with [pre] ending at the line start and [eol]
    the terminator ([LF], or [CR; LF] when a carriage return stands right
    before the line feed) ending at [p]; the next iteration pushes the text of
    [line] alone and starts the next line after the terminator; and that text
    is among the lines that [splitLinesFromBuffer] returns, at the place it
    was pushed at.  So the bytes of the terminator are in no line text.  The
    text holds a line feed only where the loop stood on it with the flag on,
    inside quotes, and the field values of the line, joined, are the text
    without its quote characters: a field holds a line feed or a carriage
    return only if the text does. *)
Theorem line_feed_closes_line (B : Buffer) (p : Z) :
  at_ B p = Some LF ->
  exists k : nat,
    let st := Scan.loop k B Scan.init in
    Scan.i st = p /\
    (Scan.inQuotes st = false ->
     exists pre line eol rest : Buffer,
       B = pre ++ line ++ eol ++ rest /\
       len pre = Scan.lineStart st /\
       len (pre ++ line ++ eol) = p + 1 /\
       (eol = [CR; LF] \/ eol = [LF] /\ is_code (last_byte line) CR = false) /\
       line = subarray B (Scan.lineStart st) (Scan.line_end B p) /\
       Scan.loop (S k) B Scan.init
       = Scan.mk (Scan.lines st ++ [toString line]) (p + 1) p false (p + 1) /\
       nth_error (lines (splitLinesFromBuffer B)) (length (Scan.lines st))
       = Some (toString line) /\
       (forall q, Scan.lineStart st <= q < p -> at_ B q = Some LF ->
          exists k', (k' < k)%nat /\
            Scan.i (Scan.loop k' B Scan.init) = q /\
            Scan.inQuotes (Scan.loop k' B Scan.init) = true) /\
       join (parseCsvLine (toString line)) = remove_quotes (toString line) /\
       (existsb (contains NEWLINE) (parseCsvLine (toString line)) = true ->
        contains NEWLINE (toString line) = true) /\
       (existsb (contains CARRIAGE_RETURN) (parseCsvLine (toString line)) = true ->
        contains CARRIAGE_RETURN (toString line) = true)).
Proof.
  intros Hlf. destruct (line_feed_is_visited B p Hlf) as [k Hk].
  assert (Hp : p < len B).
  { unfold at_ in Hlf. destruct (p <? 0); [discriminate|].
    assert (Hsome : nth_error B (Z.to_nat p) <> None) by congruence.
    apply nth_error_Some in Hsome. unfold len. lia. }
  assert (Hbelow : forall m, (m <= k)%nat -> Scan.i (Scan.after m B) < len B).
  { intros m Hm. destruct (Nat.eq_dec m k) as [->|Hne]; [lia|].
    pose proof (after_i_mono B m k ltac:(lia)). lia. }
  assert (Hloop : forall m, (m <= S k)%nat -> Scan.loop m B Scan.init = Scan.after m B).
  { intros m Hm. apply loop_to. intros j Hj. apply Hbelow. lia. }
  exists k. cbv zeta. rewrite !Hloop by lia. split; [exact Hk|]. intros Hflag.
  destruct (after_scan B k)
    as [(pre0 & cur & rest & acc & inQ & HB & Hst & Hcr & Hscan & Hin) | Hpast];
    [|lia].
  cbn [Scan.after]. rewrite Hst in *.
  unfold state_at in Hflag, Hk. cbn [Scan.inQuotes Scan.i] in Hflag, Hk.
  subst inQ.
  assert (Hat : at_ B (len pre0 + len cur) = at_ rest 0) by (subst B; apply at_head0).
  rewrite Hk, Hlf in Hat. destruct rest as [|b r]; [discriminate|]. rewrite at_0 in Hat.
  injection Hat as <-.
  exists pre0, (chompCR cur), (eol_of cur), r.
  assert (Hcut : pre0 ++ cur ++ LF :: r = pre0 ++ chompCR cur ++ eol_of cur ++ r).
  { rewrite (app_assoc (chompCR cur)), chomp_eol, <- app_assoc. reflexivity. }
  assert (Hbody : Scan.body B (state_at pre0 cur acc false)
                  = state_at (pre0 ++ cur ++ [LF]) [] (acc ++ [chompCR cur]) false).
  { rewrite HB at 1. now apply body_newline. }
  rewrite Hbody. clear Hbody.
  split; [now rewrite <- Hcut|]. unfold state_at. scan_proj.
  split; [reflexivity|]. split.
  { rewrite chomp_eol, !len_app, len_cons, len_nil. lia. }
  split.
  { unfold eol_of, chompCR. destruct (is_code (last_byte cur) CR) eqn:E; auto. }
  split.
  { symmetry. rewrite <- Hk. apply (line_end_chomp _ pre0 cur (LF :: r) HB Hcr). }
  split.
  { rewrite map_app, !len_app, len_cons, len_nil. cbn [map]. f_equal; lia. }
  split.
  { rewrite length_map. apply (closed_line_is_returned B acc (chompCR cur) r).
    rewrite Hscan. apply scan_newline. }
  split.
  { intros q Hq Hq'. destruct (Hin q ltac:(lia) Hq') as (k' & Hk' & H1 & H2).
    exists k'. rewrite Hloop by lia. auto. }
  split.
  { unfold parseCsvLine. rewrite join_loop. reflexivity. }
  split; apply fields_chars.
Qed.

Lemma line_feed_closes_line_witness :
  exists k : nat,
    let B := bytes "a,b" ++ [CR; LF] ++ bytes "c" in
    let st := Scan.loop k B Scan.init in
    Scan.i st = 4 /\
    (Scan.inQuotes st = false ->
     exists pre line eol rest : Buffer,
       B = pre ++ line ++ eol ++ rest /\
       len pre = Scan.lineStart st /\
       len (pre ++ line ++ eol) = 4 + 1 /\
       (eol = [CR; LF] \/ eol = [LF] /\ is_code (last_byte line) CR = false) /\
       line = subarray B (Scan.lineStart st) (Scan.line_end B 4) /\
       Scan.loop (S k) B Scan.init
       = Scan.mk (Scan.lines st ++ [toString line]) (4 + 1) 4 false (4 + 1) /\
       nth_error (lines (splitLinesFromBuffer B)) (length (Scan.lines st))
       = Some (toString line) /\
       (forall q, Scan.lineStart st <= q < 4 -> at_ B q = Some LF ->
          exists k', (k' < k)%nat /\
            Scan.i (Scan.loop k' B Scan.init) = q /\
            Scan.inQuotes (Scan.loop k' B Scan.init) = true) /\
       join (parseCsvLine (toString line)) = remove_quotes (toString line) /\
       (existsb (contains NEWLINE) (parseCsvLine (toString line)) = true ->
        contains NEWLINE (toString line) = true) /\
       (existsb (contains CARRIAGE_RETURN) (parseCsvLine (toString line)) = true ->
        contains CARRIAGE_RETURN (toString line) = true)).
Proof.
  exact (line_feed_closes_line (bytes "a,b" ++ [CR; LF] ++ bytes "c") 4 eq_refl).
Defined.

(** On a buffer: the line feed at 4 closes the line [a,b], the carriage
    return before it is not in the text, and the line feed inside quotes at 2
    of the second buffer closes nothing and stays in the text and in the
    field. *)
Example line_feed_closes_line_on_buffers :
  splitLinesFromBuffer (bytes "a,b" ++ [CR; LF] ++ bytes "c")
  = {| lines := ["a,b"%string]; remainder := bytes "c" |} /\
  lines (splitLinesFromBuffer ([QUOTE_CHAR_CODE] ++ bytes "x" ++ [LF] ++ bytes "y"
                               ++ [QUOTE_CHAR_CODE; LF]))
  = [toString ([QUOTE_CHAR_CODE] ++ bytes "x" ++ [LF] ++ bytes "y" ++ [QUOTE_CHAR_CODE])] /\
  parseCsvLine (toString ([QUOTE_CHAR_CODE] ++ bytes "x" ++ [LF] ++ bytes "y"
                          ++ [QUOTE_CHAR_CODE]))
  = [toString (bytes "x" ++ [LF] ++ bytes "y")].
Proof. repeat split. Qed.

(** A carriage return at the end of a chunk that is taken for a whole line
    stays in the line text: the line feed that would have made it part of a
    terminator is in the next buffer. *)
Example cr_at_the_end_of_a_chunk_taken_whole :
  splitLinesFromBuffer (bytes "a" ++ [CR])
  = {| lines := [toString (bytes "a" ++ [CR])]; remainder := [] |}.
Proof. reflexivity. Qed.

(** Both terminators, on a buffer: the same line text, without them. *)
Example lf_and_crlf_close_the_same_line :
  splitLinesFromBuffer (bytes "a,b" ++ [LF] ++ bytes "c")
  = {| lines := ["a,b"%string]; remainder := bytes "c" |} /\
  splitLinesFromBuffer (bytes "a,b" ++ [CR; LF] ++ bytes "c")
  = {| lines := ["a,b"%string]; remainder := bytes "c" |}.
Proof. split; reflexivity. Qed.

(** ** The end of the stream *)

(** When the last byte is a line feed and the scan ends outside quotes, that
    line feed closed a line: nothing is left open. *)
Lemma scan_from_trailing_lf : forall rest inQ cur acc,
  let '(_, cur', q') := scan_from inQ cur acc (rest ++ [LF]) in
  q' = false -> cur' = [].
Proof.
  assert (Hlast : forall inQ cur acc,
    let '(_, cur', q') := scan_from inQ cur acc [LF] in q' = false -> cur' = []).
  { intros [|] cur acc; cbn; [discriminate | reflexivity]. }
  apply (scan_cases (fun inQ cur acc rest =>
    let '(_, cur', q') := scan_from inQ cur acc (rest ++ [LF]) in
    q' = false -> cur' = [])).
  - intros inQ cur acc. apply Hlast.
  - intros inQ cur acc b Hq. cbn [app]. rewrite scan_quote by (assumption || reflexivity).
    apply Hlast.
  - intros inQ cur acc b b' r Hq Hq' IH. cbn [app].
    rewrite scan_quote_pair by assumption. exact IH.
  - intros inQ cur acc b b' r Hq Hq' IH. cbn [app] in *.
    rewrite scan_quote by assumption. exact IH.
  - intros cur acc r IH. cbn [app]. rewrite scan_newline. exact IH.
  - intros inQ cur acc b r Hq Hnl IH. cbn [app].
    rewrite scan_other by assumption. exact IH.
Qed.

Lemma run_inQuotes (buffer : Buffer) :
  Scan.inQuotes (Scan.run buffer) = snd (scan buffer).
Proof.
  pose proof (run_scan buffer) as H. destruct (scan buffer) as [[acc cur] q].
  rewrite H. reflexivity.
Qed.

(** What is left over yields a line of its own only when the scan ended
    outside quotes. *)
Lemma split_remainder (buffer : Buffer) :
  let '(_, r, q) := scan buffer in
  lines (splitLinesFromBuffer r)
  = if negb q && (0 <? len r) then [toString r] else [].
Proof.
  pose proof (scan_remainder buffer) as H.
  destruct (scan buffer) as [[l r] q].
  rewrite splitLinesFromBuffer_scan, H. unfold finalize.
  destruct (negb q && (0 <? len r)); reflexivity.
Qed.

Lemma remainder_scan (buffer : Buffer) :
  remainder (splitLinesFromBuffer buffer) = [] \/
  remainder (splitLinesFromBuffer buffer) = snd (fst (scan buffer)).
Proof.
  rewrite splitLinesFromBuffer_scan. unfold finalize.
  destruct (scan buffer) as [[[|l acc] cur] q]; cbn [fst snd remainder]; auto.
  destruct (negb q && (0 <? len buffer)); cbn [remainder]; auto.
Qed.

Lemma drain_snoc (cs : list Buffer) (c : Buffer) :
  Driver.drain (cs ++ [c]) = Driver.step (Driver.drain cs) c.
Proof. unfold Driver.drain. rewrite fold_left_app. reflexivity. Qed.

Lemma step_remainder (st : Driver.state) (c : Buffer) :
  Driver.remainderBuffer (Driver.step st c)
  = remainder (splitLinesFromBuffer (Driver.remainderBuffer st ++ c)).
Proof.
  unfold Driver.step.
  destruct (Driver.isFirstChunk st &&
            (0 <? Z.of_nat (length (lines (splitLinesFromBuffer (Driver.remainderBuffer st ++ c))))));
    reflexivity.
Qed.

Lemma finish_logged_nil (st : Driver.state) :
  lines (splitLinesFromBuffer (Driver.remainderBuffer st)) = [] ->
  Driver.logged (Driver.finish st) = Driver.logged st.
Proof.
  intros H. unfold Driver.finish.
  destruct (0 <? len (Driver.remainderBuffer st)); [|reflexivity].
  cbn [Driver.logged]. rewrite H. cbn. apply app_nil_r.
Qed.

(** After a stream that ends in a line feed the step after the loop adds no
    record.  With [buffer] the last buffer that the splitter sees: when the
    scan of it ends outside quotes, the last line feed closed a line and the
    remainder handed back is empty; the step after the loop leaves the state
    as it is when the remainder is empty; and in every case the records of
    the parse are those logged when the loop was left. *)
Lemma step_after_loop_adds_nothing_after_line_feed (cs : list Buffer) (c : Buffer) :
  let st := Driver.drain (cs ++ [c ++ [LF]]) in
  let buffer := Driver.remainderBuffer (Driver.drain cs) ++ c ++ [LF] in
  (Scan.inQuotes (Scan.run buffer) = false ->
   remainder (splitLinesFromBuffer buffer) = [] /\ Driver.remainderBuffer st = []) /\
  (Driver.remainderBuffer st = [] -> parseAndLogCsv (cs ++ [c ++ [LF]]) = st) /\
  records (cs ++ [c ++ [LF]]) = Driver.logged st.
Proof.
  intros st buffer.
  assert (Hrem : Driver.remainderBuffer st = remainder (splitLinesFromBuffer buffer)).
  { subst st buffer. rewrite drain_snoc. apply step_remainder. }
  assert (Htrail : snd (scan buffer) = false -> remainder (splitLinesFromBuffer buffer) = []).
  { intros Hq. destruct (remainder_scan buffer) as [H | H]; [exact H|].
    rewrite H. subst buffer. rewrite app_assoc in *.
    pose proof (scan_from_trailing_lf (Driver.remainderBuffer (Driver.drain cs) ++ c)
                  false [] []) as Ht.
    unfold scan in *.
    destruct (scan_from false [] [] ((Driver.remainderBuffer (Driver.drain cs) ++ c) ++ [LF]))
      as [[l r] q]. cbn [fst snd] in *. auto. }
  split; [|split].
  - intros Hq. rewrite run_inQuotes in Hq. rewrite Hrem. auto.
  - intros Hnil. unfold parseAndLogCsv, Driver.finish. fold st. rewrite Hnil. reflexivity.
  - unfold records, parseAndLogCsv. fold st. apply finish_logged_nil. rewrite Hrem.
    destruct (remainder_scan buffer) as [H | H]; rewrite H; [reflexivity|].
    pose proof (split_remainder buffer) as Hs.
    destruct (scan buffer) as [[l r] q] eqn:Hscan. cbn [fst snd] in *.
    rewrite Hs. destruct q; [reflexivity|].
    rewrite Htrail in H by reflexivity. subst r. reflexivity.
Qed.

(** C10 fails: a stream that ends in a line feed can get an extra, empty
    record at its end.  The bytes [a,b\n1,2\n] in the three chunks [a,b\n],
    [1,2] and [\n]: the second buffer holds no line feed and ends outside
    quotes, so the splitter hands it back as a whole line with nothing to
    carry; the third buffer is then the line feed alone, which closes an
    empty line, and the driver prints a record for it.  Every buffer leaves
    an empty remainder and the step after the loop is skipped, as the claim
    says, and still the parse has one record more than the parse of the same
    bytes in one chunk. *)
Theorem trailing_line_feed_extra_record :
  let chunks := [bytes "a,b" ++ [LF]; bytes "1,2"; [LF]] in
  concat chunks = bytes "a,b" ++ [LF] ++ bytes "1,2" ++ [LF] /\
  splitLinesFromBuffer (bytes "1,2") = {| lines := ["1,2"%string]; remainder := [] |} /\
  splitLinesFromBuffer [LF] = {| lines := [EmptyString]; remainder := [] |} /\
  Driver.remainderBuffer (Driver.drain chunks) = [] /\
  parseAndLogCsv chunks = Driver.drain chunks /\
  records chunks
  = [LogRow [("a", "1"); ("b", "2")]%string; LogRow [("a"%string, EmptyString)]] /\
  records [concat chunks] = [LogRow [("a", "1"); ("b", "2")]%string].
Proof. cbv zeta. repeat split. Qed.

(** ** Records *)

Lemma get_not_in {V : Type} (o : Obj.t V) (key : string) :
  ~ In key (map fst o) -> Obj.get o key = None.
Proof.
  induction o as [|[k v] o IH]; [reflexivity|]. cbn [map fst In Obj.get]. intros Hn.
  destruct (String.eqb_spec k key) as [->|Hne]; [tauto|]. apply IH. tauto.
Qed.

Lemma set_ordinary_new {V : Type} (o : Obj.t V) (key : string) (v : V) :
  ordinary_key key = true -> ~ In key (map fst o) ->
  Obj.set o key v = o ++ [(key, v)].
Proof.
  intros Hord Hnew. unfold ordinary_key in Hord.
  apply andb_prop in Hord. destruct Hord as [Hproto Hidx].
  unfold Obj.set, Obj.define, Obj.has.
  rewrite (get_not_in o key Hnew).
  destruct (String.eqb key Obj.proto); [discriminate|].
  destruct (Obj.array_index key); [discriminate | reflexivity].
Qed.

Lemma skipn_nth_error {A : Type} : forall (l : list A) (n : nat) (x : A),
  nth_error l n = Some x -> skipn n l = x :: skipn (S n) l.
Proof.
  induction l as [|a l IH]; intros [|n] x H; cbn in *; try discriminate.
  - congruence.
  - now apply IH.
Qed.

Lemma forEach_header_combine : forall headers index values row,
  NoDup (map fst row ++ headers) ->
  forallb ordinary_key headers = true ->
  forEach_header headers index values row
  = row ++ combine headers (skipn index values).
Proof.
  induction headers as [|header rest IH]; intros index values row Hnd Hord.
  - cbn. now rewrite app_nil_r.
  - cbn [forEach_header]. cbn [forallb] in Hord.
    apply andb_prop in Hord. destruct Hord as [Hh Hrest].
    assert (Hnew : ~ In header (map fst row)).
    { apply NoDup_remove_2 in Hnd. intros Hin. apply Hnd. apply in_or_app. auto. }
    destruct (nth_error values index) as [v|] eqn:Hnth.
    + rewrite set_ordinary_new by assumption.
      rewrite IH; [|rewrite map_app, <- app_assoc; exact Hnd | exact Hrest].
      rewrite <- app_assoc. f_equal.
      rewrite (skipn_nth_error _ _ _ Hnth). reflexivity.
    + rewrite IH; [|apply NoDup_remove_1 in Hnd; exact Hnd | exact Hrest].
      apply nth_error_None in Hnth.
      rewrite !skipn_all2 by lia. now destruct rest.
Qed.

Lemma get_combine_beyond : forall (H F : list string) (i : nat) (h : string),
  NoDup H -> nth_error H i = Some h -> (length F <= i)%nat ->
  Obj.get (combine H F) h = None.
Proof.
  induction H as [|h0 H IH]; intros F i h Hnd Hi Hlen; [reflexivity|].
  destruct F as [|f0 F]; [reflexivity|].
  destruct i as [|i]; [cbn in Hlen; lia|].
  cbn [nth_error] in Hi. cbn [combine Obj.get]. inversion Hnd as [|? ? Hnot Hnd']; subst.
  destruct (String.eqb_spec h0 h) as [->|Hne].
  - exfalso. apply Hnot. eapply nth_error_In. exact Hi.
  - apply (IH F i h Hnd' Hi). cbn in Hlen. lia.
Qed.

Lemma nth_error_combine {A B : Type} : forall (l : list A) (l' : list B) i a b,
  nth_error l i = Some a -> nth_error l' i = Some b ->
  nth_error (combine l l') i = Some (a, b).
Proof.
  induction l as [|a0 l IH]; intros [|b0 l'] [|i] a b Ha Hb; cbn in *; try discriminate.
  - congruence.
  - now apply IH.
Qed.

(** C6, as the code has it: for a header that is not empty and whose names
    are pairwise distinct and ordinary (no array index, not [__proto__]), the
    record of a line with the fields [F] is exactly the pairs [(H[i], F[i])]
    for [i < min (length H) (length F)], in header order: fields beyond the
    header are dropped, and a header name at an index at or beyond
    [length F] is absent from the record. *)
Theorem record_pairs_header_with_fields (H : list string) (line : string) :
  H <> [] -> NoDup H -> forallb ordinary_key H = true ->
  let F := parseCsvLine line in
  processLine H line = LogRow (combine H F) /\
  length (combine H F) = Nat.min (length H) (length F) /\
  (forall i h f, nth_error H i = Some h -> nth_error F i = Some f ->
                 nth_error (combine H F) i = Some (h, f)) /\
  (forall i h, nth_error H i = Some h -> (length F <= i)%nat ->
               Obj.get (combine H F) h = None).
Proof.
  intros Hne Hnd Hord F. split; [|split; [|split]].
  - unfold processLine. fold F.
    destruct H as [|h0 H]; [congruence|]. cbn [length].
    destruct (Z.ltb_spec 0 (Z.of_nat (S (length H)))); [|lia].
    unfold buildRow. rewrite forEach_header_combine; [reflexivity | exact Hnd | exact Hord].
  - apply length_combine.
  - intros i h f. apply nth_error_combine.
  - intros i h Hi Hlen. exact (get_combine_beyond H F i h Hnd Hi Hlen).
Qed.

Lemma record_pairs_header_with_fields_witness :
  processLine ["name"; "age"; "email"]%string "Doe,30"
  = LogRow [("name", "Doe"); ("age", "30")]%string.
Proof.
  assert (Hne : ["name"; "age"; "email"]%string <> []) by discriminate.
  assert (Hnd : NoDup ["name"; "age"; "email"]%string).
  { repeat constructor; cbn; intros H; repeat destruct H as [H|H]; try discriminate H; exact H. }
  exact (proj1 (record_pairs_header_with_fields
                  ["name"; "age"; "email"]%string "Doe,30" Hne Hnd eq_refl)).
Defined.

(** C6 as stated fails for a header that names a column twice: the record has
    one property for the name, holding the field of its last occurrence, so
    the pair of the first occurrence is not in it. *)
Lemma repeated_header_name_keeps_last_field :
  processLine ["a"; "a"]%string "1,2" = LogRow [("a", "2")]%string /\
  combine ["a"; "a"]%string (parseCsvLine "1,2") = [("a", "1"); ("a", "2")]%string /\
  processLine ["a"; "a"]%string "1,2"
  <> LogRow (combine ["a"; "a"]%string (parseCsvLine "1,2")).
Proof. repeat split. discriminate. Qed.

(** The other ways a record departs from the pairs in header order. *)
Example array_index_names_come_first :
  buildRow ["b"; "1"]%string ["x"; "y"]%string = [("1", "y"); ("b", "x")]%string.
Proof. reflexivity. Qed.

Example proto_is_not_stored :
  buildRow ["__proto__"; "a"]%string ["x"; "y"]%string = [("a", "y")]%string.
Proof. reflexivity. Qed.

Example no_header_no_record :
  processLine [] "1,2" = LogValues ["1"; "2"]%string.
Proof. reflexivity. Qed.

(** ** The AI-cleaning parser: rows after the consumer *)

Lemma nth_error_mapi_from {A B : Type} (f : nat -> A -> B) :
  forall (l : list A) (start i : nat),
    nth_error (AI.mapi_from f start l) i
    = option_map (f (start + i)%nat) (nth_error l i).
Proof.
  induction l as [|a l IH]; intros start [|i]; cbn; try reflexivity.
  - now rewrite Nat.add_0_r.
  - rewrite IH. now rewrite Nat.add_succ_r.
Qed.

Lemma nth_error_mapi {A B : Type} (f : nat -> A -> B) (l : list A) (i : nat) :
  nth_error (AI.mapi f l) i = option_map (f i) (nth_error l i).
Proof. unfold AI.mapi. now rewrite nth_error_mapi_from. Qed.

Lemma Promise_all_nth : forall promises responses i r,
  AI.Promise_all promises = Some responses ->
  nth_error promises i = Some (AI.Resolved r) ->
  nth_error responses i = Some r.
Proof.
  induction promises as [|[|r0] promises IH]; intros responses i r Hall Hi.
  - destruct i; discriminate.
  - discriminate.
  - cbn [AI.Promise_all] in Hall.
    destruct (AI.Promise_all promises) as [rs|] eqn:Hrs; [|discriminate].
    injection Hall as <-. destruct i as [|i]; cbn in *.
    + congruence.
    + now apply IH.
Qed.

Lemma get_lift (row : Obj.t string) (key : string) :
  Obj.get (AI.lift row) key = option_map AI.JString (Obj.get row key).
Proof.
  induction row as [|[k v] row IH]; [reflexivity|]. cbn.
  destruct (String.eqb k key); [reflexivity | exact IH].
Qed.

Lemma get_delete {V : Type} (o : Obj.t V) (gone key : string) :
  Obj.get (Obj.delete o gone) key
  = if String.eqb gone key then None else Obj.get o key.
Proof.
  induction o as [|[k v] o IH].
  - cbn. now destruct (String.eqb gone key).
  - cbn [Obj.delete filter fst]. fold (Obj.delete o gone).
    destruct (String.eqb_spec k gone) as [->|Hkg]; cbn [negb].
    + rewrite IH. cbn [Obj.get].
      destruct (String.eqb_spec gone key); reflexivity.
    + cbn [Obj.get]. rewrite IH.
      destruct (String.eqb_spec k key) as [->|Hk]; [|reflexivity].
      destruct (String.eqb_spec gone key); [congruence | reflexivity].
Qed.

Lemma length_calls (rows : list (Obj.t string)) :
  length (AI.calls rows) = (2 * length rows)%nat.
Proof.
  unfold AI.calls. induction rows as [|row rows IH]; [reflexivity|].
  cbn [flat_map length app]. rewrite IH. lia.
Qed.

Section ConsumerFacts.

Variables cleanPhoneNumber cleanAddress : nat -> option string -> AI.Outcome.

Lemma start_calls_eq : forall rows index trace phoneNumbers addresses,
  AI.start_calls cleanPhoneNumber cleanAddress index rows trace phoneNumbers addresses
  = (trace ++ AI.calls rows,
     phoneNumbers
     ++ AI.mapi_from (fun index row => cleanPhoneNumber index (Obj.get row "phone"))
          index rows,
     addresses
     ++ AI.mapi_from (fun index row => cleanAddress index (Obj.get row "address"))
          index rows).
Proof.
  induction rows as [|row rows IH]; intros index trace phoneNumbers addresses.
  - cbn. now rewrite !app_nil_r.
  - cbn [AI.start_calls]. rewrite IH. unfold AI.calls. cbn [flat_map AI.mapi_from].
    rewrite <- !app_assoc. reflexivity.
Qed.

Lemma postProcessRows_eq (rows : list (Obj.t string)) :
  AI.postProcessRows cleanPhoneNumber cleanAddress rows
  = (AI.calls rows,
     match AI.Promise_all
             (AI.mapi (fun index row => cleanPhoneNumber index (Obj.get row "phone")) rows)
     with
     | None => None
     | Some phoneResponse =>
         match AI.Promise_all
                 (AI.mapi (fun index row => cleanAddress index (Obj.get row "address")) rows)
         with
         | None => None
         | Some addressResponse =>
             Some (AI.mapi (fun index row =>
                              Obj.spread
                                (Obj.spread (AI.lift (Obj.delete row "address"))
                                   (AI.cleaned_props (nth_error addressResponse index)))
                                (AI.cleaned_props (nth_error phoneResponse index)))
                           rows)
         end
     end).
Proof.
  unfold AI.postProcessRows. rewrite start_calls_eq. reflexivity.
Qed.

(** C7, as the code has it: when both calls made for a row resolve to [null]
    and no call of the batch is rejected, the row handed on is the original
    row without its [address] property: every other field keeps its value and
    its place, and [address] is deleted whether or not the cleaning gave a
    result.  Each row gets exactly one call of each cleaner, whatever the
    outcomes: nothing is retried. *)
Theorem failed_cleaning_keeps_all_but_address
    (rows : list (Obj.t string)) (out : list (Obj.t AI.JsValue))
    (index : nat) (row : Obj.t string) :
  nth_error rows index = Some row ->
  cleanPhoneNumber index (Obj.get row "phone") = AI.Resolved None ->
  cleanAddress index (Obj.get row "address") = AI.Resolved None ->
  snd (AI.postProcessRows cleanPhoneNumber cleanAddress rows) = Some out ->
  nth_error out index = Some (AI.lift (Obj.delete row "address")) /\
  (forall key, key <> "address"%string ->
     Obj.get (AI.lift (Obj.delete row "address")) key
     = option_map AI.JString (Obj.get row key)) /\
  Obj.get (AI.lift (Obj.delete row "address")) "address" = None /\
  fst (AI.postProcessRows cleanPhoneNumber cleanAddress rows) = AI.calls rows /\
  length (AI.calls rows) = (2 * length rows)%nat.
Proof.
  intros Hrow Hphone Haddr Hout.
  split; [|split; [|split; [|split]]].
  - rewrite postProcessRows_eq in Hout. cbn [snd] in Hout.
    destruct (AI.Promise_all (AI.mapi _ rows)) as [phoneResponse|] eqn:Hp in Hout;
      [|discriminate].
    destruct (AI.Promise_all (AI.mapi _ rows)) as [addressResponse|] eqn:Ha in Hout;
      [|discriminate].
    injection Hout as <-.
    rewrite nth_error_mapi, Hrow. cbn [option_map]. f_equal.
    rewrite (Promise_all_nth _ _ index None Ha), (Promise_all_nth _ _ index None Hp).
    + reflexivity.
    + rewrite nth_error_mapi, Hrow. cbn [option_map]. now rewrite Hphone.
    + rewrite nth_error_mapi, Hrow. cbn [option_map]. now rewrite Haddr.
  - intros key Hkey. rewrite get_lift, get_delete.
    destruct (String.eqb_spec "address" key); [congruence | reflexivity].
  - rewrite get_lift, get_delete. reflexivity.
  - rewrite postProcessRows_eq. reflexivity.
  - apply length_calls.
Qed.

End ConsumerFacts.

Lemma failed_cleaning_keeps_all_but_address_witness :
  nth_error [[("name", AI.JString "Ann"); ("phone", AI.JString "555")]%string] 0
  = Some (AI.lift (Obj.delete [("name", "Ann"); ("phone", "555"); ("address", "2 Main St")]%string
                     "address")).
Proof.
  exact (proj1 (failed_cleaning_keeps_all_but_address AI.failing AI.failing
                  [[("name", "Ann"); ("phone", "555"); ("address", "2 Main St")]%string]
                  [[("name", AI.JString "Ann"); ("phone", AI.JString "555")]%string]
                  0 [("name", "Ann"); ("phone", "555"); ("address", "2 Main St")]%string
                  eq_refl eq_refl eq_refl eq_refl)).
Defined.

(** C7 as stated fails: a row whose cleaning gave no result is handed on
    without its [address] field, so not all of its original values are
    kept. *)
Lemma failed_cleaning_drops_address :
  let row := [("name", "Ann"); ("phone", "555"); ("address", "2 Main St")]%string in
  snd (AI.postProcessRows AI.failing AI.failing [row])
  = Some [[("name", AI.JString "Ann"); ("phone", AI.JString "555")]%string] /\
  Obj.get row "address" = Some "2 Main St"%string /\
  Obj.get [("name", AI.JString "Ann"); ("phone", AI.JString "555")]%string "address" = None.
Proof. repeat split. Qed.

(** A call that is rejected, not resolved to [null], is not caught: the
    [await] throws, and no row of the batch is handed on. *)
Example rejected_call_loses_the_batch :
  snd (AI.postProcessRows AI.rejecting AI.failing
         [[("name", "Ann"); ("phone", "555")]%string]) = None.
Proof. reflexivity. Qed.

(** ** Where the chunk boundaries show *)

Lemma open_line_scan (buffer : Buffer) :
  open_line buffer = snd (fst (scan buffer)).
Proof.
  unfold open_line. pose proof (run_scan buffer) as Hrun.
  pose proof (scan_shape buffer) as Hshape.
  destruct (scan buffer) as [[acc cur] q]. rewrite Hrun. scan_proj. cbn [fst snd].
  destruct Hshape as [[-> ->] | [_ [p ->]]].
  - rewrite Z.sub_diag. reflexivity.
  - replace (p ++ LF :: cur) with ((p ++ [LF]) ++ cur) by (now rewrite <- app_assoc).
    apply subarray_from_suffix.
Qed.

Lemma remainder_not_taken_whole (buffer : Buffer) :
  taken_whole buffer = false ->
  remainder (splitLinesFromBuffer buffer) = open_line buffer.
Proof.
  unfold taken_whole, splitLinesFromBuffer, open_line. intros ->. cbn [remainder].
  pose proof (run_scan buffer) as Hrun.
  destruct (scan buffer) as [[acc cur] q]. rewrite Hrun. scan_proj.
  destruct (Z.leb_spec 0 (len buffer - len cur - 1)); f_equal; lia.
Qed.

(** The part of the invariant that the code keeps: a call whose buffer is not
    taken for a whole line hands back the open line of the stream read so
    far. *)
Lemma remainder_at_line_start_kept (consumed carried chunk : Buffer) :
  remainder_at_line_start consumed carried ->
  taken_whole (carried ++ chunk) = false ->
  remainder_at_line_start (consumed ++ chunk)
    (remainder (splitLinesFromBuffer (carried ++ chunk))).
Proof.
  unfold remainder_at_line_start. intros -> Hnot.
  rewrite (remainder_not_taken_whole _ Hnot), !open_line_scan.
  rewrite (scan_restart consumed chunk).
  destruct (scan consumed) as [[l r] q]. cbn [fst snd].
  destruct (scan (r ++ chunk)) as [[l' r'] q']. reflexivity.
Qed.

(** A buffer that is not taken for a whole line gives the closed lines and
    the open line of its scan. *)
Lemma split_not_taken_whole (buffer : Buffer) :
  taken_whole buffer = false ->
  splitLinesFromBuffer buffer
  = let '(l, r, _) := scan buffer in {| lines := map toString l; remainder := r |}.
Proof.
  intros Hnot. rewrite splitLinesFromBuffer_scan. unfold finalize.
  unfold taken_whole in Hnot. pose proof (run_scan buffer) as Hrun.
  pose proof (scan_shape buffer) as Hshape.
  destruct (scan buffer) as [[l r] q]. rewrite Hrun in Hnot. scan_proj_in Hnot.
  destruct l as [|l0 l]; [|reflexivity].
  destruct Hshape as [[_ ->] | [Hne _]]; [|congruence].
  rewrite Z.sub_diag in Hnot. change (0 - 1 =? -1) with true in Hnot.
  cbn [andb] in Hnot. rewrite Hnot. reflexivity.
Qed.

(** Over chunks none of which is taken for a whole line, the driver gets
    the closed lines of the scan of the whole stream, and is left with its
    open line. *)
Lemma split_chunks_smooth : forall chunks consumed,
  let '(l0, r0, _) := scan consumed in
  smooth r0 chunks = true ->
  let '(l, r, _) := scan (consumed ++ concat chunks) in
  exists l1, l = l0 ++ l1 /\ split_chunks r0 chunks = (map toString l1, r).
Proof.
  induction chunks as [|c cs IH]; intros consumed.
  - cbn [concat]. rewrite app_nil_r. destruct (scan consumed) as [[l0 r0] q0].
    intros _. exists []. rewrite app_nil_r. split; reflexivity.
  - specialize (IH (consumed ++ c)).
    pose proof (scan_restart consumed c) as Hre.
    destruct (scan consumed) as [[l0 r0] q0].
    cbn [smooth split_chunks concat]. intros Hs.
    apply andb_prop in Hs. destruct Hs as [Hnot Hs].
    apply negb_true_iff in Hnot.
    rewrite (split_not_taken_whole _ Hnot) in Hs |- *.
    destruct (scan (r0 ++ c)) as [[l' r'] q']. cbn [lines remainder] in *.
    rewrite Hre in IH. specialize (IH Hs). rewrite app_assoc.
    destruct (scan ((consumed ++ c) ++ concat cs)) as [[l r] q].
    destruct IH as [l1 [-> Hsplit]]. rewrite Hsplit.
    exists (l' ++ l1). rewrite map_app, app_assoc. split; reflexivity.
Qed.

Lemma step_driver_of (all : list string) (rem : Buffer) (n : Z) (chunk : Buffer) :
  Driver.step (driver_of all rem n) chunk
  = driver_of (all ++ lines (splitLinesFromBuffer (rem ++ chunk)))
      (remainder (splitLinesFromBuffer (rem ++ chunk))) (n + 1).
Proof.
  unfold Driver.step. destruct all as [|first data]; cbn [driver_of Driver.isFirstChunk
    Driver.remainderBuffer Driver.chunksCount Driver.headers Driver.logged andb app].
  - destruct (lines (splitLinesFromBuffer (rem ++ chunk))) as [|first data];
      reflexivity.
  - unfold processBlockOfLines. rewrite map_app. reflexivity.
Qed.

Lemma fold_step_driver_of : forall chunks all rem n,
  fold_left Driver.step chunks (driver_of all rem n)
  = let '(ls, rem') := split_chunks rem chunks in
    driver_of (all ++ ls) rem' (n + Z.of_nat (length chunks)).
Proof.
  induction chunks as [|c cs IH]; intros all rem n.
  - cbn. rewrite app_nil_r, Z.add_0_r. reflexivity.
  - cbn [fold_left split_chunks]. rewrite step_driver_of, IH.
    destruct (split_chunks (remainder (splitLinesFromBuffer (rem ++ c))) cs) as [ls rem'].
    rewrite <- app_assoc. f_equal. cbn [length]. lia.
Qed.

(** The driver reads its state off the lines it got and the remainder. *)
Lemma drain_split_chunks (chunks : list Buffer) :
  Driver.drain chunks
  = let '(all, rem) := split_chunks [] chunks in
    driver_of all rem (Z.of_nat (length chunks)).
Proof.
  unfold Driver.drain. change Driver.init with (driver_of [] [] 0).
  rewrite fold_step_driver_of. destruct (split_chunks [] chunks). reflexivity.
Qed.

(** Chunk-size invariance where it holds: two ways of cutting the same bytes
    give the same records when neither hands the splitter a buffer that it
    takes for a whole line. *)
Lemma smooth_chunkings_agree (chunks1 chunks2 : list Buffer) :
  concat chunks1 = concat chunks2 ->
  smooth [] chunks1 = true -> smooth [] chunks2 = true ->
  records chunks1 = records chunks2.
Proof.
  intros Hsame Hs1 Hs2.
  pose proof (split_chunks_smooth chunks1 []) as H1.
  pose proof (split_chunks_smooth chunks2 []) as H2.
  cbn [scan scan_from app] in H1, H2. specialize (H1 Hs1). specialize (H2 Hs2).
  rewrite <- Hsame in H2. fold (scan (concat chunks1)) in H1, H2.
  destruct (scan (concat chunks1)) as [[l r] q].
  destruct H1 as [l1 [-> E1]]. destruct H2 as [l2 [El E2]].
  cbn [app] in El. subst l2.
  unfold records, parseAndLogCsv. rewrite !drain_split_chunks, E1, E2.
  unfold Driver.finish.
  destruct (map toString l1) as [|first data];
    cbn [driver_of Driver.remainderBuffer Driver.logged Driver.headers];
    destruct (0 <? len r); reflexivity.
Qed.

Example smooth_chunkings_agree_example :
  records [bytes "a,b" ++ [LF] ++ bytes "1"; bytes ",2" ++ [LF]]
  = records [bytes "a,b" ++ [LF] ++ bytes "1,2" ++ [LF]].
Proof. apply smooth_chunkings_agree; reflexivity. Qed.

(** C1: the same bytes in one chunk and cut after the first byte give
    different records.  The first chunk holds no line feed and no quote, so
    the closing [if] of [splitLinesFromBuffer] takes it for a whole line and
    the header is read from a part of the header line. *)
Theorem chunk_boundary_changes_records :
  let whole := bytes "a,b" ++ [LF] ++ bytes "1,2" ++ [LF] in
  let chunks := [bytes "a"; bytes ",b" ++ [LF] ++ bytes "1,2" ++ [LF]] in
  concat chunks = whole /\
  records [whole] = [LogRow [("a", "1"); ("b", "2")]%string] /\
  records chunks = [LogRow [("a"%string, EmptyString)]; LogRow [("a", "1")]%string] /\
  records chunks <> records [whole].
Proof.
  intros whole chunks.
  assert (H1 : records [whole] = [LogRow [("a", "1"); ("b", "2")]%string])
    by reflexivity.
  assert (H2 : records chunks
               = [LogRow [("a"%string, EmptyString)]; LogRow [("a", "1")]%string])
    by reflexivity.
  split; [reflexivity|]. split; [exact H1|]. split; [exact H2|].
  rewrite H1, H2. discriminate.
Qed.

(** C2: after the chunk [a] the driver carries nothing, although the stream
    read so far holds no line feed and its open line is [a]; the bytes of the
    one line [ab] leave the splitter as the two lines [a] and [b]. *)
Theorem remainder_not_at_line_start :
  let st := Driver.drain [bytes "a"] in
  splitLinesFromBuffer (bytes "a") = {| lines := ["a"%string]; remainder := [] |} /\
  Driver.remainderBuffer st = [] /\
  Scan.lastNewLinePos (Scan.run (bytes "a")) = -1 /\
  open_line (bytes "a") = bytes "a" /\
  ~ remainder_at_line_start (bytes "a") (Driver.remainderBuffer st) /\
  lines (splitLinesFromBuffer (Driver.remainderBuffer st ++ bytes "b" ++ [LF]))
  = ["b"%string] /\
  lines (splitLinesFromBuffer (bytes "ab" ++ [LF])) = ["ab"%string].
Proof. repeat split. discriminate. Qed.

(** C3: a stream that ends inside a quoted field.  The step after the loop
    splits the remainder once more, the scan ends with the flag on, so no line
    comes back and the last row is not processed.  (With the closing quote
    the same bytes are a row.) *)
Theorem open_quote_at_end_drops_last_row :
  let chunk := bytes "h" ++ [LF] ++ [QUOTE_CHAR_CODE] ++ bytes "abc" in
  Driver.remainderBuffer (Driver.drain [chunk]) = [QUOTE_CHAR_CODE] ++ bytes "abc" /\
  Scan.inQuotes (Scan.run ([QUOTE_CHAR_CODE] ++ bytes "abc")) = true /\
  lines (splitLinesFromBuffer ([QUOTE_CHAR_CODE] ++ bytes "abc")) = [] /\
  Driver.headers (parseAndLogCsv [chunk]) = ["h"%string] /\
  records [chunk] = [] /\
  records [chunk ++ [QUOTE_CHAR_CODE]] = [LogRow [("h", "abc")]%string].
Proof. repeat split. Qed.

(** The same for every stream: when the scan of the last buffer ends with the
    flag on, the step after the loop adds no record. *)
Lemma open_quote_at_end_adds_nothing (cs : list Buffer) (c : Buffer) :
  Scan.inQuotes (Scan.run (Driver.remainderBuffer (Driver.drain cs) ++ c)) = true ->
  records (cs ++ [c]) = Driver.logged (Driver.drain (cs ++ [c])).
Proof.
  intros Hq. rewrite run_inQuotes in Hq.
  unfold records, parseAndLogCsv. apply finish_logged_nil.
  rewrite drain_snoc, step_remainder.
  destruct (remainder_scan (Driver.remainderBuffer (Driver.drain cs) ++ c)) as [H | H];
    rewrite H; [reflexivity|].
  pose proof (split_remainder (Driver.remainderBuffer (Driver.drain cs) ++ c)) as Hs.
  destruct (scan (Driver.remainderBuffer (Driver.drain cs) ++ c)) as [[l r] q].
  cbn [fst snd] in *. rewrite Hs, Hq. reflexivity.
Qed.

(** The flag can be on at the end of a stream whose quotes are all closed:
    the splitter steps over the second quote of an empty quoted field and so
    counts the pair as one quote. *)
Example empty_quoted_field_leaves_flag_on :
  let chunk := bytes "h,k" ++ [LF] ++ bytes "1,"
               ++ [QUOTE_CHAR_CODE; QUOTE_CHAR_CODE] ++ [LF] in
  Scan.inQuotes (Scan.run chunk) = true /\ records [chunk] = [].
Proof. split; reflexivity. Qed.

(** C4: a row with a quoted field that holds a line feed, delivered in a
    chunk of its own up to the closing quote: that chunk has its quotes
    balanced and no line feed outside them, so it is taken for a whole line,
    and the row yields two records. *)
Theorem quoted_newline_row_split_in_two :
  let field := [QUOTE_CHAR_CODE] ++ bytes "a" ++ [LF] ++ bytes "b" ++ [QUOTE_CHAR_CODE] in
  let whole := bytes "h,k" ++ [LF] ++ field ++ bytes ",c" ++ [LF] in
  let chunks := [bytes "h,k" ++ [LF]; field; bytes ",c" ++ [LF]] in
  let a_lf_b := ("a" ++ String NEWLINE "b")%string in
  concat chunks = whole /\
  records [whole] = [LogRow [("h"%string, a_lf_b); ("k", "c")%string]] /\
  records chunks = [LogRow [("h"%string, a_lf_b)];
                    LogRow [("h"%string, EmptyString); ("k", "c")%string]] /\
  records chunks <> records [whole].
Proof.
  intros field whole chunks a_lf_b.
  assert (H1 : records [whole] = [LogRow [("h"%string, a_lf_b); ("k", "c")%string]])
    by reflexivity.
  assert (H2 : records chunks
               = [LogRow [("h"%string, a_lf_b)];
                  LogRow [("h"%string, EmptyString); ("k", "c")%string]])
    by reflexivity.
  split; [reflexivity|]. split; [exact H1|]. split; [exact H2|].
  rewrite H1, H2. discriminate.
Qed.

(** * Further properties of the parser *)

(** ** The tokenizer and the text of a line *)

(** X1: joining the fields of a line with the delimiter gives the line back
    without its quote characters: the tokenizer drops quotes and nothing
    else, and a line without quotes is split and joined without loss. *)
Theorem fields_joined_are_the_line_without_quotes (line : string) :
  join (parseCsvLine line) = remove_quotes line.
Proof. unfold parseCsvLine. rewrite join_loop. reflexivity. Qed.

Lemma loop_values_prefix : forall line pre values current inQ,
  parseCsvLine_loop line (pre ++ values) current inQ
  = pre ++ parseCsvLine_loop line values current inQ.
Proof.
  induction line as [|char rest IH]; intros pre values current inQ.
  - cbn. now rewrite app_assoc.
  - cbn [parseCsvLine_loop].
    destruct (Ascii.eqb char QUOTE); [apply IH|].
    destruct (Ascii.eqb char DELIMITER && negb inQ); [|apply IH].
    rewrite <- app_assoc. apply IH.
Qed.

(** Outside quotes a text without quotes and delimiters is appended to the
    field being read. *)
Lemma loop_plain_field : forall field rest values current,
  plain_field field = true ->
  parseCsvLine_loop (field ++ rest) values current false
  = parseCsvLine_loop rest values (current ++ field) false.
Proof.
  induction field as [|char field IH]; intros rest values current Hplain.
  - cbn [append]. now rewrite append_empty_r.
  - unfold plain_field in *. cbn [contains] in Hplain.
    apply andb_prop in Hplain. destruct Hplain as [Hq Hd].
    apply negb_true_iff, orb_false_elim in Hq. destruct Hq as [Hq Hq'].
    apply negb_true_iff, orb_false_elim in Hd. destruct Hd as [Hd Hd'].
    cbn [append parseCsvLine_loop]. rewrite Hq, Hd. cbn [andb].
    rewrite IH by (now rewrite Hq', Hd'). rewrite append_assoc. reflexivity.
Qed.

Lemma loop_delimiter (rest : string) values current :
  parseCsvLine_loop (String DELIMITER rest) values current false
  = parseCsvLine_loop rest (values ++ [current]) EmptyString false.
Proof. reflexivity. Qed.

Lemma join_cons (field f : string) (fields : list string) :
  join (field :: f :: fields)
  = (field ++ String DELIMITER (join (f :: fields)))%string.
Proof. reflexivity. Qed.

Lemma parse_join_from : forall fields field values,
  forallb plain_field (field :: fields) = true ->
  parseCsvLine_loop (join (field :: fields)) values EmptyString false
  = values ++ field :: fields.
Proof.
  induction fields as [|f fields IH]; intros field values Hall.
  - cbn [forallb] in Hall. rewrite andb_true_r in Hall.
    change (join [field]) with field.
    rewrite <- (append_empty_r field) at 1.
    rewrite loop_plain_field by exact Hall. reflexivity.
  - cbn [forallb] in Hall. apply andb_prop in Hall. destruct Hall as [Hf Hall].
    rewrite join_cons, loop_plain_field by exact Hf.
    rewrite loop_delimiter. cbn [append].
    rewrite IH by exact Hall. rewrite <- app_assoc. reflexivity.
Qed.

(** X2: a list of fields that hold no quote and no delimiter survives being
    joined and tokenized: the tokenizer gives back exactly these fields.  (The
    list is not empty: the join of no field is the empty line, which has one
    field.) *)
Theorem joined_fields_are_read_back (fields : list string) :
  fields <> [] ->
  forallb plain_field fields = true ->
  parseCsvLine (join fields) = fields.
Proof.
  intros Hne Hall. destruct fields as [|field fields]; [congruence|].
  unfold parseCsvLine. now rewrite parse_join_from.
Qed.

Lemma joined_fields_are_read_back_witness :
  parseCsvLine (join ["Ann"; EmptyString; "2 Main St"]%string)
  = ["Ann"; EmptyString; "2 Main St"]%string.
Proof.
  assert (Hne : ["Ann"; EmptyString; "2 Main St"]%string <> []) by discriminate.
  exact (joined_fields_are_read_back ["Ann"; EmptyString; "2 Main St"]%string Hne eq_refl).
Defined.

Lemma loop_split_at_delimiter : forall a rest values current,
  quote_free a = true ->
  parseCsvLine_loop (a ++ String DELIMITER rest) values current false
  = parseCsvLine_loop rest (parseCsvLine_loop a values current false) EmptyString false.
Proof.
  induction a as [|char a IH]; intros rest values current Hfree; [reflexivity|].
  unfold quote_free in *. cbn [contains] in Hfree.
  apply negb_true_iff, orb_false_elim in Hfree. destruct Hfree as [Hq Hfree].
  cbn [append parseCsvLine_loop]. rewrite Hq.
  destruct (Ascii.eqb char DELIMITER && negb false); apply IH; now rewrite Hfree.
Qed.

Lemma parse_after_delimiter (a rest : string) :
  quote_free a = true ->
  parseCsvLine (a ++ String DELIMITER rest) = parseCsvLine a ++ parseCsvLine rest.
Proof.
  intros Hfree. unfold parseCsvLine. rewrite loop_split_at_delimiter by exact Hfree.
  rewrite <- (app_nil_r (parseCsvLine_loop a [] EmptyString false)) at 1.
  apply loop_values_prefix.
Qed.

Lemma parse_quoted_first (body rest : string) :
  quote_free body = true ->
  parseCsvLine (String QUOTE (body ++ String QUOTE (String DELIMITER rest)))
  = body :: parseCsvLine rest /\
  parseCsvLine (String QUOTE (body ++ String QUOTE EmptyString)) = [body].
Proof.
  intros Hfree. unfold parseCsvLine.
  rewrite !quoted_section_kept_verbatim by exact Hfree.
  split; [|reflexivity]. rewrite loop_delimiter. cbn [append app].
  apply (loop_values_prefix rest [body] []).
Qed.

(** X3: a delimiter outside quotes separates, and a quoted field is read as
    one field with its content as it is, whatever it holds but a quote:
    delimiters, carriage returns, line feeds.  For a text [a] without quotes,
    the fields of [a], a delimiter and more text are the fields of [a]
    followed by those of the rest; when the rest starts with a quoted field,
    that field is its content. *)
Theorem quoted_field_is_kept_verbatim (a : string) :
  quote_free a = true ->
  (forall b, parseCsvLine (a ++ String DELIMITER b) = parseCsvLine a ++ parseCsvLine b) /\
  (forall body b, quote_free body = true ->
     parseCsvLine (a ++ String DELIMITER
                     (String QUOTE (body ++ String QUOTE (String DELIMITER b))))
     = parseCsvLine a ++ body :: parseCsvLine b) /\
  (forall body, quote_free body = true ->
     parseCsvLine (a ++ String DELIMITER (String QUOTE (body ++ String QUOTE EmptyString)))
     = parseCsvLine a ++ [body]).
Proof.
  intros Hfree. split; [|split].
  - intros b. now apply parse_after_delimiter.
  - intros body b Hbody. rewrite parse_after_delimiter by exact Hfree.
    now rewrite (proj1 (parse_quoted_first body b Hbody)).
  - intros body Hbody. rewrite parse_after_delimiter by exact Hfree.
    now rewrite (proj2 (parse_quoted_first body EmptyString Hbody)).
Qed.

Lemma quoted_field_is_kept_verbatim_witness :
  parseCsvLine ("Ann,30" ++ String DELIMITER
                  (String QUOTE (("2 Main St, Apt 4" ++ String NEWLINE "Springfield")
                                 ++ String QUOTE (String DELIMITER "555"))))
  = parseCsvLine "Ann,30"
    ++ ("2 Main St, Apt 4" ++ String NEWLINE "Springfield")%string :: parseCsvLine "555".
Proof.
  exact (proj1 (proj2 (quoted_field_is_kept_verbatim "Ann,30" eq_refl))
           ("2 Main St, Apt 4" ++ String NEWLINE "Springfield")%string "555"%string
           eq_refl).
Defined.

(** ** The splitter loses no byte *)

Lemma scan_from_reassembles : forall rest inQ cur acc,
  let '(acc', cur', _) := scan_from inQ cur acc rest in
  exists closed : list (Buffer * Buffer),
    acc' = acc ++ map fst closed /\
    Forall (fun p => snd p = [LF] \/ snd p = [CR; LF]) closed /\
    cur ++ rest = concat (map (fun p => fst p ++ snd p) closed) ++ cur'.
Proof.
  apply scan_cases.
  - intros inQ cur acc. cbn [scan_from]. exists []. cbn. rewrite !app_nil_r. auto.
  - intros inQ cur acc b Hq. rewrite scan_quote_last by assumption.
    exists []. cbn. rewrite app_nil_r. auto.
  - intros inQ cur acc b b' r Hq Hq' IH. rewrite scan_quote_pair by assumption.
    destruct (scan_from (negb inQ) (cur ++ [b; b']) acc r) as [[acc' cur'] q'].
    destruct IH as (closed & Hacc & Heol & Hcat). exists closed.
    rewrite <- Hcat, <- app_assoc. auto.
  - intros inQ cur acc b b' r Hq Hq' IH. rewrite scan_quote by assumption.
    destruct (scan_from (negb inQ) (cur ++ [b]) acc (b' :: r)) as [[acc' cur'] q'].
    destruct IH as (closed & Hacc & Heol & Hcat). exists closed.
    rewrite <- Hcat, <- app_assoc. auto.
  - intros cur acc r IH. rewrite scan_newline.
    destruct (scan_from false [] (acc ++ [chompCR cur]) r) as [[acc' cur'] q'].
    destruct IH as (closed & Hacc & Heol & Hcat).
    exists ((chompCR cur, eol_of cur) :: closed). cbn [map fst snd concat].
    split; [rewrite Hacc, <- app_assoc; reflexivity|]. split.
    + constructor; [|exact Heol]. cbn [snd]. unfold eol_of.
      destruct (is_code (last_byte cur) CR); auto.
    + cbn [app] in Hcat. rewrite chomp_eol, <- !app_assoc, <- Hcat. reflexivity.
  - intros inQ cur acc b r Hq Hnl IH. rewrite scan_other by assumption.
    destruct (scan_from inQ (cur ++ [b]) acc r) as [[acc' cur'] q'].
    destruct IH as (closed & Hacc & Heol & Hcat). exists closed.
    rewrite <- Hcat, <- app_assoc. auto.
Qed.

Lemma taken_whole_scan (buffer : Buffer) :
  taken_whole buffer
  = let '(l, _, q) := scan buffer in
    match l with [] => negb q && (0 <? len buffer) | _ :: _ => false end.
Proof.
  unfold taken_whole. pose proof (run_scan buffer) as Hrun.
  pose proof (scan_shape buffer) as Hshape.
  destruct (scan buffer) as [[l r] q]. rewrite Hrun. scan_proj.
  destruct Hshape as [[-> ->] | [Hne [p ->]]].
  - rewrite Z.sub_diag. reflexivity.
  - destruct l as [|l0 l]; [congruence|].
    pose proof (len_nonneg p). pose proof (len_nonneg r).
    rewrite len_app, len_cons.
    destruct (Z.eqb_spec (len p + (1 + len r) - len r - 1) (-1)); [lia | reflexivity].
Qed.

(** X4: the splitter loses no byte and invents none: the buffer is the lines
    it returns, each followed by its terminator (a line feed, or a carriage
    return and a line feed; nothing after a buffer taken whole), followed by
    the remainder, in this order. *)
Theorem split_reassembles_buffer (buffer : Buffer) :
  exists closed : list (Buffer * Buffer),
    lines (splitLinesFromBuffer buffer) = map (fun p => toString (fst p)) closed /\
    Forall (fun p => terminator_of buffer (snd p)) closed /\
    concat (map (fun p => fst p ++ snd p) closed)
    ++ remainder (splitLinesFromBuffer buffer) = buffer.
Proof.
  destruct (taken_whole buffer) eqn:Hwhole.
  - exists [(buffer, [])]. pose proof Hwhole as Hw.
    rewrite taken_whole_scan in Hw. rewrite splitLinesFromBuffer_scan.
    unfold finalize. destruct (scan buffer) as [[[|l0 l] r] q]; [|discriminate].
    rewrite Hw. cbn [lines remainder map fst snd concat app]. rewrite !app_nil_r.
    split; [reflexivity|]. split; [|reflexivity].
    constructor; [|constructor]. cbn [snd]. unfold terminator_of. auto.
  - rewrite (split_not_taken_whole _ Hwhole).
    pose proof (scan_from_reassembles buffer false [] []) as H. unfold scan.
    destruct (scan_from false [] [] buffer) as [[l r] q].
    destruct H as (closed & -> & Heol & Hcat). exists closed.
    cbn [lines remainder app] in *. rewrite map_map. split; [reflexivity|].
    split; [|now rewrite <- Hcat].
    eapply Forall_impl; [|exact Heol]. intros p [H|H]; unfold terminator_of; auto.
Qed.

(** ** What the driver carries *)

(** X5: what the splitter hands back as remainder holds no line end of its
    own: split again, it closes no line, and comes back either unchanged, or,
    when it is taken whole (not empty, scan ending outside quotes), as one
    line.  So the step after the loop of the driver yields at most one
    line. *)
Theorem remainder_closes_no_line (buffer : Buffer) :
  let r := remainder (splitLinesFromBuffer buffer) in
  splitLinesFromBuffer r
  = (if taken_whole r
     then {| lines := [toString r]; remainder := [] |}
     else {| lines := []; remainder := r |}) /\
  (length (lines (splitLinesFromBuffer r)) <= 1)%nat.
Proof.
  intros r.
  assert (H : splitLinesFromBuffer r
              = if taken_whole r
                then {| lines := [toString r]; remainder := [] |}
                else {| lines := []; remainder := r |}).
  { subst r. destruct (remainder_scan buffer) as [H | H]; rewrite H; [reflexivity|].
    pose proof (scan_remainder buffer) as Hr.
    destruct (scan buffer) as [[l r] q]. cbn [fst snd].
    rewrite splitLinesFromBuffer_scan, taken_whole_scan, Hr. unfold finalize.
    destruct (negb q && (0 <? len r)); reflexivity. }
  split; [exact H|]. rewrite H. destruct (taken_whole r); cbn; lia.
Qed.

Lemma drain_smooth (chunks : list Buffer) :
  smooth [] chunks = true ->
  Driver.drain chunks
  = driver_of (Scan.lines (Scan.run (concat chunks))) (open_line (concat chunks))
      (Z.of_nat (length chunks)).
Proof.
  intros Hs. rewrite drain_split_chunks, open_line_scan.
  pose proof (split_chunks_smooth chunks []) as H.
  cbn [scan scan_from app] in H. specialize (H Hs). fold (scan (concat chunks)) in H.
  pose proof (run_scan (concat chunks)) as Hrun.
  destruct (scan (concat chunks)) as [[l r] q]. rewrite Hrun. scan_proj. cbn [fst snd].
  destruct H as [l1 [-> ->]]. reflexivity.
Qed.

(** Where no buffer is taken for a whole line, a stream that ends in a line
    feed outside quotes gets no extra record: nothing is left to carry, the
    step after the loop is skipped, and the records are those of the lines of
    one scan of the stream after its first. *)
Lemma trailing_line_feed_smooth (chunks : list Buffer) (stream : Buffer) :
  concat chunks = stream ++ [LF] -> smooth [] chunks = true ->
  Scan.inQuotes (Scan.run (stream ++ [LF])) = false ->
  Driver.remainderBuffer (Driver.drain chunks) = [] /\
  parseAndLogCsv chunks = Driver.drain chunks /\
  records chunks
  = match Scan.lines (Scan.run (stream ++ [LF])) with
    | [] => []
    | first :: data => processBlockOfLines data (parseCsvLine first)
    end.
Proof.
  intros Hcat Hs Hq.
  assert (Hopen : open_line (stream ++ [LF]) = []).
  { rewrite open_line_scan. rewrite run_inQuotes in Hq.
    pose proof (scan_from_trailing_lf stream false [] []) as Ht. unfold scan in *.
    destruct (scan_from false [] [] (stream ++ [LF])) as [[l r] q]. cbn [fst snd] in *.
    auto. }
  assert (Hrem : Driver.remainderBuffer (Driver.drain chunks) = []).
  { rewrite (drain_smooth chunks Hs), Hcat, Hopen.
    now destruct (Scan.lines (Scan.run (stream ++ [LF]))). }
  assert (Hfin : parseAndLogCsv chunks = Driver.drain chunks).
  { unfold parseAndLogCsv, Driver.finish. now rewrite Hrem. }
  split; [exact Hrem|]. split; [exact Hfin|].
  unfold records. rewrite Hfin, (drain_smooth chunks Hs), Hcat.
  now destruct (Scan.lines (Scan.run (stream ++ [LF]))).
Qed.

(** X6: as long as no buffer is taken for a whole line, the chunk boundaries
    leave no trace in the driver: after the chunks its header is the first
    line of a single scan of the whole stream, its records are those of the
    other lines of that scan, in order, and the remainder it carries is the
    open line of the stream, the bytes after the last line feed outside
    quotes. *)
Theorem driver_state_of_whole_stream (chunks : list Buffer) :
  smooth [] chunks = true ->
  let stream := concat chunks in
  let st := Driver.drain chunks in
  Driver.remainderBuffer st = open_line stream /\
  match Scan.lines (Scan.run stream) with
  | [] => Driver.headers st = [] /\ Driver.logged st = [] /\ Driver.isFirstChunk st = true
  | first :: data =>
      Driver.headers st = parseCsvLine first /\
      Driver.logged st = processBlockOfLines data (parseCsvLine first) /\
      Driver.isFirstChunk st = false
  end.
Proof.
  intros Hs stream st. subst st stream. rewrite (drain_smooth chunks Hs).
  destruct (Scan.lines (Scan.run (concat chunks))); cbn; auto.
Qed.

Lemma driver_state_of_whole_stream_witness :
  Driver.remainderBuffer
    (Driver.drain [bytes "a,b" ++ [LF] ++ bytes "1"; bytes ",2" ++ [LF] ++ bytes "3"])
  = open_line (concat [bytes "a,b" ++ [LF] ++ bytes "1"; bytes ",2" ++ [LF] ++ bytes "3"]).
Proof.
  assert (Hs : smooth [] [bytes "a,b" ++ [LF] ++ bytes "1"; bytes ",2" ++ [LF] ++ bytes "3"]
               = true) by (vm_compute; reflexivity).
  destruct (driver_state_of_whole_stream _ Hs) as [W _]. exact W.
Defined.

(** X7: chunk-size invariance where the code has it: two ways of cutting the
    same bytes into chunks give the same records, in the same order, when
    neither hands the splitter a buffer that it takes for a whole line (a
    buffer that is not empty, holds no line feed outside quotes and ends
    outside quotes). *)
Theorem chunkings_agree_unless_taken_whole (chunks1 chunks2 : list Buffer) :
  concat chunks1 = concat chunks2 ->
  smooth [] chunks1 = true -> smooth [] chunks2 = true ->
  records chunks1 = records chunks2.
Proof. apply smooth_chunkings_agree. Qed.

Lemma chunkings_agree_unless_taken_whole_witness :
  records [bytes "a,b" ++ [LF; QUOTE_CHAR_CODE] ++ bytes "x";
           [LF] ++ bytes "y" ++ [QUOTE_CHAR_CODE] ++ bytes ",2" ++ [LF]]
  = records [bytes "a,b" ++ [LF; QUOTE_CHAR_CODE] ++ bytes "x" ++ [LF] ++ bytes "y";
             [QUOTE_CHAR_CODE] ++ bytes ",2" ++ [LF]].
Proof.
  apply chunkings_agree_unless_taken_whole; vm_compute; reflexivity.
Defined.

(** X8: a stream that ends inside quotes, as the splitter counts them, loses
    its last line: when the scan of the last buffer ends with the flag on,
    the step after the loop adds no record, and the bytes after the last
    closed line are dropped. *)
Theorem open_flag_at_end_drops_the_rest (cs : list Buffer) (c : Buffer) :
  Scan.inQuotes (Scan.run (Driver.remainderBuffer (Driver.drain cs) ++ c)) = true ->
  records (cs ++ [c]) = Driver.logged (Driver.drain (cs ++ [c])) /\
  lines (splitLinesFromBuffer (Driver.remainderBuffer (Driver.drain (cs ++ [c])))) = [].
Proof.
  intros Hq. split; [now apply open_quote_at_end_adds_nothing|].
  rewrite run_inQuotes in Hq. rewrite drain_snoc, step_remainder.
  destruct (remainder_scan (Driver.remainderBuffer (Driver.drain cs) ++ c)) as [H | H];
    rewrite H; [reflexivity|].
  pose proof (split_remainder (Driver.remainderBuffer (Driver.drain cs) ++ c)) as Hs.
  destruct (scan (Driver.remainderBuffer (Driver.drain cs) ++ c)) as [[l r] q].
  cbn [fst snd] in *. rewrite Hs, Hq. reflexivity.
Qed.

Lemma open_flag_at_end_drops_the_rest_witness :
  records ([bytes "h" ++ [LF]] ++ [bytes "1" ++ [LF; QUOTE_CHAR_CODE] ++ bytes "2"])
  = Driver.logged
      (Driver.drain ([bytes "h" ++ [LF]] ++ [bytes "1" ++ [LF; QUOTE_CHAR_CODE] ++ bytes "2"])).
Proof.
  assert (Hq : Scan.inQuotes
                 (Scan.run (Driver.remainderBuffer (Driver.drain [bytes "h" ++ [LF]])
                            ++ bytes "1" ++ [LF; QUOTE_CHAR_CODE] ++ bytes "2")) = true)
    by (vm_compute; reflexivity).
  destruct (open_flag_at_end_drops_the_rest _ _ Hq) as [W _]. exact W.
Defined.

(** ** The header and the records *)

(** X9: over the whole stream, whatever the chunks: the header is read from
    the first line that the splitter returns and never changes, every later
    line gives exactly one output, in order, and the counter counts the
    chunks. *)
Theorem header_is_first_line (chunks : list Buffer) :
  let st := Driver.drain chunks in
  let all := fst (split_chunks [] chunks) in
  Driver.remainderBuffer st = snd (split_chunks [] chunks) /\
  Driver.chunksCount st = Z.of_nat (length chunks) /\
  Driver.headers st = match all with [] => [] | first :: _ => parseCsvLine first end /\
  Driver.logged st = map (processLine (Driver.headers st)) (tl all) /\
  length (Driver.logged st) = pred (length all) /\
  Driver.isFirstChunk st = match all with [] => true | _ :: _ => false end.
Proof.
  intros st all. subst st all. rewrite drain_split_chunks.
  destruct (split_chunks [] chunks) as [[|first data] rem]; cbn [fst snd driver_of
    Driver.remainderBuffer Driver.chunksCount Driver.headers Driver.logged
    Driver.isFirstChunk tl length pred]; repeat split.
  unfold processBlockOfLines. apply length_map.
Qed.

Lemma split_no_line_remainder (buffer : Buffer) :
  lines (splitLinesFromBuffer buffer) = [] ->
  remainder (splitLinesFromBuffer buffer) = buffer.
Proof.
  rewrite splitLinesFromBuffer_scan. unfold finalize.
  pose proof (scan_shape buffer) as Hshape.
  destruct (scan buffer) as [[[|l0 l] r] q]; [|discriminate].
  destruct Hshape as [[_ ->] | [Hne _]]; [|congruence].
  destruct (negb q && (0 <? len buffer)); [discriminate | reflexivity].
Qed.

Lemma split_chunks_no_line : forall chunks carried rem,
  lines (splitLinesFromBuffer carried) = [] ->
  split_chunks carried chunks = ([], rem) ->
  lines (splitLinesFromBuffer rem) = [].
Proof.
  induction chunks as [|c cs IH]; intros carried rem Hcar Hsplit.
  - cbn in Hsplit. congruence.
  - cbn [split_chunks] in Hsplit.
    destruct (split_chunks (remainder (splitLinesFromBuffer (carried ++ c))) cs)
      as [ls rem'] eqn:E.
    injection Hsplit as Hl ->. apply app_eq_nil in Hl. destruct Hl as [Hl ->].
    apply (IH _ _ (eq_trans (f_equal (fun b => lines (splitLinesFromBuffer b))
                               (split_no_line_remainder _ Hl)) Hl) E).
Qed.

Lemma records_are_rows (chunks : list Buffer) :
  forallb is_row (records chunks) = true.
Proof.
  unfold records, parseAndLogCsv. rewrite drain_split_chunks.
  destruct (split_chunks [] chunks) as [all rem] eqn:E.
  assert (Hrows : forall first ls,
            forallb is_row (processBlockOfLines ls (parseCsvLine first)) = true).
  { intros first ls. unfold processBlockOfLines, processLine.
    pose proof (parseCsvLine_nonempty first) as Hne.
    destruct (parseCsvLine first) as [|h hs]; [congruence|].
    cbn [length]. destruct (Z.ltb_spec 0 (Z.of_nat (S (length hs)))); [|lia].
    induction ls; cbn; auto. }
  unfold Driver.finish. destruct all as [|first data];
    cbn [driver_of Driver.remainderBuffer Driver.logged Driver.headers].
  - rewrite (split_chunks_no_line chunks [] rem eq_refl E).
    destruct (0 <? len rem); reflexivity.
  - destruct (0 <? len rem); cbn [Driver.logged]; [|apply Hrows].
    unfold processBlockOfLines in *. rewrite <- map_app. apply Hrows.
Qed.

(** X10: every output of the plain parser is a record: a line is processed
    only after a header was read, and a header has at least one name, so the
    branch of [processBlockOfLines] that prints the bare values is never
    taken by the driver. *)
Theorem plain_parser_prints_only_records (chunks : list Buffer) :
  forallb is_row (records chunks) = true.
Proof. apply records_are_rows. Qed.

(** ** Looking up a property *)

Lemma get_app {V : Type} (a b : Obj.t V) (key : string) :
  Obj.get (a ++ b) key
  = match Obj.get a key with Some v => Some v | None => Obj.get b key end.
Proof.
  induction a as [|[k v] a IH]; [reflexivity|]. cbn.
  destruct (String.eqb k key); [reflexivity | exact IH].
Qed.

Lemma get_update {V : Type} (o : Obj.t V) (key : string) (v : V) (key' : string) :
  Obj.has o key = true ->
  Obj.get (Obj.update o key v) key'
  = if String.eqb key key' then Some v else Obj.get o key'.
Proof.
  unfold Obj.has. induction o as [|[k w] o IH]; [discriminate|].
  cbn [Obj.get Obj.update]. destruct (String.eqb_spec k key) as [->|Hk].
  - intros _. cbn [Obj.get]. destruct (String.eqb key key'); reflexivity.
  - intros H. cbn [Obj.get]. rewrite IH by exact H.
    destruct (String.eqb_spec k key') as [->|]; [|reflexivity].
    destruct (String.eqb_spec key key'); [congruence | reflexivity].
Qed.

Lemma get_insert_index {V : Type} (o : Obj.t V) (n : N) (key : string) (v : V)
    (key' : string) :
  Obj.get o key = None ->
  Obj.get (Obj.insert_index o n key v) key'
  = if String.eqb key key' then Some v else Obj.get o key'.
Proof.
  induction o as [|[k w] o IH]; intros Hnone; [reflexivity|].
  cbn [Obj.get] in Hnone. destruct (String.eqb_spec k key) as [|Hk]; [discriminate|].
  cbn [Obj.insert_index].
  destruct (Obj.array_index k) as [m|]; [destruct (m <? n)%N|]; try reflexivity.
  cbn [Obj.get]. rewrite IH by exact Hnone.
  destruct (String.eqb_spec k key') as [->|]; [|reflexivity].
  destruct (String.eqb_spec key key'); [congruence | reflexivity].
Qed.

Lemma get_define {V : Type} (o : Obj.t V) (key : string) (v : V) (key' : string) :
  Obj.get (Obj.define o key v) key'
  = if String.eqb key key' then Some v else Obj.get o key'.
Proof.
  unfold Obj.define. destruct (Obj.has o key) eqn:Hhas; [now apply get_update|].
  assert (Hnone : Obj.get o key = None).
  { unfold Obj.has in Hhas. destruct (Obj.get o key); [discriminate | reflexivity]. }
  destruct (Obj.array_index key); [now apply get_insert_index|].
  rewrite get_app. cbn [Obj.get]. destruct (Obj.get o key') eqn:E; [|reflexivity].
  destruct (String.eqb_spec key key'); [congruence | reflexivity].
Qed.

Lemma get_spread {V : Type} : forall (src o : Obj.t V) (key : string),
  Obj.get (Obj.spread o src) key
  = match last_value src key with Some v => Some v | None => Obj.get o key end.
Proof.
  unfold Obj.spread, last_value.
  induction src as [|[k v] src IH]; intros o key; [reflexivity|].
  cbn [fold_left fst snd rev]. rewrite IH, get_app, get_define. cbn [Obj.get].
  destruct (Obj.get (rev src) key); [reflexivity|].
  destruct (String.eqb k key); reflexivity.
Qed.

Lemma get_set {V : Type} (o : Obj.t V) (key : string) (v : V) (key' : string) :
  Obj.get (Obj.set o key v) key'
  = if String.eqb key Obj.proto then Obj.get o key'
    else if String.eqb key key' then Some v else Obj.get o key'.
Proof.
  unfold Obj.set. destruct (String.eqb key Obj.proto); [reflexivity | apply get_define].
Qed.

Lemma get_forEach_header : forall headers index values row key,
  Obj.get (forEach_header headers index values row) key
  = if String.eqb key Obj.proto then Obj.get row key
    else match last_value (combine headers (skipn index values)) key with
         | Some v => Some v
         | None => Obj.get row key
         end.
Proof.
  unfold last_value.
  induction headers as [|header rest IH]; intros index values row key.
  - cbn. now destruct (String.eqb key Obj.proto).
  - cbn [forEach_header]. rewrite IH.
    destruct (nth_error values index) as [v|] eqn:Hnth.
    + rewrite (skipn_nth_error _ _ _ Hnth). cbn [combine rev].
      rewrite get_app, get_set. cbn [Obj.get].
      destruct (String.eqb_spec key Obj.proto) as [->|Hkey].
      * destruct (String.eqb header Obj.proto); [reflexivity|].
        destruct (String.eqb_spec header Obj.proto); reflexivity.
      * destruct (Obj.get (rev (combine rest (skipn (S index) values))) key);
          [reflexivity|].
        destruct (String.eqb_spec header Obj.proto) as [->|Hh].
        -- destruct (String.eqb_spec Obj.proto key); [congruence | reflexivity].
        -- destruct (String.eqb header key); reflexivity.
    + apply nth_error_None in Hnth. rewrite !skipn_all2 by lia.
      rewrite !combine_nil. reflexivity.
Qed.

Lemma in_keys_combine : forall (H F : list string) (h : string),
  In h (map fst (combine H F)) ->
  exists j, nth_error H j = Some h /\ (j < length F)%nat.
Proof.
  induction H as [|h0 H IH]; intros [|f0 F] h Hin; cbn in Hin; try tauto.
  destruct Hin as [<-|Hin].
  - exists 0%nat. cbn. split; [reflexivity | lia].
  - destruct (IH F h Hin) as [j [Hj Hlt]]. exists (S j). cbn. split; [exact Hj | lia].
Qed.

Lemma last_value_combine : forall (H F : list string) (i : nat) (h f : string),
  nth_error H i = Some h -> nth_error F i = Some f ->
  (forall j, (i < j)%nat -> (j < length F)%nat -> nth_error H j <> Some h) ->
  last_value (combine H F) h = Some f.
Proof.
  unfold last_value.
  induction H as [|h0 H IH]; intros [|f0 F] i h f Hh Hf Hlast;
    try (destruct i; discriminate).
  cbn [combine rev]. rewrite get_app. destruct i as [|i]; cbn in Hh, Hf.
  - injection Hh as ->. injection Hf as ->.
    rewrite get_not_in; [cbn; now rewrite String.eqb_refl|].
    rewrite map_rev, <- in_rev. intros Hin.
    destruct (in_keys_combine H F h Hin) as [j [Hj Hlt]].
    apply (Hlast (S j)); [lia | cbn; lia | exact Hj].
  - rewrite (IH F i h f Hh Hf); [reflexivity|].
    intros j Hij Hj. apply (Hlast (S j)); [lia | cbn; lia].
Qed.

(** X11: the value of a property of a record is the field under the last
    column with that name: a header that names a column twice keeps the
    later field.  No record has a property [__proto__], whatever the header
    says. *)
Theorem record_lookup_last_column (H F : list string) (key : string) :
  Obj.get (buildRow H F) key
  = (if String.eqb key Obj.proto then None else last_value (combine H F) key) /\
  (forall i f, nth_error H i = Some key -> nth_error F i = Some f ->
     key <> Obj.proto ->
     (forall j, (i < j)%nat -> (j < length F)%nat -> nth_error H j <> Some key) ->
     Obj.get (buildRow H F) key = Some f).
Proof.
  assert (Hget : Obj.get (buildRow H F) key
                 = if String.eqb key Obj.proto then None
                   else last_value (combine H F) key).
  { unfold buildRow. rewrite get_forEach_header. cbn [skipn Obj.get Obj.empty].
    destruct (String.eqb key Obj.proto); [reflexivity|].
    now destruct (last_value (combine H F) key). }
  split; [exact Hget|]. intros i f Hi Hf Hkey Hlast. rewrite Hget.
  destruct (String.eqb_spec key Obj.proto); [congruence|].
  exact (last_value_combine H F i key f Hi Hf Hlast).
Qed.

Lemma record_lookup_last_column_witness :
  Obj.get (buildRow ["a"; "b"; "a"]%string ["1"; "2"; "3"; "4"]%string) "a"
  = Some "3"%string.
Proof.
  refine (proj2 (record_lookup_last_column ["a"; "b"; "a"]%string
                   ["1"; "2"; "3"; "4"]%string "a")
            2%nat "3"%string eq_refl eq_refl _ _).
  - discriminate.
  - intros j Hij Hj. cbn in Hj. assert (j = 3%nat) as -> by lia. discriminate.
Defined.

(** ** What the consumer's responses do to a row *)

Lemma Promise_all_resolved (l : list (option AI.Cleaned)) :
  AI.Promise_all (map AI.Resolved l) = Some l.
Proof. induction l as [|r l IH]; [reflexivity|]. cbn. now rewrite IH. Qed.

Lemma Promise_all_rejected (promises : list AI.Outcome) :
  AI.Promise_all promises = None <-> In AI.Rejected promises.
Proof.
  induction promises as [|[|r] promises IH]; cbn.
  - split; [discriminate | tauto].
  - split; auto.
  - destruct (AI.Promise_all promises); cbn; split.
    + discriminate.
    + intros [H|H]; [discriminate|]. apply IH in H. discriminate.
    + intros _. right. now apply IH.
    + reflexivity.
Qed.

Lemma mapi_from_map {A B C : Type} (f : nat -> A -> B) (g : B -> C) :
  forall (l : list A) (start : nat),
    AI.mapi_from (fun i a => g (f i a)) start l = map g (AI.mapi_from f start l).
Proof. induction l as [|a l IH]; intros start; cbn; [reflexivity | now rewrite IH]. Qed.

Lemma mapi_from_ext {A B : Type} (f g : nat -> A -> B) :
  forall (l : list A) (start : nat),
    (forall i a, nth_error l i = Some a -> f (start + i)%nat a = g (start + i)%nat a) ->
    AI.mapi_from f start l = AI.mapi_from g start l.
Proof.
  induction l as [|a l IH]; intros start Hext; [reflexivity|]. cbn. f_equal.
  - specialize (Hext 0%nat a eq_refl). now rewrite Nat.add_0_r in Hext.
  - apply IH. intros i a' Hi. specialize (Hext (S i) a' Hi).
    now rewrite Nat.add_succ_r in Hext.
Qed.

Lemma mapi_ext {A B : Type} (f g : nat -> A -> B) (l : list A) :
  (forall i a, nth_error l i = Some a -> f i a = g i a) ->
  AI.mapi f l = AI.mapi g l.
Proof. intros Hext. apply mapi_from_ext. exact Hext. Qed.

Lemma length_mapi {A B : Type} (f : nat -> A -> B) (l : list A) :
  length (AI.mapi f l) = length l.
Proof.
  unfold AI.mapi. generalize 0%nat.
  induction l as [|a l IH]; intros start; cbn; [reflexivity | now rewrite IH].
Qed.

Lemma in_mapi {A B : Type} (f : nat -> A -> B) (l : list A) (y : B) :
  In y (AI.mapi f l) <-> exists i a, nth_error l i = Some a /\ f i a = y.
Proof.
  split.
  - intros Hin. apply In_nth_error in Hin. destruct Hin as [i Hi].
    rewrite nth_error_mapi in Hi. destruct (nth_error l i) as [a|] eqn:Ha; [|discriminate].
    exists i, a. split; [exact Ha|]. cbn in Hi. congruence.
  - intros (i & a & Ha & <-). apply (nth_error_In _ i).
    now rewrite nth_error_mapi, Ha.
Qed.

Lemma Forall2_mapi {A B : Type} (R : B -> A -> Prop) (f : nat -> A -> B) (l : list A) :
  (forall i a, R (f i a) a) -> Forall2 R (AI.mapi f l) l.
Proof.
  intros HR. unfold AI.mapi. generalize 0%nat.
  induction l as [|a l IH]; intros start; cbn; constructor; auto.
Qed.

Lemma postProcessRows_resolved (phone addr : nat -> option string -> option AI.Cleaned)
    (rows : list (Obj.t string)) :
  AI.postProcessRows (fun i a => AI.Resolved (phone i a)) (fun i a => AI.Resolved (addr i a))
    rows
  = (AI.calls rows,
     Some (AI.mapi (fun i row => cleanRow (phone i (Obj.get row "phone"))
                                   (addr i (Obj.get row "address")) row) rows)).
Proof.
  rewrite postProcessRows_eq. f_equal. unfold AI.mapi at 1 2.
  rewrite (mapi_from_map (fun i row => phone i (Obj.get row "phone")) AI.Resolved),
          (mapi_from_map (fun i row => addr i (Obj.get row "address")) AI.Resolved),
          !Promise_all_resolved.
  f_equal. apply mapi_ext. intros i row Hrow. unfold cleanRow.
  fold (AI.mapi (fun i row => phone i (Obj.get row "phone")) rows).
  fold (AI.mapi (fun i row => addr i (Obj.get row "address")) rows).
  rewrite !nth_error_mapi, Hrow. reflexivity.
Qed.

Lemma get_cleanRow (p a : option AI.Cleaned) (row : Obj.t string) (key : string) :
  Obj.get (cleanRow p a row) key
  = match last_value (AI.cleaned_props (Some p)) key with
    | Some v => Some v
    | None =>
        match last_value (AI.cleaned_props (Some a)) key with
        | Some v => Some v
        | None => if String.eqb "address" key then None
                  else option_map AI.JString (Obj.get row key)
        end
    end.
Proof.
  unfold cleanRow. rewrite !get_spread, get_lift, get_delete.
  now destruct (String.eqb "address" key).
Qed.

(** X12: when every call resolves, the rows come back one for one and in
    order, each made of its responses: a property has the value that the
    phone response gives it, else the value that the address response gives
    it, else, unless it is [address], the value it has in the row.  The
    [address] of the row is never handed on, and what a response holds under
    that name is. *)
Theorem responses_take_precedence
    (phone addr : nat -> option string -> option AI.Cleaned)
    (rows : list (Obj.t string)) :
  let out := AI.mapi (fun i row => cleanRow (phone i (Obj.get row "phone"))
                                     (addr i (Obj.get row "address")) row) rows in
  snd (AI.postProcessRows (fun i a => AI.Resolved (phone i a))
         (fun i a => AI.Resolved (addr i a)) rows) = Some out /\
  length out = length rows /\
  (forall i row, nth_error rows i = Some row ->
     exists r, nth_error out i = Some r /\
       forall key,
         Obj.get r key
         = match last_value (AI.cleaned_props (Some (phone i (Obj.get row "phone")))) key with
           | Some v => Some v
           | None =>
               match last_value
                       (AI.cleaned_props (Some (addr i (Obj.get row "address")))) key with
               | Some v => Some v
               | None => if String.eqb "address" key then None
                         else option_map AI.JString (Obj.get row key)
               end
           end).
Proof.
  intros out. split; [|split].
  - now rewrite postProcessRows_resolved.
  - apply length_mapi.
  - intros i row Hrow. eexists. split.
    + subst out. rewrite nth_error_mapi, Hrow. reflexivity.
    + intros key. apply get_cleanRow.
Qed.

(** X13: the calls of a batch are all made before any is awaited, two for
    each row, and one rejected call rejects the batch: no row comes back
    exactly when the call made for some row with its [phone], or with its
    [address], is rejected. *)
Theorem rejected_call_rejects_the_batch
    (cleanPhoneNumber cleanAddress : nat -> option string -> AI.Outcome)
    (rows : list (Obj.t string)) :
  fst (AI.postProcessRows cleanPhoneNumber cleanAddress rows) = AI.calls rows /\
  (snd (AI.postProcessRows cleanPhoneNumber cleanAddress rows) = None <->
   exists i row, nth_error rows i = Some row /\
     (cleanPhoneNumber i (Obj.get row "phone") = AI.Rejected \/
      cleanAddress i (Obj.get row "address") = AI.Rejected)).
Proof.
  rewrite postProcessRows_eq. cbn [fst snd]. split; [reflexivity|].
  pose proof (Promise_all_rejected
                (AI.mapi (fun index row => cleanPhoneNumber index (Obj.get row "phone")) rows))
    as Hp.
  pose proof (Promise_all_rejected
                (AI.mapi (fun index row => cleanAddress index (Obj.get row "address")) rows))
    as Ha.
  rewrite in_mapi in Hp, Ha.
  destruct (AI.Promise_all (AI.mapi (fun index row => cleanPhoneNumber index _) rows))
    as [l|].
  - destruct (AI.Promise_all (AI.mapi (fun index row => cleanAddress index _) rows))
      as [l0|].
    + split; [discriminate|]. intros (i & row & Hrow & [H|H]); exfalso.
      * assert (Hn : Some l = None) by (apply Hp; now exists i, row). discriminate.
      * assert (Hn : Some l0 = None) by (apply Ha; now exists i, row). discriminate.
    + split; [|reflexivity]. intros _.
      destruct (proj1 Ha eq_refl) as (i & row & Hrow & H). exists i, row. auto.
  - split; [|reflexivity]. intros _.
    destruct (proj1 Hp eq_refl) as (i & row & Hrow & H). exists i, row. auto.
Qed.

(** ** The AI-cleaning parser over the chunks *)

Lemma rows_of_app (a b : list Logged) : rows_of (a ++ b) = rows_of a ++ rows_of b.
Proof. apply flat_map_app. Qed.

Lemma rows_of_block (lines headers : list string) :
  rows_of (processBlockOfLines lines headers)
  = flat_map (fun line =>
                let values := parseCsvLine line in
                if 0 <? Z.of_nat (length headers)
                then [buildRow headers values] else []) lines.
Proof.
  unfold processBlockOfLines, rows_of, processLine.
  induction lines as [|line lines IH]; [reflexivity|]. cbn [map flat_map]. rewrite IH.
  destruct (0 <? Z.of_nat (length headers)); reflexivity.
Qed.

Lemma length_rows_of (l : list Logged) :
  forallb is_row l = true -> length (rows_of l) = length l.
Proof.
  induction l as [|[row|values] l IH]; cbn; intros H;
    [reflexivity | f_equal; auto | discriminate].
Qed.

Section ResolvingConsumer.

Variables phone addr : Z -> nat -> option string -> option AI.Cleaned.

Local Abbreviation cleanPhoneNumber := (fun count i a => AI.Resolved (phone count i a)).
Local Abbreviation cleanAddress := (fun count i a => AI.Resolved (addr count i a)).

Lemma awaitBlock_resolved (count : Z) (lines headers : list string) :
  AIDriver.awaitBlock cleanPhoneNumber cleanAddress count lines headers
  = Some (AI.mapi (fun i row => cleanRow (phone count i (Obj.get row "phone"))
                                  (addr count i (Obj.get row "address")) row)
            (rows_of (processBlockOfLines lines headers))).
Proof.
  unfold AIDriver.awaitBlock, AI.processBlockOfLines. rewrite <- rows_of_block.
  exact (f_equal snd (postProcessRows_resolved (phone count) (addr count) _)).
Qed.

Lemma block_cleaned_from (count : Z) (rows : list (Obj.t string)) :
  Forall2 (cleaned_from phone addr)
    (AI.mapi (fun i row => cleanRow (phone count i (Obj.get row "phone"))
                             (addr count i (Obj.get row "address")) row) rows)
    rows.
Proof. apply Forall2_mapi. intros i row. now exists count, i. Qed.

Lemma step_resolved (a : AIDriver.state) (d : Driver.state) (chunk : Buffer) :
  same_progress a d ->
  Forall2 (cleaned_from phone addr) (AIDriver.processedRows a) (rows_of (Driver.logged d)) ->
  exists a', AIDriver.step cleanPhoneNumber cleanAddress a chunk = Some a' /\
    same_progress a' (Driver.step d chunk) /\
    Forall2 (cleaned_from phone addr) (AIDriver.processedRows a')
      (rows_of (Driver.logged (Driver.step d chunk))).
Proof.
  intros (Hc & Hh & Hf & Hr) Hrows. unfold AIDriver.step, Driver.step.
  rewrite Hc, Hh, Hf, Hr.
  destruct (Driver.isFirstChunk d
            && (0 <? Z.of_nat (length (lines (splitLinesFromBuffer
                                               (Driver.remainderBuffer d ++ chunk))))));
    rewrite awaitBlock_resolved; eexists; (split; [reflexivity|]);
    (split; [repeat split|]);
    cbn [AIDriver.processedRows Driver.logged]; rewrite rows_of_app;
    (apply Forall2_app; [exact Hrows | apply block_cleaned_from]).
Qed.

Lemma drain_resolved : forall (chunks : list Buffer) (a : AIDriver.state) (d : Driver.state),
  same_progress a d ->
  Forall2 (cleaned_from phone addr) (AIDriver.processedRows a) (rows_of (Driver.logged d)) ->
  exists a',
    fold_left (AIDriver.step_opt cleanPhoneNumber cleanAddress) chunks (Some a) = Some a' /\
    same_progress a' (fold_left Driver.step chunks d) /\
    Forall2 (cleaned_from phone addr) (AIDriver.processedRows a')
      (rows_of (Driver.logged (fold_left Driver.step chunks d))).
Proof.
  induction chunks as [|chunk chunks IH]; intros a d Hsame Hrows.
  - exists a. auto.
  - cbn [fold_left AIDriver.step_opt].
    destruct (step_resolved a d chunk Hsame Hrows) as (a' & -> & Hsame' & Hrows').
    exact (IH a' _ Hsame' Hrows').
Qed.

Lemma finish_resolved (a : AIDriver.state) (d : Driver.state) :
  same_progress a d ->
  Forall2 (cleaned_from phone addr) (AIDriver.processedRows a) (rows_of (Driver.logged d)) ->
  exists a', AIDriver.finish cleanPhoneNumber cleanAddress a = Some a' /\
    Forall2 (cleaned_from phone addr) (AIDriver.processedRows a')
      (rows_of (Driver.logged (Driver.finish d))).
Proof.
  intros (Hc & Hh & Hf & Hr) Hrows. unfold AIDriver.finish, Driver.finish.
  rewrite Hc, Hh, Hr. destruct (0 <? len (Driver.remainderBuffer d)).
  - rewrite awaitBlock_resolved. eexists. split; [reflexivity|].
    cbn [AIDriver.processedRows Driver.logged]. rewrite rows_of_app.
    apply Forall2_app; [exact Hrows | apply block_cleaned_from].
  - exists a. auto.
Qed.

Lemma parse_resolved (chunks : list Buffer) :
  exists out,
    AIDriver.parseAndLogCsv cleanPhoneNumber cleanAddress chunks = Some out /\
    Forall2 (cleaned_from phone addr) out (rows_of (records chunks)).
Proof.
  unfold AIDriver.parseAndLogCsv, AIDriver.drain, records, parseAndLogCsv, Driver.drain.
  destruct (drain_resolved chunks AIDriver.init Driver.init) as (a & -> & Hsame & Hrows).
  - repeat split.
  - constructor.
  - destruct (finish_resolved a _ Hsame Hrows) as (a' & -> & Hrows').
    exists (AIDriver.processedRows a'). auto.
Qed.

(** X14: with a consumer whose calls all resolve, the AI-cleaning parser
    returns one row for each record that the plain parser prints for the same
    chunks, in the same order, and each is that record after the responses
    given for it: the two drivers split, tokenize and build alike. *)
Theorem ai_parser_cleans_the_plain_records (chunks : list Buffer) :
  exists out,
    AIDriver.parseAndLogCsv cleanPhoneNumber cleanAddress chunks = Some out /\
    Forall2 (cleaned_from phone addr) out (rows_of (records chunks)) /\
    length out = length (records chunks).
Proof.
  destruct (parse_resolved chunks) as (out & Hout & Hrows). exists out.
  split; [exact Hout|]. split; [exact Hrows|].
  rewrite (Forall2_length Hrows). apply length_rows_of, records_are_rows.
Qed.

End ResolvingConsumer.

Lemma cleaned_from_null : forall (out : list (Obj.t AI.JsValue)) (rows : list (Obj.t string)),
  Forall2 (cleaned_from (fun _ _ _ => None) (fun _ _ _ => None)) out rows ->
  out = map (fun row => AI.lift (Obj.delete row "address")) rows.
Proof.
  induction 1 as [|r row out rows [count [index ->]] _ IH]; [reflexivity|].
  cbn [map]. now rewrite IH.
Qed.

(** X15: when every response is [null], the AI-cleaning parser returns the
    records of the plain parser, each without its [address] and otherwise
    unchanged, whatever the chunks. *)
Theorem null_responses_give_the_plain_records (chunks : list Buffer) :
  AIDriver.parseAndLogCsv (fun _ => AI.failing) (fun _ => AI.failing) chunks
  = Some (map (fun row => AI.lift (Obj.delete row "address")) (rows_of (records chunks))).
Proof.
  destruct (parse_resolved (fun _ _ _ => None) (fun _ _ _ => None) chunks)
    as (out & Hout & Hrows).
  rewrite <- (cleaned_from_null out _ Hrows). exact Hout.
Qed.

Lemma awaitBlock_rejecting (cleanAddress : Z -> nat -> option string -> AI.Outcome)
    (count : Z) (lines headers : list string) :
  AIDriver.awaitBlock (fun _ => AI.rejecting) cleanAddress count lines headers
  = match rows_of (processBlockOfLines lines headers) with
    | [] => Some []
    | _ :: _ => None
    end.
Proof.
  unfold AIDriver.awaitBlock, AI.processBlockOfLines. rewrite <- rows_of_block.
  rewrite postProcessRows_eq. cbn [snd].
  destruct (rows_of (processBlockOfLines lines headers)); reflexivity.
Qed.

Lemma step_rejecting (cleanAddress : Z -> nat -> option string -> AI.Outcome)
    (oa : option AIDriver.state) (d : Driver.state) (chunk : Buffer) :
  thrown_or_empty oa d ->
  thrown_or_empty (AIDriver.step_opt (fun _ => AI.rejecting) cleanAddress oa chunk)
    (Driver.step d chunk).
Proof.
  destruct oa as [a|]; cbn [thrown_or_empty AIDriver.step_opt].
  - intros ((Hc & Hh & Hf & Hr) & Hnone & Hempty). unfold AIDriver.step, Driver.step.
    rewrite Hc, Hh, Hf, Hr, Hnone.
    destruct (Driver.isFirstChunk d
              && (0 <? Z.of_nat (length (lines (splitLinesFromBuffer
                                                 (Driver.remainderBuffer d ++ chunk))))));
      rewrite awaitBlock_rejecting;
      match goal with
      | |- context [rows_of (processBlockOfLines ?l ?h)] =>
          destruct (rows_of (processBlockOfLines l h)) eqn:E
      end;
      cbn [thrown_or_empty Driver.logged AIDriver.processedRows];
      rewrite rows_of_app, Hempty, E; cbn [app];
      try discriminate; repeat split.
  - intros Hne. unfold Driver.step.
    destruct (Driver.isFirstChunk d && _); cbn [Driver.logged]; rewrite rows_of_app;
      intros H; apply app_eq_nil in H; tauto.
Qed.

Lemma drain_rejecting (cleanAddress : Z -> nat -> option string -> AI.Outcome) :
  forall (chunks : list Buffer) (oa : option AIDriver.state) (d : Driver.state),
    thrown_or_empty oa d ->
    thrown_or_empty
      (fold_left (AIDriver.step_opt (fun _ => AI.rejecting) cleanAddress) chunks oa)
      (fold_left Driver.step chunks d).
Proof.
  induction chunks as [|chunk chunks IH]; intros oa d H; [exact H|].
  cbn [fold_left]. apply IH, step_rejecting, H.
Qed.

(** X16: when every call made for a phone number is rejected, the AI-cleaning
    parser is rejected as soon as a block holds a row: it returns (no rows)
    only for chunks from which the plain parser prints no record. *)
Theorem rejecting_consumer_rejects_the_parse
    (cleanAddress : Z -> nat -> option string -> AI.Outcome) (chunks : list Buffer) :
  AIDriver.parseAndLogCsv (fun _ => AI.rejecting) cleanAddress chunks
  = match rows_of (records chunks) with
    | [] => Some []
    | _ :: _ => None
    end.
Proof.
  unfold AIDriver.parseAndLogCsv, AIDriver.drain, records, parseAndLogCsv, Driver.drain.
  pose proof (drain_rejecting cleanAddress chunks (Some AIDriver.init) Driver.init) as H.
  destruct (fold_left _ chunks (Some AIDriver.init)) as [a|].
  - cbn [thrown_or_empty] in H.
    destruct H as ((Hc & Hh & Hf & Hr) & Hnone & Hempty); [repeat split|].
    unfold AIDriver.finish, Driver.finish. rewrite Hc, Hh, Hr.
    destruct (0 <? len (Driver.remainderBuffer (fold_left Driver.step chunks Driver.init))).
    + rewrite awaitBlock_rejecting. cbn [Driver.logged]. rewrite rows_of_app, Hempty.
      cbn [app]. destruct (rows_of (processBlockOfLines _ _)); [|reflexivity].
      cbn. now rewrite Hnone.
    + cbn. rewrite Hnone, Hempty. reflexivity.
  - cbn [thrown_or_empty] in H. specialize (H ltac:(repeat split)).
    unfold Driver.finish.
    destruct (0 <? len (Driver.remainderBuffer (fold_left Driver.step chunks Driver.init)));
      [cbn [Driver.logged]; rewrite rows_of_app|];
      destruct (rows_of (Driver.logged (fold_left Driver.step chunks Driver.init)));
      try congruence; reflexivity.
Qed.

(** ** Texts as bytes *)

Lemma bytes_cons (c : ascii) (s : string) :
  bytes (String c s) = byte_of_ascii c :: bytes s.
Proof. reflexivity. Qed.

Lemma bytes_app (a b : string) : bytes (a ++ b) = bytes a ++ bytes b.
Proof.
  induction a as [|c a IH]; [reflexivity|].
  cbn [append]. rewrite !bytes_cons, IH. reflexivity.
Qed.

Lemma toString_bytes (s : string) : toString (bytes s) = s.
Proof. apply string_of_list_byte_of_string. Qed.

Lemma byte_eqb_ascii (c q : ascii) :
  Byte.eqb (byte_of_ascii c) (byte_of_ascii q) = Ascii.eqb c q.
Proof.
  destruct (Ascii.eqb_spec c q) as [->|Hne].
  - apply byte_dec_lb. reflexivity.
  - destruct (Byte.eqb (byte_of_ascii c) (byte_of_ascii q)) eqn:E; [|reflexivity].
    apply byte_dec_bl in E. exfalso. apply Hne.
    rewrite <- (ascii_of_byte_of_ascii c), E. apply ascii_of_byte_of_ascii.
Qed.

(** ** Buffers without quotes *)

Lemma has_byte_app (code : byte) (a b : Buffer) :
  has_byte code (a ++ b) = has_byte code a || has_byte code b.
Proof. apply existsb_app. Qed.

Lemma has_byte_removelast (code : byte) : forall l : Buffer,
  has_byte code l = false -> has_byte code (removelast l) = false.
Proof.
  induction l as [|b l IH]; [reflexivity|]. intros H. cbn [has_byte existsb] in H.
  apply orb_false_elim in H. destruct H as [Hb Hl].
  destruct l as [|b' l']; [reflexivity|].
  change (removelast (b :: b' :: l')) with (b :: removelast (b' :: l')).
  cbn [has_byte existsb]. rewrite Hb. exact (IH Hl).
Qed.

Lemma has_byte_chompCR (code : byte) (cur : Buffer) :
  has_byte code cur = false -> has_byte code (chompCR cur) = false.
Proof.
  intros H. unfold chompCR. destruct (is_code (last_byte cur) CR); [|exact H].
  now apply has_byte_removelast.
Qed.

Lemma contains_toString (c : ascii) : forall b : Buffer,
  contains c (toString b) = has_byte (byte_of_ascii c) b.
Proof.
  induction b as [|x b IH]; [reflexivity|].
  change (toString (x :: b)) with (String (ascii_of_byte x) (toString b)).
  cbn [contains has_byte existsb]. fold (has_byte (byte_of_ascii c) b). rewrite IH.
  f_equal. now rewrite <- byte_eqb_ascii, byte_of_ascii_of_byte.
Qed.

Lemma scan_from_quote_free : forall rest inQ cur acc,
  has_byte QUOTE_CHAR_CODE rest = false -> inQ = false ->
  has_byte LF cur = false -> Forall (fun l => has_byte LF l = false) acc ->
  let '(acc', cur', q') := scan_from inQ cur acc rest in
  Forall (fun l => has_byte LF l = false) acc' /\ has_byte LF cur' = false /\ q' = false.
Proof.
  apply (scan_cases (fun inQ cur acc rest =>
           has_byte QUOTE_CHAR_CODE rest = false -> inQ = false ->
           has_byte LF cur = false -> Forall (fun l => has_byte LF l = false) acc ->
           let '(acc', cur', q') := scan_from inQ cur acc rest in
           Forall (fun l => has_byte LF l = false) acc' /\
           has_byte LF cur' = false /\ q' = false)).
  - intros inQ cur acc _ -> Hcur Hacc. cbn. auto.
  - intros inQ cur acc b Hq H. cbn [has_byte existsb] in H. now rewrite Hq in H.
  - intros inQ cur acc b b' r Hq _ _ H. cbn [has_byte existsb] in H. now rewrite Hq in H.
  - intros inQ cur acc b b' r Hq _ _ H. cbn [has_byte existsb] in H. now rewrite Hq in H.
  - intros cur acc r IH H _ Hcur Hacc. rewrite scan_newline. apply IH.
    + cbn [has_byte existsb] in H. apply orb_false_elim in H. apply H.
    + reflexivity.
    + reflexivity.
    + apply Forall_app. split; [exact Hacc|]. constructor; [|constructor].
      now apply has_byte_chompCR.
  - intros inQ cur acc b r Hq Hnl IH H -> Hcur Hacc. rewrite scan_other by assumption.
    apply IH; [| reflexivity | | exact Hacc].
    + cbn [has_byte existsb] in H. apply orb_false_elim in H. apply H.
    + rewrite has_byte_app, Hcur. cbn [has_byte existsb negb andb orb] in *.
      rewrite andb_true_r in Hnl. now rewrite Hnl.
Qed.

(** X23: in a buffer without quotes every line feed ends a line: no line
    that the splitter returns holds a line feed, the remainder holds none,
    and the scan ends outside quotes. *)
Theorem quote_free_buffer_splits_at_every_line_feed (buffer : Buffer) :
  has_byte QUOTE_CHAR_CODE buffer = false ->
  Forall (fun line => contains NEWLINE line = false) (lines (splitLinesFromBuffer buffer)) /\
  has_byte LF (remainder (splitLinesFromBuffer buffer)) = false /\
  Scan.inQuotes (Scan.run buffer) = false.
Proof.
  intros Hfree.
  pose proof (scan_from_quote_free buffer false [] [] Hfree eq_refl eq_refl (Forall_nil _))
    as H.
  pose proof (scan_shape buffer) as Hshape.
  rewrite run_inQuotes, splitLinesFromBuffer_scan. unfold scan in *.
  destruct (scan_from false [] [] buffer) as [[acc cur] q].
  destruct H as (Hacc & Hcur & ->). cbn [snd]. unfold finalize.
  destruct acc as [|l acc].
  - destruct Hshape as [[_ ->] | [Hne _]]; [|congruence]. cbn [negb andb].
    destruct (0 <? len buffer); cbn [lines remainder]; repeat split; auto.
    constructor; [|constructor]. now rewrite (contains_toString NEWLINE).
  - cbn [lines remainder]. repeat split; auto.
    apply Forall_map. eapply Forall_impl; [|exact Hacc].
    intros b Hb. now rewrite (contains_toString NEWLINE).
Qed.

Lemma quote_free_buffer_splits_at_every_line_feed_witness :
  Forall (fun line => contains NEWLINE line = false)
    (lines (splitLinesFromBuffer (bytes "a,b" ++ [CR; LF] ++ bytes "1,2" ++ [LF] ++ bytes "3"))).
Proof.
  assert (Hfree : has_byte QUOTE_CHAR_CODE
                    (bytes "a,b" ++ [CR; LF] ++ bytes "1,2" ++ [LF] ++ bytes "3") = false)
    by (vm_compute; reflexivity).
  destruct (quote_free_buffer_splits_at_every_line_feed _ Hfree) as [W _]. exact W.
Defined.

(** ** Where the two quote rules agree *)

Lemma loop_quote_parity : forall (a b : string) values current inQ,
  exists values' current',
    parseCsvLine_loop (a ++ b) values current inQ
    = parseCsvLine_loop b values' current' (xorb inQ (quote_parity a)).
Proof.
  induction a as [|c a IH]; intros b values current inQ.
  - exists values, current. cbn. now rewrite xorb_false_r.
  - cbn [append parseCsvLine_loop quote_parity].
    destruct (Ascii.eqb c QUOTE).
    + destruct (IH b values current (negb inQ)) as (v & cu & ->). exists v, cu.
      f_equal. now destruct inQ, (quote_parity a).
    + rewrite xorb_false_l.
      destruct (Ascii.eqb c DELIMITER && negb inQ); apply IH.
Qed.

Lemma scan_from_quote_parity : forall (s : string) inQ cur acc,
  no_doubled_quote s = true ->
  snd (scan_from inQ cur acc (bytes s)) = xorb inQ (quote_parity s).
Proof.
  induction s as [|c s IH]; intros inQ cur acc Hs.
  - cbn. now rewrite xorb_false_r.
  - rewrite bytes_cons. cbn [quote_parity].
    assert (Hq : Byte.eqb (byte_of_ascii c) QUOTE_CHAR_CODE = Ascii.eqb c QUOTE)
      by apply byte_eqb_ascii.
    assert (Hrest : no_doubled_quote s = true).
    { cbn [no_doubled_quote] in Hs. destruct s; [reflexivity|].
      apply andb_prop in Hs. apply Hs. }
    destruct (Ascii.eqb c QUOTE) eqn:Hc.
    + destruct s as [|c' s'].
      * rewrite scan_quote_last by exact Hq. cbn. now destruct inQ.
      * cbn [no_doubled_quote] in Hs. rewrite Hc in Hs. cbn [andb] in Hs.
        apply andb_prop in Hs. destruct Hs as [Hc' _]. apply negb_true_iff in Hc'.
        rewrite bytes_cons, scan_quote;
          [|exact Hq | unfold QUOTE_CHAR_CODE; now rewrite byte_eqb_ascii].
        rewrite <- bytes_cons, IH by exact Hrest.
        now destruct inQ, (quote_parity (String c' s')).
    + rewrite xorb_false_l.
      destruct (Byte.eqb (byte_of_ascii c) LF && negb inQ) eqn:Hnl.
      * apply andb_prop in Hnl. destruct Hnl as [Hlf HinQ].
        apply byte_dec_bl in Hlf. rewrite Hlf. apply negb_true_iff in HinQ. subst inQ.
        rewrite scan_newline. now apply IH.
      * rewrite scan_other by assumption. now apply IH.
Qed.

(** X26: where no quote is followed by a quote, the splitter and the
    tokenizer agree on what is inside quotes: after the same text the flag of
    the scan is on exactly when the tokenizer goes on inside quotes, which is
    when the text holds an odd number of quotes. *)
Theorem quote_rules_agree_without_doubled_quotes (line : string) :
  no_doubled_quote line = true ->
  Scan.inQuotes (Scan.run (bytes line)) = quote_parity line /\
  (forall rest, exists values current,
     parseCsvLine (line ++ rest) = parseCsvLine_loop rest values current (quote_parity line)).
Proof.
  intros Hline. split.
  - rewrite run_inQuotes. unfold scan.
    now rewrite (scan_from_quote_parity line false [] [] Hline).
  - intros rest. unfold parseCsvLine.
    destruct (loop_quote_parity line rest [] EmptyString false) as (values & current & ->).
    now exists values, current.
Qed.

Lemma quote_rules_agree_without_doubled_quotes_witness :
  Scan.inQuotes (Scan.run (bytes ("a," ++ String QUOTE ("b" ++ String NEWLINE "c"))))
  = quote_parity ("a," ++ String QUOTE ("b" ++ String NEWLINE "c")).
Proof.
  assert (H : no_doubled_quote ("a," ++ String QUOTE ("b" ++ String NEWLINE "c")) = true)
    by reflexivity.
  destruct (quote_rules_agree_without_doubled_quotes _ H) as [W _]. exact W.
Defined.

(** * The generator of test files, and the parser on what it writes *)

(** ** The scan of a written row *)

(** Outside quotes the scan copies a text without quote and line feed;
    inside quotes, a text without quote. *)
Lemma scan_text_outside : forall (s : string) cur acc rest,
  contains QUOTE s = false -> contains NEWLINE s = false ->
  scan_from false cur acc (bytes s ++ rest) = scan_from false (cur ++ bytes s) acc rest.
Proof.
  induction s as [|c s IH]; intros cur acc rest Hq Hn.
  - cbn. now rewrite app_nil_r.
  - cbn [contains] in Hq, Hn.
    apply orb_false_elim in Hq. destruct Hq as [Hq Hq'].
    apply orb_false_elim in Hn. destruct Hn as [Hn Hn'].
    rewrite bytes_cons. cbn [app]. rewrite scan_other.
    + rewrite IH by assumption. now rewrite <- app_assoc.
    + unfold QUOTE_CHAR_CODE. now rewrite byte_eqb_ascii.
    + unfold LF. now rewrite byte_eqb_ascii, Hn.
Qed.

Lemma scan_text_inside : forall (s : string) cur acc rest,
  contains QUOTE s = false ->
  scan_from true cur acc (bytes s ++ rest) = scan_from true (cur ++ bytes s) acc rest.
Proof.
  induction s as [|c s IH]; intros cur acc rest Hq.
  - cbn. now rewrite app_nil_r.
  - cbn [contains] in Hq. apply orb_false_elim in Hq. destruct Hq as [Hq Hq'].
    rewrite bytes_cons. cbn [app]. rewrite scan_other.
    + rewrite IH by assumption. now rewrite <- app_assoc.
    + unfold QUOTE_CHAR_CODE. now rewrite byte_eqb_ascii.
    + apply andb_false_r.
Qed.

(** A field between quotes that holds no quote and is not empty is copied,
    and the scan is outside quotes after it. *)
Lemma scan_quoted (s : string) (b' : byte) cur acc rest :
  quotable s = true -> Byte.eqb b' QUOTE_CHAR_CODE = false ->
  scan_from false cur acc (QUOTE_CHAR_CODE :: bytes s ++ QUOTE_CHAR_CODE :: b' :: rest)
  = scan_from false (cur ++ QUOTE_CHAR_CODE :: bytes s ++ [QUOTE_CHAR_CODE]) acc (b' :: rest).
Proof.
  unfold quotable. intros Hs Hb'. apply andb_prop in Hs. destruct Hs as [Hq Hne].
  apply negb_true_iff in Hq. destruct s as [|c s]; [discriminate|].
  pose proof Hq as Hc. cbn [contains] in Hc. apply orb_false_elim in Hc.
  destruct Hc as [Hc _].
  rewrite bytes_cons at 1. cbn [app]. rewrite scan_quote.
  - change (byte_of_ascii c :: bytes s ++ QUOTE_CHAR_CODE :: b' :: rest)
      with (bytes (String c s) ++ QUOTE_CHAR_CODE :: b' :: rest).
    rewrite scan_text_inside by exact Hq. rewrite scan_quote.
    + cbn [negb]. f_equal. rewrite <- !app_assoc. reflexivity.
    + reflexivity.
    + exact Hb'.
  - reflexivity.
  - unfold QUOTE_CHAR_CODE. now rewrite byte_eqb_ascii.
Qed.

Lemma scan_bare_delimiter (s : string) cur acc rest :
  contains QUOTE s = false -> contains NEWLINE s = false ->
  scan_from false cur acc (bytes s ++ byte_of_ascii DELIMITER :: rest)
  = scan_from false (cur ++ bytes s ++ [byte_of_ascii DELIMITER]) acc rest.
Proof.
  intros Hq Hn. rewrite scan_text_outside by assumption.
  rewrite scan_other by reflexivity. now rewrite <- app_assoc.
Qed.

Lemma rowText_line (r : Gen.Row) :
  Gen.rowText r = (rowLine r ++ String NEWLINE EmptyString)%string.
Proof.
  unfold Gen.rowText, rowLine. repeat (rewrite append_assoc; cbn [append]). reflexivity.
Qed.

Lemma bytes_rowLine (r : Gen.Row) :
  bytes (rowLine r)
  = bytes (Gen.name r) ++ byte_of_ascii DELIMITER
    :: bytes (Gen.numberToString (Gen.age r)) ++ byte_of_ascii DELIMITER
    :: bytes (Gen.email r) ++ byte_of_ascii DELIMITER
    :: QUOTE_CHAR_CODE :: bytes (Gen.address r) ++ QUOTE_CHAR_CODE
    :: byte_of_ascii DELIMITER
    :: QUOTE_CHAR_CODE :: bytes (Gen.phone r) ++ [QUOTE_CHAR_CODE].
Proof. unfold rowLine. repeat (rewrite ?bytes_app, ?bytes_cons). reflexivity. Qed.

Lemma bare_spec (s : string) :
  bare s = true ->
  contains QUOTE s = false /\ contains DELIMITER s = false /\ contains NEWLINE s = false.
Proof.
  unfold bare. intros H. apply andb_prop in H. destruct H as [H Hn].
  apply andb_prop in H. destruct H as [Hq Hd].
  now rewrite !negb_true_iff in *.
Qed.

Lemma uint_bare (u : Decimal.uint) : bare (NilEmpty.string_of_uint u) = true.
Proof. induction u; [reflexivity | exact IHu ..]. Qed.

Lemma number_bare (n : N) : bare (Gen.numberToString n) = true.
Proof. apply uint_bare. Qed.

(** The scan of a readable row closes one line, the row without its line
    feed, and is outside quotes after it. *)
Lemma scan_row (r : Gen.Row) acc rest :
  readable r = true ->
  scan_from false [] acc (bytes (Gen.rowText r) ++ rest)
  = scan_from false [] (acc ++ [bytes (rowLine r)]) rest.
Proof.
  unfold readable. intros H.
  apply andb_prop in H. destruct H as [H Hphone].
  apply andb_prop in H. destruct H as [H Haddr].
  apply andb_prop in H. destruct H as [Hname Hemail].
  destruct (bare_spec _ Hname) as (Hn1 & _ & Hn3).
  destruct (bare_spec _ Hemail) as (He1 & _ & He3).
  destruct (bare_spec _ (number_bare (Gen.age r))) as (Ha1 & _ & Ha3).
  rewrite rowText_line, bytes_app. change (bytes (String NEWLINE EmptyString)) with [LF].
  rewrite bytes_rowLine. repeat (rewrite <- app_assoc; cbn [app]).
  rewrite !scan_bare_delimiter by assumption.
  rewrite (scan_quoted (Gen.address r) (byte_of_ascii DELIMITER)) by (assumption || reflexivity).
  rewrite scan_other by reflexivity.
  rewrite (scan_quoted (Gen.phone r) LF) by (assumption || reflexivity).
  rewrite scan_newline, chomp_no_cr.
  - do 3 f_equal. repeat (rewrite <- app_assoc; cbn [app]). reflexivity.
  - change (QUOTE_CHAR_CODE :: bytes (Gen.phone r) ++ [QUOTE_CHAR_CODE])
      with ((QUOTE_CHAR_CODE :: bytes (Gen.phone r)) ++ [QUOTE_CHAR_CODE]).
    rewrite app_assoc, last_byte_snoc. reflexivity.
Qed.

Lemma scan_rows : forall (rows : list Gen.Row) acc,
  forallb readable rows = true ->
  scan_from false [] acc (bytes (concat_text (map Gen.rowText rows)))
  = (acc ++ map (fun r => bytes (rowLine r)) rows, [], false).
Proof.
  induction rows as [|r rows IH]; intros acc Hall.
  - cbn. now rewrite app_nil_r.
  - cbn [forallb] in Hall. apply andb_prop in Hall. destruct Hall as [Hr Hall].
    cbn [map concat_text]. rewrite bytes_app, scan_row by exact Hr.
    rewrite IH by exact Hall. now rewrite <- app_assoc.
Qed.

Lemma scan_file (rows : list Gen.Row) :
  forallb readable rows = true ->
  scan (bytes (file_text rows))
  = (bytes headerLine :: map (fun r => bytes (rowLine r)) rows, [], false).
Proof.
  intros Hall. unfold scan, file_text. rewrite bytes_app.
  change (scan_from false [] [] (bytes Gen.header ++ bytes (concat_text (map Gen.rowText rows))))
    with (scan_from false [] [bytes headerLine] (bytes (concat_text (map Gen.rowText rows)))).
  now rewrite scan_rows.
Qed.

Lemma split_file (rows : list Gen.Row) :
  forallb readable rows = true ->
  splitLinesFromBuffer (bytes (file_text rows))
  = {| lines := headerLine :: map rowLine rows; remainder := [] |}.
Proof.
  intros Hall. rewrite splitLinesFromBuffer_scan, scan_file by exact Hall.
  cbn [finalize map]. rewrite toString_bytes, map_map. do 2 f_equal.
  apply map_ext. intros r. apply toString_bytes.
Qed.

(** ** A written row is read back *)

Lemma parse_plain (s : string) : plain_field s = true -> parseCsvLine s = [s].
Proof.
  intros H. unfold parseCsvLine. apply (parse_join_from [] s []).
  cbn [forallb]. now rewrite H.
Qed.

Lemma bare_plain (s : string) :
  bare s = true -> plain_field s = true /\ quote_free s = true.
Proof.
  intros H. destruct (bare_spec s H) as (Hq & Hd & _).
  unfold plain_field, quote_free. now rewrite Hq, Hd.
Qed.

Lemma parse_rowLine (r : Gen.Row) :
  readable r = true ->
  parseCsvLine (rowLine r)
  = [Gen.name r; Gen.numberToString (Gen.age r); Gen.email r; Gen.address r; Gen.phone r].
Proof.
  unfold readable. intros H.
  apply andb_prop in H. destruct H as [H Hphone].
  apply andb_prop in H. destruct H as [H Haddr].
  apply andb_prop in H. destruct H as [Hname Hemail].
  destruct (bare_plain _ Hname) as [Hn Hnq].
  destruct (bare_plain _ Hemail) as [He Heq].
  destruct (bare_plain _ (number_bare (Gen.age r))) as [Ha Haq].
  unfold quotable in Haddr, Hphone.
  apply andb_prop in Haddr. destruct Haddr as [Haddr _].
  apply andb_prop in Hphone. destruct Hphone as [Hphone _].
  unfold rowLine.
  rewrite (parse_after_delimiter _ _ Hnq), (parse_after_delimiter _ _ Haq),
          (parse_after_delimiter _ _ Heq).
  rewrite (proj1 (parse_quoted_first (Gen.address r) _ Haddr)).
  rewrite (proj2 (parse_quoted_first (Gen.phone r) EmptyString Hphone)).
  now rewrite !parse_plain by assumption.
Qed.

Lemma processLine_row (r : Gen.Row) :
  readable r = true ->
  processLine (parseCsvLine headerLine) (rowLine r) = LogRow (record_of r).
Proof.
  intros H. unfold processLine. rewrite (parse_rowLine r H). reflexivity.
Qed.

Lemma records_file (rows : list Gen.Row) :
  forallb readable rows = true ->
  records [bytes (file_text rows)] = map (fun r => LogRow (record_of r)) rows.
Proof.
  intros Hall. unfold records, parseAndLogCsv. rewrite drain_split_chunks.
  cbn [split_chunks app]. rewrite (split_file rows Hall).
  cbn [lines remainder fst snd app driver_of]. rewrite app_nil_r.
  unfold Driver.finish. cbn [Driver.remainderBuffer].
  change (0 <? len []) with false. cbn [Driver.logged].
  unfold processBlockOfLines. rewrite map_map.
  clear -Hall. induction rows as [|r rows IH]; [reflexivity|].
  cbn [forallb] in Hall. apply andb_prop in Hall. destruct Hall as [Hr Hall].
  cbn [map]. now rewrite (processLine_row r Hr), IH.
Qed.

Lemma file_is_smooth (rows : list Gen.Row) :
  forallb readable rows = true -> smooth [] [bytes (file_text rows)] = true.
Proof.
  intros Hall. cbn [smooth app]. rewrite taken_whole_scan, (scan_file rows Hall).
  reflexivity.
Qed.

Lemma records_of_file_chunks (rows : list Gen.Row) (chunks : list Buffer) :
  forallb readable rows = true ->
  concat chunks = bytes (file_text rows) ->
  smooth [] chunks = true ->
  records chunks = map (fun r => LogRow (record_of r)) rows.
Proof.
  intros Hall Hcat Hsmooth.
  rewrite (smooth_chunkings_agree chunks [bytes (file_text rows)]).
  - now apply records_file.
  - cbn [concat]. now rewrite app_nil_r.
  - exact Hsmooth.
  - now apply file_is_smooth.
Qed.

(** X17: what is written with the template of the generator is read back by
    the parser.  For rows whose name and e-mail hold no quote, comma or line
    feed, and whose address and phone hold no quote and are not empty, the
    file of the header and the rows, cut into chunks none of which is taken
    for a whole line, gives one record for each row, in order, with the five
    fields under the five names of the header.  Commas and line feeds in an
    address or a phone are kept. *)
Theorem written_rows_are_read_back (rows : list Gen.Row) (chunks : list Buffer) :
  forallb readable rows = true ->
  concat chunks = bytes (file_text rows) ->
  smooth [] chunks = true ->
  records chunks = map (fun r => LogRow (record_of r)) rows /\
  lines (splitLinesFromBuffer (bytes (file_text rows))) = headerLine :: map rowLine rows /\
  remainder (splitLinesFromBuffer (bytes (file_text rows))) = [].
Proof.
  intros Hall Hcat Hsmooth. split; [now apply records_of_file_chunks|].
  now rewrite (split_file rows Hall).
Qed.

Lemma written_rows_are_read_back_witness :
  records
    [firstn 40 (bytes (file_text [Gen.mkRow "Ann Lee" 30 "ann.lee@example.com"
                                    "2 Main St, Boston, MA 02101" "(555) 123-4567"]));
     skipn 40 (bytes (file_text [Gen.mkRow "Ann Lee" 30 "ann.lee@example.com"
                                   "2 Main St, Boston, MA 02101" "(555) 123-4567"]))]
  = map (fun r => LogRow (record_of r))
      [Gen.mkRow "Ann Lee" 30 "ann.lee@example.com"
         "2 Main St, Boston, MA 02101" "(555) 123-4567"].
Proof.
  assert (Hall : forallb readable
                   [Gen.mkRow "Ann Lee" 30 "ann.lee@example.com"
                      "2 Main St, Boston, MA 02101" "(555) 123-4567"] = true)
    by (vm_compute; reflexivity).
  assert (Hcat : concat
                   [firstn 40 (bytes (file_text [Gen.mkRow "Ann Lee" 30 "ann.lee@example.com"
                                                   "2 Main St, Boston, MA 02101"
                                                   "(555) 123-4567"]));
                    skipn 40 (bytes (file_text [Gen.mkRow "Ann Lee" 30 "ann.lee@example.com"
                                                  "2 Main St, Boston, MA 02101"
                                                  "(555) 123-4567"]))]
                 = bytes (file_text [Gen.mkRow "Ann Lee" 30 "ann.lee@example.com"
                                       "2 Main St, Boston, MA 02101" "(555) 123-4567"]))
    by (vm_compute; reflexivity).
  assert (Hsmooth : smooth []
                      [firstn 40 (bytes (file_text [Gen.mkRow "Ann Lee" 30
                                                      "ann.lee@example.com"
                                                      "2 Main St, Boston, MA 02101"
                                                      "(555) 123-4567"]));
                       skipn 40 (bytes (file_text [Gen.mkRow "Ann Lee" 30
                                                     "ann.lee@example.com"
                                                     "2 Main St, Boston, MA 02101"
                                                     "(555) 123-4567"]))] = true)
    by (vm_compute; reflexivity).
  destruct (written_rows_are_read_back _ _ Hall Hcat Hsmooth) as [W _]. exact W.
Defined.

(** ** What the generator draws is readable *)

Lemma bare_app (a b : string) : bare (a ++ b) = bare a && bare b.
Proof.
  unfold bare. rewrite !contains_append.
  destruct (contains QUOTE a), (contains QUOTE b), (contains DELIMITER a),
    (contains DELIMITER b), (contains NEWLINE a), (contains NEWLINE b); reflexivity.
Qed.

Lemma bare_cons (c : ascii) (s : string) :
  bare (String c s) = bare (String c EmptyString) && bare s.
Proof. apply (bare_app (String c EmptyString) s). Qed.

Lemma quote_free_app (a b : string) :
  quote_free (a ++ b) = quote_free a && quote_free b.
Proof. unfold quote_free. rewrite contains_append. apply negb_orb. Qed.

Lemma bare_quote_free (s : string) : bare s = true -> quote_free s = true.
Proof. intros H. apply (bare_plain s H). Qed.

Lemma nth_forallb {A : Type} (P : A -> bool) (l : list A) (d : A) :
  forallb P l = true -> P d = true -> forall i, P (nth i l d) = true.
Proof.
  intros Hl Hd i. destruct (nth_in_or_default i l d) as [Hin | ->]; [|exact Hd].
  rewrite forallb_forall in Hl. now apply Hl.
Qed.

Lemma lower_keeps (c : ascii) :
  bare (String (Gen.lower c) EmptyString) = bare (String c EmptyString).
Proof. destruct c as [[|] [|] [|] [|] [|] [|] [|] [|]]; reflexivity. Qed.

Lemma bare_toLowerCase (s : string) : bare (Gen.toLowerCase s) = bare s.
Proof.
  induction s as [|c s IH]; [reflexivity|]. cbn [Gen.toLowerCase].
  now rewrite bare_cons, (bare_cons c), lower_keeps, IH.
Qed.

Lemma bare_replace_spaces : forall (s : string) (inRun : bool),
  bare s = true -> bare (Gen.replace_spaces s inRun) = true.
Proof.
  induction s as [|c s IH]; intros inRun H; [reflexivity|].
  rewrite bare_cons in H. apply andb_prop in H. destruct H as [Hc Hs].
  cbn [Gen.replace_spaces]. destruct (Gen.is_space c).
  - destruct inRun; [now apply IH|]. rewrite bare_cons, IH by exact Hs. reflexivity.
  - now rewrite bare_cons, Hc, IH.
Qed.

Lemma bare_name (i j : N) : bare (Gen.generateRandomName i j) = true.
Proof.
  unfold Gen.generateRandomName. rewrite !bare_app.
  now rewrite !(nth_forallb bare) by reflexivity.
Qed.

Lemma bare_email (name : string) (d : N) (r : Q) (n : N) :
  bare name = true -> bare (Gen.generateRandomEmail name d r n) = true.
Proof.
  intros Hname. unfold Gen.generateRandomEmail.
  assert (He : bare (Gen.replace_spaces (Gen.toLowerCase name) false) = true)
    by (apply bare_replace_spaces; now rewrite bare_toLowerCase).
  destruct (Gen.gt r Gen.double_0_7); rewrite !bare_app, ?number_bare, He;
    now rewrite (nth_forallb bare) by reflexivity.
Qed.

Lemma append_cons_nonempty (a : string) (c : ascii) (b : string) :
  (a ++ String c b)%string <> EmptyString.
Proof. destruct a; discriminate. Qed.

Lemma quotable_intro (s : string) :
  quote_free s = true -> s <> EmptyString -> quotable s = true.
Proof.
  unfold quotable, quote_free. intros -> Hne.
  destruct (String.eqb_spec s EmptyString); [contradiction | reflexivity].
Qed.

Lemma quote_free_number (n : N) : quote_free (Gen.numberToString n) = true.
Proof. apply bare_quote_free, number_bare. Qed.

Lemma number_nonempty (n : N) : Gen.numberToString n <> EmptyString.
Proof.
  unfold Gen.numberToString. destruct n as [|p]; [discriminate|]. cbn [N.to_uint].
  pose proof (DecimalPos.Unsigned.to_uint_nonnil p) as Hnil.
  destruct (Pos.to_uint p); [contradiction | discriminate ..].
Qed.

Lemma quote_free_padStart (k : nat) (s : string) :
  quote_free s = true -> quote_free (Gen.padStart k "0" s) = true.
Proof.
  intros Hs. unfold Gen.padStart. rewrite quote_free_app, Hs, andb_true_r.
  induction (k - String.length s)%nat as [|m IH]; [reflexivity | exact IH].
Qed.

Lemma quotable_address (n s c z : N) :
  match Gen.generateRandomAddress n s c z with
  | Some address => quotable address = true
  | None => True
  end.
Proof.
  unfold Gen.generateRandomAddress.
  destruct (nth_error Gen.cityStates (N.to_nat c)) as [cityState|] eqn:Hc; [|exact I].
  cbv zeta. apply quotable_intro.
  - assert (Hcity : quote_free (Gen.city cityState) && quote_free (Gen.state cityState) = true).
    { apply nth_error_In in Hc. revert cityState Hc. apply forallb_forall. reflexivity. }
    apply andb_prop in Hcity. destruct Hcity as [Hcity Hstate].
    rewrite !quote_free_app, !quote_free_number, Hcity, Hstate.
    now rewrite (nth_forallb quote_free) by reflexivity.
  - apply append_cons_nonempty.
Qed.

Lemma quotable_phone (a p l : N) (formatStyle : Q) :
  quotable (Gen.generateRandomPhoneNumber a p l formatStyle) = true.
Proof.
  unfold Gen.generateRandomPhoneNumber.
  pose proof (quote_free_padStart 4 _ (quote_free_number l)) as Hl.
  destruct (Gen.lt formatStyle 0.25); [|destruct (Gen.lt formatStyle 0.5);
    [|destruct (Gen.lt formatStyle Gen.double_0_7);
      [|destruct (Gen.lt formatStyle Gen.double_0_85)]]];
    (apply quotable_intro;
     [rewrite !quote_free_app, !quote_free_number, Hl; reflexivity|]).
  - discriminate.
  - apply append_cons_nonempty.
  - intros H. apply (number_nonempty (a + 100)).
    destruct (Gen.numberToString (a + 100)); [reflexivity | discriminate].
  - apply append_cons_nonempty.
  - discriminate.
Qed.

Lemma generateFields_readable (d : Gen.Draws) (r : Gen.Row) :
  Gen.generateFields d = Some r -> readable r = true.
Proof.
  unfold Gen.generateFields.
  destruct (Gen.generateRandomAddress _ _ _ _) as [address|] eqn:Haddr; [|discriminate].
  pose proof (quotable_address (Gen.streetNumber d) (Gen.streetName d) (Gen.cityState d)
                (Gen.zipCode d)) as Hq.
  rewrite Haddr in Hq. intros H.
  assert (Hr : r = Gen.mkRow (Gen.generateRandomName (Gen.firstName d) (Gen.lastName d))
                 (Gen.generateRandomAge (Gen.ageDraw d))
                 (Gen.generateRandomEmail
                    (Gen.generateRandomName (Gen.firstName d) (Gen.lastName d))
                    (Gen.domain d) (Gen.addNumbers d) (Gen.numbers d))
                 address
                 (Gen.generateRandomPhoneNumber (Gen.areaCode d) (Gen.prefix d)
                    (Gen.lineNumber d) (Gen.formatStyle d)))
    by congruence.
  rewrite Hr. unfold readable. cbn [Gen.name Gen.email Gen.address Gen.phone].
  now rewrite bare_name, bare_email, Hq, quotable_phone by apply bare_name.
Qed.

Lemma generateFields_throws (d : Gen.Draws) :
  Gen.generateFields d = None <-> (20 <= Gen.cityState d)%N.
Proof.
  unfold Gen.generateFields, Gen.generateRandomAddress.
  destruct (nth_error Gen.cityStates (N.to_nat (Gen.cityState d))) eqn:Hc.
  - split; [discriminate|]. intros Hge.
    assert (Hlt : (N.to_nat (Gen.cityState d) < length Gen.cityStates)%nat)
      by (apply nth_error_Some; congruence).
    cbn [length Gen.cityStates] in Hlt. lia.
  - split; [|reflexivity]. intros _. apply nth_error_None in Hc.
    cbn [length Gen.cityStates] in Hc. lia.
Qed.

(** X18: the five generators give fields that the parser reads back.  A row
    is generated unless the index drawn for the city is out of range, where
    reading the city throws; and in every generated row the name and the
    e-mail hold no quote, comma or line feed, and the address and the phone
    number hold no quote and are not empty, whatever is drawn. *)
Theorem generated_fields_are_readable (d : Gen.Draws) :
  (Gen.generateFields d = None <-> (20 <= Gen.cityState d)%N) /\
  (forall r, Gen.generateFields d = Some r -> readable r = true).
Proof. split; [apply generateFields_throws | apply generateFields_readable]. Qed.

(** ** The batches of the generator *)

Lemma concat_text_app (a b : list string) :
  concat_text (a ++ b) = (concat_text a ++ concat_text b)%string.
Proof.
  induction a as [|s a IH]; [reflexivity|]. cbn [app concat_text].
  now rewrite IH, append_assoc.
Qed.

Lemma ceil_step (r b : Z) :
  1 <= b -> 1 <= r -> (r + b - 1) / b = 1 + (r - Z.min b r + b - 1) / b.
Proof.
  intros Hb Hr. destruct (Z.le_gt_cases b r).
  - rewrite Z.min_l by lia.
    replace (r + b - 1) with ((r - b + b - 1) + 1 * b) by lia.
    rewrite Z.div_add by lia. lia.
  - rewrite Z.min_r by lia. replace (r - r + b - 1) with (b - 1) by lia.
    replace (r + b - 1) with ((r - 1) + 1 * b) by lia.
    rewrite Z.div_add, !Z.div_small by lia. lia.
Qed.

Section Batches.

Variable draws : nat -> Gen.Draws.
Variable rows : list Gen.Row.
Variable batchSize : Z.

Hypothesis rows_generated :
  forall k r, nth_error rows k = Some r -> Gen.generateFields (draws k) = Some r.

Lemma generateBatch_rows : forall (count k : nat) (batch : string),
  (k + count <= length rows)%nat ->
  Gen.generateBatch draws count k batch
  = Some (batch ++ concat_text (map Gen.rowText (firstn count (skipn k rows))))%string.
Proof.
  induction count as [|count IH]; intros k batch Hk.
  - cbn. now rewrite append_empty_r.
  - cbn [Gen.generateBatch].
    destruct (nth_error rows k) as [r|] eqn:Hr;
      [|apply nth_error_None in Hr; lia].
    rewrite (rows_generated k r Hr), IH by lia.
    rewrite (skipn_nth_error _ _ _ Hr). cbn [firstn map concat_text].
    now rewrite append_assoc.
Qed.

Lemma run_batches : forall (fuel i : nat) (w : list string),
  1 <= batchSize -> (i <= length rows)%nat -> (length rows - i < fuel)%nat ->
  exists batches,
    Gen.run draws fuel (Z.of_nat (length rows)) batchSize (Gen.mk (Z.of_nat i) false w i)
    = Gen.Resolved (w ++ batches) /\
    concat_text batches = concat_text (map Gen.rowText (skipn i rows)) /\
    Z.of_nat (length batches) = (Z.of_nat (length rows - i) + batchSize - 1) / batchSize.
Proof.
  induction fuel as [|fuel IH]; intros i w Hb Hi Hfuel; [lia|].
  cbn [Gen.run]. unfold Gen.processBatch.
  cbn [Gen.rowsWritten Gen.isWriting Gen.written Gen.generated].
  destruct (Z.leb_spec (Z.of_nat (length rows)) (Z.of_nat i)) as [Hdone|Hmore].
  - exists []. rewrite app_nil_r. split; [reflexivity|].
    replace i with (length rows) by lia. rewrite skipn_all, Nat.sub_diag.
    split; [reflexivity|]. rewrite Z.div_small; [reflexivity | lia].
  - set (batchEnd := Z.min (Z.of_nat i + batchSize) (Z.of_nat (length rows))).
    set (count := Z.to_nat (batchEnd - Z.of_nat i)).
    assert (Hcount : Z.of_nat count = Z.min batchSize (Z.of_nat (length rows - i)))
      by (subst count batchEnd; lia).
    assert (Hend : batchEnd = Z.of_nat (i + count)) by (subst count batchEnd; lia).
    rewrite generateBatch_rows by lia. cbn [append]. rewrite Hend.
    destruct (IH (i + count)%nat
                 (w ++ [concat_text (map Gen.rowText (firstn count (skipn i rows)))]))
      as (batches & -> & Htext & Hlen); [lia | lia | lia |].
    eexists. split; [now rewrite <- app_assoc|]. split.
    + cbn [app concat_text]. rewrite Htext, <- concat_text_app, <- map_app.
      rewrite Nat.add_comm, <- skipn_skipn, firstn_skipn. reflexivity.
    + cbn [app length]. rewrite Nat2Z.inj_succ, Hlen.
      rewrite (ceil_step (Z.of_nat (length rows - i)) batchSize) by lia.
      replace (Z.of_nat (length rows - (i + count)) + batchSize - 1)
        with (Z.of_nat (length rows - i) - Z.of_nat count + batchSize - 1) by lia.
      rewrite Hcount. lia.
Qed.

Lemma generateLargeCsv_rows (fuel : nat) :
  1 <= batchSize -> (length rows < fuel)%nat ->
  exists batches,
    Gen.generateLargeCsv draws (Z.of_nat (length rows)) batchSize fuel
    = Gen.Resolved (Gen.header :: batches) /\
    concat_text batches = concat_text (map Gen.rowText rows) /\
    Z.of_nat (length batches) = (Z.of_nat (length rows) + batchSize - 1) / batchSize.
Proof.
  intros Hb Hfuel. unfold Gen.generateLargeCsv.
  destruct (run_batches fuel 0 [Gen.header] Hb) as (batches & Hrun & Htext & Hlen);
    [lia | lia |].
  exists batches. rewrite Nat.sub_0_r in Hlen. auto.
Qed.

End Batches.

(** X19: the batches write every row once.  For a batch size of at least
    one, after more calls of [processBatch] than there are rows the promise is
    resolved; the header was written first, then the batches, which hold
    together the texts of the rows in the order they were generated, whatever
    the batch size; and there are as many batches as the batch size goes into
    the number of rows, rounded up. *)
Theorem batches_write_every_row_once (draws : nat -> Gen.Draws) (rows : list Gen.Row)
    (batchSize : Z) (fuel : nat) :
  (forall k r, nth_error rows k = Some r -> Gen.generateFields (draws k) = Some r) ->
  1 <= batchSize -> (length rows < fuel)%nat ->
  exists batches,
    Gen.generateLargeCsv draws (Z.of_nat (length rows)) batchSize fuel
    = Gen.Resolved (Gen.header :: batches) /\
    concat_text (Gen.header :: batches) = file_text rows /\
    Z.of_nat (length batches) = (Z.of_nat (length rows) + batchSize - 1) / batchSize.
Proof.
  intros Hgen Hb Hfuel.
  destruct (generateLargeCsv_rows draws rows batchSize Hgen fuel Hb Hfuel)
    as (batches & Hrun & Htext & Hlen).
  exists batches. split; [exact Hrun|]. split; [|exact Hlen].
  cbn [concat_text]. unfold file_text. now rewrite Htext.
Qed.

Lemma batches_write_every_row_once_witness :
  exists batches,
    Gen.generateLargeCsv
      (fun _ => Gen.mkDraws 0 1 12 2 0.75 7 23 4 5 1234 455 23 67 0.375)
      (Z.of_nat (length [Gen.mkRow "James Johnson" 30 "james.johnson7@hotmail.com"
                           "123 Park Ave, Philadelphia, PA 11234" "555-123-0067";
                         Gen.mkRow "James Johnson" 30 "james.johnson7@hotmail.com"
                           "123 Park Ave, Philadelphia, PA 11234" "555-123-0067";
                         Gen.mkRow "James Johnson" 30 "james.johnson7@hotmail.com"
                           "123 Park Ave, Philadelphia, PA 11234" "555-123-0067"]))
      2 4
    = Gen.Resolved (Gen.header :: batches) /\
    concat_text (Gen.header :: batches)
    = file_text [Gen.mkRow "James Johnson" 30 "james.johnson7@hotmail.com"
                   "123 Park Ave, Philadelphia, PA 11234" "555-123-0067";
                 Gen.mkRow "James Johnson" 30 "james.johnson7@hotmail.com"
                   "123 Park Ave, Philadelphia, PA 11234" "555-123-0067";
                 Gen.mkRow "James Johnson" 30 "james.johnson7@hotmail.com"
                   "123 Park Ave, Philadelphia, PA 11234" "555-123-0067"] /\
    Z.of_nat (length batches)
    = (Z.of_nat (length [Gen.mkRow "James Johnson" 30 "james.johnson7@hotmail.com"
                           "123 Park Ave, Philadelphia, PA 11234" "555-123-0067";
                         Gen.mkRow "James Johnson" 30 "james.johnson7@hotmail.com"
                           "123 Park Ave, Philadelphia, PA 11234" "555-123-0067";
                         Gen.mkRow "James Johnson" 30 "james.johnson7@hotmail.com"
                           "123 Park Ave, Philadelphia, PA 11234" "555-123-0067"])
       + 2 - 1) / 2.
Proof.
  apply batches_write_every_row_once.
  - intros [|[|[|k]]] r H; cbn in H; try (destruct k; discriminate);
      injection H as <-; vm_compute; reflexivity.
  - lia.
  - cbn. lia.
Defined.

Lemma run_nonpositive (draws : nat -> Gen.Draws) (numLines batchSize : Z) :
  batchSize <= 0 -> 1 <= numLines ->
  forall (fuel : nat) (i : Z) (w : list string),
    i <= 0 ->
    exists i',
      i' <= 0 /\
      Gen.run draws fuel numLines batchSize (Gen.mk i false w 0)
      = Gen.Pending (Gen.mk i' false (w ++ repeat EmptyString fuel) 0).
Proof.
  intros Hb Hn. induction fuel as [|fuel IH]; intros i w Hi.
  - exists i. cbn. now rewrite app_nil_r.
  - cbn [Gen.run]. unfold Gen.processBatch.
    cbn [Gen.rowsWritten Gen.isWriting Gen.written Gen.generated].
    destruct (Z.leb_spec numLines i); [lia|].
    replace (Z.to_nat (Z.min (i + batchSize) numLines - i)) with 0%nat by lia.
    cbn [Gen.generateBatch Nat.add].
    destruct (IH (Z.min (i + batchSize) numLines) (w ++ [EmptyString])) as (i' & Hi' & ->);
      [lia|].
    exists i'. split; [exact Hi'|]. cbn [repeat]. now rewrite <- app_assoc.
Qed.

(** X20: a batch size that is not positive never ends.  When rows are asked
    for, every call of [processBatch] writes an empty batch, generates no row
    and arranges the next call: after any number of calls the promise is
    still pending, nothing but the header is in the file, and [rowsWritten]
    has not gone above zero. *)
Theorem nonpositive_batch_size_never_resolves (draws : nat -> Gen.Draws)
    (numLines batchSize : Z) (fuel : nat) :
  batchSize <= 0 -> 1 <= numLines ->
  exists st,
    Gen.generateLargeCsv draws numLines batchSize fuel = Gen.Pending st /\
    Gen.written st = Gen.header :: repeat EmptyString fuel /\
    concat_text (Gen.written st) = Gen.header /\
    Gen.generated st = 0%nat /\ Gen.rowsWritten st <= 0.
Proof.
  intros Hb Hn. unfold Gen.generateLargeCsv.
  destruct (run_nonpositive draws numLines batchSize Hb Hn fuel 0 [Gen.header])
    as (i' & Hi' & ->); [lia|].
  eexists. split; [reflexivity|]. cbn [Gen.written Gen.generated Gen.rowsWritten app].
  repeat split; [|exact Hi']. cbn [concat_text].
  induction fuel as [|fuel IH]; [reflexivity | exact IH].
Qed.

Lemma nonpositive_batch_size_never_resolves_witness :
  exists st,
    Gen.generateLargeCsv (fun _ => Gen.mkDraws 0 1 12 2 0.75 7 23 4 5 1234 455 23 67 0.375)
      3 0 5 = Gen.Pending st /\
    Gen.written st = Gen.header :: repeat EmptyString 5 /\
    concat_text (Gen.written st) = Gen.header /\
    Gen.generated st = 0%nat /\ Gen.rowsWritten st <= 0.
Proof. apply nonpositive_batch_size_never_resolves; lia. Defined.

Lemma generateBatch_throws (draws : nat -> Gen.Draws) :
  forall (count k : nat) (batch : string),
    Gen.generateBatch draws count k batch = None ->
    exists k', (20 <= Gen.cityState (draws k'))%N.
Proof.
  induction count as [|count IH]; intros k batch H; [discriminate|].
  cbn [Gen.generateBatch] in H.
  destruct (Gen.generateFields (draws k)) as [r|] eqn:Hr.
  - exact (IH _ _ H).
  - exists k. now apply generateFields_throws.
Qed.

Lemma run_not_stalled (draws : nat -> Gen.Draws) (numLines batchSize : Z) :
  forall (fuel : nat) (i : Z) (w : list string) (g : nat),
    Gen.run draws fuel numLines batchSize (Gen.mk i false w g) <> Gen.Stalled /\
    (Gen.run draws fuel numLines batchSize (Gen.mk i false w g) = Gen.Thrown ->
     exists k, (20 <= Gen.cityState (draws k))%N).
Proof.
  induction fuel as [|fuel IH]; intros i w g; [split; discriminate|].
  cbn [Gen.run]. unfold Gen.processBatch.
  cbn [Gen.rowsWritten Gen.isWriting Gen.written Gen.generated].
  destruct (numLines <=? i); [split; discriminate|].
  destruct (Gen.generateBatch draws _ g EmptyString) as [batch|] eqn:Hbatch.
  - apply IH.
  - split; [discriminate|]. intros _. exact (generateBatch_throws draws _ _ _ Hbatch).
Qed.

(** X21: the guard [if (isWriting) return] of [processBatch] is never taken:
    the flag is false whenever the function is called, so the generator never
    stops with the promise pending and no call arranged; and it throws only
    when the index drawn for the city of some row is out of range. *)
Theorem generator_never_stalls (draws : nat -> Gen.Draws) (numLines batchSize : Z)
    (fuel : nat) :
  Gen.generateLargeCsv draws numLines batchSize fuel <> Gen.Stalled /\
  (Gen.generateLargeCsv draws numLines batchSize fuel = Gen.Thrown ->
   exists k, (20 <= Gen.cityState (draws k))%N).
Proof. apply run_not_stalled. Qed.

Lemma generated_rows (draws : nat -> Gen.Draws) :
  forall n : nat,
    (forall k, (k < n)%nat -> (Gen.cityState (draws k) < 20)%N) ->
    exists rows,
      length rows = n /\
      (forall k r, nth_error rows k = Some r -> Gen.generateFields (draws k) = Some r) /\
      forallb readable rows = true.
Proof.
  induction n as [|n IH]; intros Hdraws.
  - exists []. repeat split. intros [|k] r H; discriminate.
  - destruct IH as (rows & Hlen & Hgen & Hall); [intros k Hk; apply Hdraws; lia|].
    destruct (Gen.generateFields (draws n)) as [r|] eqn:Hr.
    + exists (rows ++ [r]). split; [rewrite length_app; cbn; lia|]. split.
      * intros k r' Hk. destruct (Nat.lt_ge_cases k (length rows)) as [Hlt|Hge].
        -- rewrite nth_error_app1 in Hk by exact Hlt. now apply Hgen.
        -- rewrite nth_error_app2 in Hk by exact Hge.
           destruct (k - length rows)%nat as [|m] eqn:Hm;
             [|destruct m; discriminate].
           cbn in Hk. replace k with n by lia. congruence.
      * rewrite forallb_app, Hall. cbn.
        now rewrite (generateFields_readable _ _ Hr).
    + apply generateFields_throws in Hr. specialize (Hdraws n ltac:(lia)). lia.
Qed.

(** X22: the generator and the parser fit together.  For a batch size of at
    least one and draws whose city index is in range, the generator resolves,
    and the parser, given the file it wrote as one chunk, returns one record
    for each row generated, in the order of generation, holding the name,
    the age, the e-mail, the address and the phone number that were
    generated, under these names. *)
Theorem generated_file_is_read_back (draws : nat -> Gen.Draws) (numLines batchSize : Z)
    (fuel : nat) :
  0 <= numLines -> 1 <= batchSize -> (Z.to_nat numLines < fuel)%nat ->
  (forall k, (k < Z.to_nat numLines)%nat -> (Gen.cityState (draws k) < 20)%N) ->
  exists batches rows,
    Gen.generateLargeCsv draws numLines batchSize fuel
    = Gen.Resolved (Gen.header :: batches) /\
    Z.of_nat (length rows) = numLines /\
    (forall k r, nth_error rows k = Some r -> Gen.generateFields (draws k) = Some r) /\
    records [bytes (concat_text (Gen.header :: batches))]
    = map (fun r => LogRow (record_of r)) rows.
Proof.
  intros Hn Hb Hfuel Hdraws.
  destruct (generated_rows draws (Z.to_nat numLines) Hdraws) as (rows & Hlen & Hgen & Hall).
  destruct (generateLargeCsv_rows draws rows batchSize Hgen fuel Hb)
    as (batches & Hrun & Htext & _); [lia|].
  exists batches, rows. rewrite Hlen, Z2Nat.id in Hrun by exact Hn.
  split; [exact Hrun|]. split; [lia|]. split; [exact Hgen|].
  cbn [concat_text]. rewrite Htext. now apply records_file.
Qed.

Lemma generated_file_is_read_back_witness :
  exists batches rows,
    Gen.generateLargeCsv (fun _ => Gen.mkDraws 0 1 12 2 0.75 7 23 4 5 1234 455 23 67 0.375)
      3 2 4
    = Gen.Resolved (Gen.header :: batches) /\
    Z.of_nat (length rows) = 3 /\
    (forall k r, nth_error rows k = Some r ->
       Gen.generateFields (Gen.mkDraws 0 1 12 2 0.75 7 23 4 5 1234 455 23 67 0.375) = Some r) /\
    records [bytes (concat_text (Gen.header :: batches))]
    = map (fun r => LogRow (record_of r)) rows.
Proof.
  apply (generated_file_is_read_back
           (fun _ => Gen.mkDraws 0 1 12 2 0.75 7 23 4 5 1234 455 23 67 0.375) 3 2 4).
  - lia.
  - lia.
  - cbn. lia.
  - intros k _. cbn. lia.
Defined.

(** ** The phone numbers of the generator *)

Lemma digits_of_app (a b : string) :
  digits_of (a ++ b) = (digits_of a ++ digits_of b)%string.
Proof.
  induction a as [|c a IH]; [reflexivity|]. cbn [append digits_of].
  destruct (Obj.is_digit c); cbn [append]; now rewrite IH.
Qed.

Lemma digits_of_uint (u : Decimal.uint) :
  digits_of (NilEmpty.string_of_uint u) = NilEmpty.string_of_uint u.
Proof.
  induction u; [reflexivity | ..]; cbn [NilEmpty.string_of_uint];
    (etransitivity; [|apply f_equal; exact IHu]); reflexivity.
Qed.

Lemma digits_of_number (n : N) :
  digits_of (Gen.numberToString n) = Gen.numberToString n.
Proof. apply digits_of_uint. Qed.

Lemma digits_of_padStart (k : nat) (s : string) :
  digits_of s = s -> digits_of (Gen.padStart k "0" s) = Gen.padStart k "0" s.
Proof.
  intros Hs. unfold Gen.padStart. rewrite digits_of_app, Hs. f_equal.
  induction (k - String.length s)%nat as [|m IH]; [reflexivity|].
  cbn [Gen.repeat_char]. etransitivity; [|apply f_equal; exact IH]. reflexivity.
Qed.

Lemma length_append (a b : string) :
  String.length (a ++ b) = (String.length a + String.length b)%nat.
Proof. induction a as [|c a IH]; [reflexivity|]. cbn. now rewrite IH. Qed.

Lemma three_digits (a : N) :
  (a < 900)%N -> String.length (Gen.numberToString (a + 100)) = 3%nat.
Proof.
  intros Ha.
  assert (Hall : forallb (fun k => Nat.eqb (String.length
                                               (Gen.numberToString (N.of_nat k + 100))) 3)
                   (seq 0 900) = true) by (vm_compute; reflexivity).
  rewrite forallb_forall in Hall. specialize (Hall (N.to_nat a)).
  rewrite N2Nat.id in Hall. apply Nat.eqb_eq, Hall, in_seq. lia.
Qed.

Lemma four_digits (l : N) :
  (l < 10000)%N -> String.length (Gen.padStart 4 "0" (Gen.numberToString l)) = 4%nat.
Proof.
  intros Hl.
  assert (Hall : forallb (fun k => Nat.eqb (String.length
                                               (Gen.padStart 4 "0"
                                                  (Gen.numberToString (N.of_nat k)))) 4)
                   (seq 0 (N.to_nat 10000)) = true) by (vm_compute; reflexivity).
  rewrite forallb_forall in Hall. specialize (Hall (N.to_nat l)).
  rewrite N2Nat.id in Hall. apply Nat.eqb_eq, Hall, in_seq. lia.
Qed.

Lemma lt_below (x lo hi : Q) :
  (lo <= hi)%Q -> Gen.lt x lo = true -> Gen.lt x hi = true.
Proof.
  unfold Gen.lt. rewrite !negb_true_iff. intros Hle Hlo.
  destruct (Qle_bool hi x) eqn:Hhi; [|reflexivity].
  apply Qle_bool_iff in Hhi.
  assert (H : Qle_bool lo x = true); [|congruence].
  apply Qle_bool_iff. now apply Qle_trans with hi.
Qed.

(** X24: a generated phone number has ten digits.  For numbers drawn in
    their ranges, the digits of the phone number, in order, are the three of
    the area code, the three of the prefix and the four of the line number,
    which is padded with zeros, in each of the five formats; the last format,
    taken when the number drawn for the format is not below the double 0.85,
    puts the digit 1 before them. *)
Theorem phone_number_has_ten_digits (a p l : N) (formatStyle : Q) :
  (a < 900)%N -> (p < 900)%N -> (l < 10000)%N ->
  let national :=
    (Gen.numberToString (a + 100) ++ Gen.numberToString (p + 100)
     ++ Gen.padStart 4 "0" (Gen.numberToString l))%string in
  String.length national = 10%nat /\
  digits_of (Gen.generateRandomPhoneNumber a p l formatStyle)
  = (if Gen.lt formatStyle Gen.double_0_85 then national else String "1" national).
Proof.
  intros Ha Hp Hl national. split.
  - subst national. rewrite !length_append, !three_digits, four_digits by assumption.
    reflexivity.
  - subst national. unfold Gen.generateRandomPhoneNumber.
    pose proof (digits_of_padStart 4 _ (digits_of_number l)) as Hline.
    pose proof (digits_of_number (a + 100)) as Harea.
    pose proof (digits_of_number (p + 100)) as Hprefix.
    set (line := Gen.padStart 4 "0" (Gen.numberToString l)) in *.
    set (area := Gen.numberToString (a + 100)) in *.
    set (prefix := Gen.numberToString (p + 100)) in *.
    assert (H25 : (0.25 <= Gen.double_0_85)%Q) by discriminate.
    assert (H5 : (0.5 <= Gen.double_0_85)%Q) by discriminate.
    assert (H7 : (Gen.double_0_7 <= Gen.double_0_85)%Q) by discriminate.
    destruct (Gen.lt formatStyle 0.25) eqn:E1;
      [rewrite (lt_below _ _ _ H25 E1)
      |destruct (Gen.lt formatStyle 0.5) eqn:E2;
       [rewrite (lt_below _ _ _ H5 E2)
       |destruct (Gen.lt formatStyle Gen.double_0_7) eqn:E3;
        [rewrite (lt_below _ _ _ H7 E3)
        |destruct (Gen.lt formatStyle Gen.double_0_85) eqn:E4]]];
      rewrite !digits_of_app, Harea, Hprefix, Hline; reflexivity.
Qed.

(** At the double 0.85 itself the last format is taken. *)
Lemma phone_number_has_ten_digits_witness :
  digits_of (Gen.generateRandomPhoneNumber 0 0 0 Gen.double_0_85) = "11001000000"%string.
Proof.
  assert (Ha : (0 < 900)%N) by reflexivity.
  assert (Hl : (0 < 10000)%N) by reflexivity.
  destruct (phone_number_has_ten_digits 0 0 0 Gen.double_0_85 Ha Ha Hl) as [_ W].
  rewrite W. reflexivity.
Defined.

Example phone_formats_at_the_thresholds :
  Gen.generateRandomPhoneNumber 0 0 0 Gen.double_0_85 = "+1 100 100 0000"%string /\
  Gen.generateRandomPhoneNumber 0 0 0 Gen.double_0_7 = "100.100.0000"%string /\
  Gen.generateRandomPhoneNumber 0 0 0 0.5 = "1001000000"%string /\
  Gen.generateRandomPhoneNumber 0 0 0 0.25 = "100-100-0000"%string /\
  Gen.generateRandomPhoneNumber 0 0 0 0 = "(100) 100-0000"%string.
Proof. repeat split. Qed.

(** ** The e-mail of a generated name *)

Lemma toLowerCase_app (a b : string) :
  Gen.toLowerCase (a ++ b) = (Gen.toLowerCase a ++ Gen.toLowerCase b)%string.
Proof. induction a as [|c a IH]; [reflexivity|]. cbn. now rewrite IH. Qed.

Lemma lower_space (c : ascii) : Gen.is_space (Gen.lower c) = Gen.is_space c.
Proof. destruct c as [[|] [|] [|] [|] [|] [|] [|] [|]]; reflexivity. Qed.

Lemma no_space_toLowerCase (s : string) : no_space (Gen.toLowerCase s) = no_space s.
Proof.
  induction s as [|c s IH]; [reflexivity|]. cbn. now rewrite lower_space, IH.
Qed.

Lemma replace_spaces_word : forall (s rest : string) (inRun : bool),
  no_space s = true -> s <> EmptyString ->
  Gen.replace_spaces (s ++ rest) inRun = (s ++ Gen.replace_spaces rest false)%string.
Proof.
  induction s as [|c s IH]; intros rest inRun Hs Hne; [congruence|].
  cbn [no_space] in Hs. apply andb_prop in Hs. destruct Hs as [Hc Hs].
  apply negb_true_iff in Hc. cbn [append Gen.replace_spaces]. rewrite Hc. f_equal.
  destruct s as [|c' s']; [reflexivity|]. now apply IH.
Qed.

Lemma replace_spaces_plain : forall (s : string) (inRun : bool),
  no_space s = true -> Gen.replace_spaces s inRun = s.
Proof.
  induction s as [|c s IH]; intros inRun Hs; [reflexivity|].
  cbn [no_space] in Hs. apply andb_prop in Hs. destruct Hs as [Hc Hs].
  apply negb_true_iff in Hc. cbn [Gen.replace_spaces]. rewrite Hc. f_equal.
  now apply IH.
Qed.

Lemma word_of_list (l : list string) (d : string) (i : nat) :
  forallb (fun s => no_space s && negb (String.eqb s EmptyString)) l = true ->
  no_space d && negb (String.eqb d EmptyString) = true ->
  no_space (Gen.toLowerCase (nth i l d)) = true /\
  Gen.toLowerCase (nth i l d) <> EmptyString.
Proof.
  intros Hl Hd.
  pose proof (nth_forallb (fun s => no_space s && negb (String.eqb s EmptyString)) l d
                Hl Hd i) as H.
  apply andb_prop in H. destruct H as [Hs Hne]. split.
  - now rewrite no_space_toLowerCase.
  - destruct (nth i l d); [discriminate | discriminate].
Qed.

(** X25: the e-mail of a generated name is the first name, a dot and the
    last name, in lower case, followed by the number if one is added, and
    by the domain after an at sign. *)
Theorem email_of_generated_name (i j d : N) (r : Q) (n : N) :
  Gen.generateRandomEmail (Gen.generateRandomName i j) d r n
  = (Gen.toLowerCase (nth (N.to_nat i) Gen.firstNames Gen.undefined) ++ "."
     ++ Gen.toLowerCase (nth (N.to_nat j) Gen.lastNames Gen.undefined)
     ++ (if Gen.gt r Gen.double_0_7 then Gen.numberToString n else EmptyString)
     ++ "@" ++ nth (N.to_nat d) Gen.domains Gen.undefined)%string.
Proof.
  unfold Gen.generateRandomEmail, Gen.generateRandomName.
  destruct (word_of_list Gen.firstNames Gen.undefined (N.to_nat i) eq_refl eq_refl)
    as [Hf Hfne].
  destruct (word_of_list Gen.lastNames Gen.undefined (N.to_nat j) eq_refl eq_refl)
    as [Hl Hlne].
  rewrite !toLowerCase_app. cbn [Gen.toLowerCase].
  change (String (Gen.lower " ") EmptyString ++ ?x)%string with (String " " x).
  rewrite (replace_spaces_word _ _ false Hf Hfne).
  change (Gen.replace_spaces
            (String " " (Gen.toLowerCase (nth (N.to_nat j) Gen.lastNames Gen.undefined)))
            false)
    with (String "." (Gen.replace_spaces
                        (Gen.toLowerCase (nth (N.to_nat j) Gen.lastNames Gen.undefined))
                        true)).
  rewrite (replace_spaces_plain _ true Hl).
  destruct (Gen.gt r Gen.double_0_7); rewrite ?append_assoc; reflexivity.
Qed.
